(** * gapc: the CYK traversal generator (src/cyk.cc) and the outside
    empty-word check (src/outside/grammar_transformation.cc)

    The generator builds a tree of target-code statements (loops,
    declarations, calls, preprocessor lines).  The tree is embedded as an
    inductive type, the builder functions of cyk.cc as functions on it, and a
    small evaluator gives the generated loops their C++ meaning so that
    statements about visited table cells and loop end values can be made. *)

From Stdlib Require Import ZArith List String Bool Lia.
Import ListNotations.

Set Warnings "-register-all".

Local Open Scope string_scope.
Local Open Scope list_scope.
Local Open Scope Z_scope.

(** [std::string] concatenation; [++] stays list concatenation *)
Infix "+++" := String.append (right associativity, at level 60).

(** ** Fallible code: [.at()], assertions, dereferencing an empty range *)

Definition bind {A B : Type} (m : option A) (f : A -> option B) : option B :=
  match m with
  | Some a => f a
  | None => None
  end.

Notation "x <- m ;; k" := (bind m (fun x => k))
  (at level 61, m at next level, right associativity).
Notation "' p <- m ;; k" := (bind m (fun p => k))
  (at level 61, p pattern, m at next level, right associativity).

(** [assert(b)] *)
Definition assert (b : bool) : option unit := if b then Some tt else None.

(** ** Target-code expressions (namespace Expr) *)

Module Expr.

(** Modelled from the spec: the expression classes of the target-code
    builder are declared in expr.hh, which is not embedded here; the
    constructors are the ones cyk.cc builds. *)
Inductive Base : Type :=
| Const (c : Z)
| Vacc (name : string)
| Plus (l r : Base)
| Minus (l r : Base)
| Times (l r : Base)
| Div (l r : Base)
| Less (l r : Base)
| Greater (l r : Base)
| Or (l r : Base)
| Not (e : Base)
| Cond (c t e : Base)
| Fn_Call (name : string) (args : list Base) (is_obj : bool).

(** [e->plus(x)] and [e->minus(x)] *)
Definition plus (e x : Base) : Base := Plus e x.
Definition minus (e x : Base) : Base := Minus e x.

(** operator of a compound assignment, [Expr::Type::PLUS] *)
Inductive Type_ : Type := PLUS.

End Expr.

(** ** Target-code types (namespace Type) *)

Module Ty.

(** Modelled from the spec: the type classes of the target-code builder
    are declared in type.hh, which is not embedded here. *)
Inductive Base : Type :=
| Size
| Int
| External (s : string)
| RealVoid.

End Ty.

(** ** Target-code statements (namespace Statement) *)

Module Statement.

(** Modelled from the spec: the statement classes of the target-code
    builder (declaration, assignment, loop, call, verbatim line, block) are
    declared in statement.hh, which is not embedded here; the fields are the
    ones cyk.cc reads and writes. *)
Record Var_Decl : Type := mkVar_Decl {
  type : Ty.Base;
  name : string;
  rhs : Expr.Base
}.

Record Var_Assign : Type := mkVar_Assign {
  acc : string;
  assign_rhs : Expr.Base;
  op : option Expr.Type_
}.

Inductive Builtin : Type := NONE | ASSERT.

Inductive Base : Type :=
| SVar_Decl (d : Var_Decl)
| SVar_Assign (a : Var_Assign)
| For (var_decl : Var_Decl) (cond : Expr.Base) (inc : option Var_Assign)
      (statements : list Base)
| Fn_Call (builtin : Builtin) (fname : string) (args : list Expr.Base)
          (is_obj : bool)
| CustomCode (line : string)
| Block (statements : list Base).

(** [s->is(Statement::FOR)] *)
Definition is_FOR (s : Base) : bool :=
  match s with For _ _ _ _ => true | _ => false end.

(** [s->is(Statement::FN_CALL)] *)
Definition is_FN_CALL (s : Base) : bool :=
  match s with Fn_Call _ _ _ _ => true | _ => false end.

(** [x->set_op(o)] *)
Definition set_op (o : Expr.Type_) (x : Var_Assign) : Var_Assign :=
  mkVar_Assign (acc x) (assign_rhs x) (Some o).

End Statement.

Import Statement.

Record Fn_Def : Type := mkFn_Def {
  return_type : Ty.Base;
  fn_name : string;
  stmts : list Statement.Base
}.

(** ** What the generator reads from the front end *)

Module Yield.

(** Modelled from the spec: [Yield::Poly] is declared in yieldsize.hh, which
    is not embedded here: a yield-size bound is a number or unbounded. *)
Inductive Poly : Type :=
| Num (i : N)
| UP.

Record Size : Type := mkSize { low : Poly; high : Poly }.

(** Modelled from the spec: [p > b] of [Yield::Poly] for a plain number
    [b]; an unbounded value exceeds every number. *)
Definition gt (p : Poly) (b : N) : bool :=
  match p with
  | Num i => N.ltb b i
  | UP => true
  end.

End Yield.

(** Modelled from the spec: the table descriptor of a nonterminal on one
    track (declared in table.hh, which is not embedded here), by its two
    elimination flags. *)
Record Table : Type := mkTable {
  delete_left_index : bool;
  delete_right_index : bool
}.

Module Symbol.

(** Modelled from the spec: [Symbol::NT] (declared in symbol.hh, which is
    not embedded here), by the members cyk.cc and the outside check read;
    the per-track vectors are indexed by track number. *)
Record NT : Type := mkNT {
  is_tabulated : bool;
  tracks : nat;
  tables : list Table;
  left_indices : list string;
  right_indices : list string;
  code_list : list string;   (* names of the generated functions *)
  multi_ys : list Yield.Size
}.

End Symbol.

(** Modelled from the spec: [Grammar] and [AST] (grammar.hh and ast.hh,
    which are not embedded here), by the members read here. *)
Record Grammar : Type := mkGrammar {
  gname : string;
  location : string;
  axiom : Symbol.NT;
  left_running_indices : list string;
  right_running_indices : list string;
  topological_ord : list Symbol.NT
}.

Record AST : Type := mkAST {
  cyk : bool;
  checkpoint_cyk : bool;          (* ast.checkpoint && ast.checkpoint->cyk *)
  outside_generation : bool;
  seq_decls : list Var_Decl;
  grammar : Grammar
}.

(** ** cyk.cc *)

Definition MUTEX : string := "mutex".
Definition VARNAME_OuterLoop1 : string := "outer_loop_1_idx".
Definition VARNAME_OuterLoop2 : string := "outer_loop_2_idx".
Definition VARNAME_InnerLoop2 : string := "inner_loop_2_idx".

Definition mutex_lock : Statement.Base :=
  Fn_Call NONE "lock_shared" [Expr.Vacc MUTEX] true.

Definition mutex_unlock : Statement.Base :=
  Fn_Call NONE "unlock_shared" [Expr.Vacc MUTEX] true.

(** [seq.size()] as built in several places of cyk.cc *)
Definition seq_size (seq : Var_Decl) : Expr.Base :=
  Expr.Fn_Call "size" [Expr.Vacc (name seq)] true.

Definition tile_size_decl : Var_Decl :=
  mkVar_Decl Ty.Size "tile_size" (Expr.Const 32).

Definition get_tile_computation (ast : AST) (name_maxtilen : string)
    (input_seq : Var_Decl) (just_tilesize : bool)
    : list Statement.Base * Var_Decl :=
  let tile_size := tile_size_decl in
  let rest (res : list Statement.Base) :=
    let end_ := seq_size input_seq in
    let max_tiles :=
      mkVar_Decl Ty.Size "max_tiles"
        (Expr.Div end_ (Expr.Vacc (name tile_size))) in
    let max_tiles_n :=
      mkVar_Decl Ty.Int name_maxtilen
        (Expr.Times (Expr.Vacc (name max_tiles))
                    (Expr.Vacc (name tile_size))) in
    (res ++ [ Fn_Call ASSERT "assert" [Expr.Vacc (name tile_size)] false;
              SVar_Decl max_tiles;
              SVar_Decl max_tiles_n ],
     tile_size) in
  if negb (checkpoint_cyk ast) || just_tilesize then
    let res :=
      [ SVar_Decl tile_size;
        CustomCode "#ifdef TILE_SIZE";
        SVar_Assign
          (mkVar_Assign (name tile_size) (Expr.Vacc "TILE_SIZE") None);
        CustomCode "#endif" ] in
    if just_tilesize then (res, tile_size) else rest res
  else rest [].

(** deep copy of a list of statements: the identity on values *)
Definition copy_statements (other : list Statement.Base)
    : list Statement.Base := other.

(** A loop and the declaration of the index the loop did not reach.  The
    constructor asserts that both name the same variable. *)
Record CYKloop : Type := mkCYKloop {
  loop : Statement.Base;
  end_state : Var_Decl
}.

Definition loop_var_decl (s : Statement.Base) : option Var_Decl :=
  match s with
  | For vd _ _ _ => Some vd
  | _ => None
  end.

Definition new_CYKloop (l : Statement.Base) (e : Var_Decl) : option CYKloop :=
  vd <- loop_var_decl l ;;
  _ <- assert (String.eqb (name vd) (name e)) ;;
  Some (mkCYKloop l e).

Inductive CYKmode : Type :=
| SINGLETHREAD
| OPENMP_PARALLEL
| OPENMP_SERIAL
| SINGLETHREAD_OUTSIDE.

Definition CYKmode_eqb (a b : CYKmode) : bool :=
  match a, b with
  | SINGLETHREAD, SINGLETHREAD
  | OPENMP_PARALLEL, OPENMP_PARALLEL
  | OPENMP_SERIAL, OPENMP_SERIAL
  | SINGLETHREAD_OUTSIDE, SINGLETHREAD_OUTSIDE => true
  | _, _ => false
  end.

(** the checkpoint rewrite of a loop start shared by both loop builders:
    [<name>_loaded++ ? start : <name>] *)
Definition checkpoint_start (running_boundary : string) (start : Expr.Base)
    : Expr.Base :=
  Expr.Cond (Expr.Vacc (running_boundary +++ "_loaded++")) start
            (Expr.Vacc running_boundary).

Definition get_for_column (running_boundary : string)
    (start end_ : Expr.Base) (with_checkpoint : bool) (mode : CYKmode)
    : option CYKloop :=
  let cp := with_checkpoint && negb (CYKmode_eqb mode OPENMP_PARALLEL) in
  let t := if cp then Ty.External "" else Ty.Size in
  let start := if cp then checkpoint_start running_boundary start
               else start in
  let var_col := mkVar_Decl t running_boundary start in
  let cond_col := Expr.Less (Expr.Vacc (name var_col)) end_ in
  let loop := For var_col cond_col None [] in
  let var_nonloop := mkVar_Decl (type var_col) (name var_col) end_ in
  new_CYKloop loop var_nonloop.

Definition get_for_row (running_boundary : string)
    (start end_ : Expr.Base) (with_checkpoint : bool) (mode : CYKmode)
    : option CYKloop :=
  let cp := with_checkpoint && negb (CYKmode_eqb mode OPENMP_PARALLEL) in
  let t := if CYKmode_eqb mode OPENMP_PARALLEL then Ty.Int else Ty.Size in
  let t := if cp then Ty.External "" else t in
  let start := if cp then checkpoint_start running_boundary start
               else start in
  let var_row := mkVar_Decl t running_boundary start in
  let cond_row :=
    if CYKmode_eqb mode SINGLETHREAD_OUTSIDE
    then Expr.Less (Expr.Vacc (name var_row)) end_
    else Expr.Greater (Expr.Vacc (name var_row)) end_ in
  let inc :=
    if negb (CYKmode_eqb mode SINGLETHREAD_OUTSIDE)
    then Some (set_op Expr.PLUS
                 (mkVar_Assign (name var_row) (Expr.Const (-1)) None))
    else None in
  let loop := For var_row cond_row inc [] in
  let var_nonloop := mkVar_Decl (type var_row) (name var_row) (Expr.Const 1) in
  new_CYKloop loop var_nonloop.

Definition get_for_openMP (loopvar : string) (start end_ : Expr.Base)
    (inc : Var_Decl) : Statement.Base :=
  let var := mkVar_Decl Ty.Int loopvar start in
  let cond_row := Expr.Less (Expr.Vacc (name var)) end_ in
  let x := set_op Expr.PLUS
             (mkVar_Assign (name var) (Expr.Vacc (name inc)) None) in
  For var cond_row (Some x) [].

(** [loop->statements.push_back / insert(end, ...)] *)
Definition push_statements (l : Statement.Base) (new : list Statement.Base)
    : Statement.Base :=
  match l with
  | For vd c i body => For vd c i (body ++ new)
  | Block body => Block (body ++ new)
  | other => other
  end.

(** the quadrants A, B, C, D of one track around [nested_stmts] *)
Definition cyk_traversal_singlethread_singletrack (track : nat) (ast : AST)
    (seq : Var_Decl) (nested_stmts : list Statement.Base)
    (with_checkpoint : bool) (mode : CYKmode)
    : option (list Statement.Base) :=
  rri <- nth_error (right_running_indices (grammar ast)) track ;;
  let row_start := Expr.plus (Expr.Vacc rri) (Expr.Const 1) in
  let seqend := seq_size seq in
  (* A: major cells in triangle below first row, left of last columns *)
  let co := copy_statements nested_stmts in
  lri <- nth_error (left_running_indices (grammar ast)) track ;;
  row <- get_for_row lri row_start (Expr.Const 1) with_checkpoint mode ;;
  let row_loop := push_statements (loop row) co in
  let alt_start :=
    if CYKmode_eqb mode OPENMP_SERIAL then Expr.Vacc "max_tiles_n"
    else Expr.Const 0 in
  col <- get_for_column rri alt_start seqend with_checkpoint mode ;;
  let col_loop :=
    push_statements (loop col) [row_loop; SVar_Decl (end_state row)] in
  (* B: first row *)
  let co := copy_statements nested_stmts in
  let col_loop := push_statements col_loop co in
  let stmts := [col_loop; SVar_Decl (end_state col)] in
  (* C: last column *)
  rowC <- get_for_row lri row_start (Expr.Const 1) with_checkpoint mode ;;
  let co := copy_statements nested_stmts in
  let rowC_loop := push_statements (loop rowC) co in
  let stmts := stmts ++ [rowC_loop; SVar_Decl (end_state rowC)] in
  (* D: top right cell *)
  let co := copy_statements nested_stmts in
  Some (stmts ++ co).

Definition cyk_traversal_singlethread_singletrack_outside (track : nat)
    (ast : AST) (seq : Var_Decl) (nested_stmts : list Statement.Base)
    (with_checkpoint : bool) (mode : CYKmode)
    : option (list Statement.Base) :=
  let seqend := seq_size seq in
  rri <- nth_error (right_running_indices (grammar ast)) track ;;
  lri <- nth_error (left_running_indices (grammar ast)) track ;;
  col <- get_for_column rri
           (Expr.minus seqend (Expr.Vacc lri))
           (Expr.plus seqend (Expr.Const 1))
           with_checkpoint mode ;;
  let co := copy_statements nested_stmts in
  let col_loop := push_statements (loop col) co in
  row <- get_for_row lri (Expr.Const 0) (Expr.plus seqend (Expr.Const 1))
           with_checkpoint mode ;;
  let row_loop := push_statements (loop row) [col_loop] in
  Some [row_loop].

(** the loop [for (track = tracks - 1; track >= 0; track--, ++it_stmt_seq)]:
    [k] tracks are still to be wrapped around [stmts]; the reverse iterator
    over [seq_decls] has then advanced [tracks - k] places *)
Fixpoint cyk_traversal_tracks (ast : AST) (mode : CYKmode) (k : nat)
    (stmts : list Statement.Base) : option (list Statement.Base) :=
  match k with
  | O => Some stmts
  | S track =>
      let ntr := Symbol.tracks (axiom (grammar ast)) in
      seq <- nth_error (rev (seq_decls ast)) (ntr - 1 - track) ;;
      stmts' <-
        (if CYKmode_eqb mode SINGLETHREAD_OUTSIDE
         then cyk_traversal_singlethread_singletrack_outside
                track ast seq stmts (checkpoint_cyk ast) mode
         else cyk_traversal_singlethread_singletrack
                track ast seq stmts (checkpoint_cyk ast) mode) ;;
      cyk_traversal_tracks ast mode track stmts'
  end.

Definition cyk_traversal_singlethread (ast : AST) (mode : CYKmode)
    : option (list Statement.Base) :=
  _ <- assert (Nat.eqb (List.length (seq_decls ast))
                       (Symbol.tracks (axiom (grammar ast)))) ;;
  cyk_traversal_tracks ast mode (Symbol.tracks (axiom (grammar ast))) [].

(** the two-phase tiled schedule for track 0 *)
Definition cyk_traversal_multithread_parallel (ast : AST) (seq : Var_Decl)
    (tile_size : Var_Decl) (name_maxtilen : string) (with_checkpoint : bool)
    : option (list Statement.Base) :=
  let track := 0%nat in
  rri <- nth_error (right_running_indices (grammar ast)) track ;;
  let row_start := Expr.plus (Expr.Vacc rri) (Expr.Const 1) in
  let z := Expr.Vacc "z" in
  let y := Expr.Vacc "y" in
  let x := mkVar_Decl Ty.Size "x"
             (Expr.plus (Expr.minus y z) (Expr.Vacc (name tile_size))) in
  (* part A: predecessor cells *)
  lri <- nth_error (left_running_indices (grammar ast)) track ;;
  row <- get_for_row lri row_start z with_checkpoint OPENMP_PARALLEL ;;
  col <- get_for_column rri z (Expr.plus z (Expr.Vacc (name tile_size)))
           with_checkpoint OPENMP_PARALLEL ;;
  let col_loop := push_statements (loop col) [loop row] in
  let start_z :=
    if with_checkpoint then Expr.Vacc (VARNAME_OuterLoop1 +++ "_start")
    else Expr.Const 0 in
  let loop_z := get_for_openMP "z" start_z (Expr.Vacc name_maxtilen)
                  tile_size in
  let loop_z :=
    if with_checkpoint then push_statements loop_z [mutex_lock]
    else loop_z in
  let loop_z := push_statements loop_z [col_loop] in
  let loop_z :=
    if with_checkpoint then
      push_statements loop_z
        [ CustomCode "#pragma omp ordered";
          Block
            [ CustomCode
                "// force omp to wait for all threads to finish their current batch (of size tile_size)";
              SVar_Assign
                (mkVar_Assign VARNAME_OuterLoop1
                   (Expr.plus start_z (Expr.Vacc (name tile_size))) None);
              mutex_unlock ] ]
    else loop_z in
  let stmts := [loop_z] in
  (* part B: the parallel tile computation *)
  rowB <- get_for_row lri (Expr.Vacc (name x))
            (Expr.minus (Expr.Vacc (name x)) (Expr.Vacc (name tile_size)))
            with_checkpoint OPENMP_PARALLEL ;;
  colB <- get_for_column rri y (Expr.plus y (Expr.Vacc (name tile_size)))
            with_checkpoint OPENMP_PARALLEL ;;
  let colB_loop := push_statements (loop colB) [loop rowB] in
  let start_y :=
    if with_checkpoint then
      Expr.Cond (Expr.Vacc (VARNAME_InnerLoop2 +++ "_loaded")) z
                (Expr.Vacc (VARNAME_InnerLoop2 +++ "_start"))
    else z in
  let loop_y := get_for_openMP "y" start_y (Expr.Vacc name_maxtilen)
                  tile_size in
  let loop_y :=
    if with_checkpoint then
      push_statements loop_y
        [CustomCode "++inner_loop_2_idx_loaded;"; mutex_lock]
    else loop_y in
  let loop_y := push_statements loop_y [SVar_Decl x; colB_loop] in
  let loop_y :=
    if with_checkpoint then
      push_statements loop_y
        [ CustomCode "#pragma omp ordered";
          Block
            [ SVar_Assign
                (mkVar_Assign VARNAME_InnerLoop2
                   (Expr.plus (Expr.Vacc VARNAME_InnerLoop2)
                              (Expr.Vacc (name tile_size))) None);
              SVar_Assign (mkVar_Assign VARNAME_OuterLoop2 z None);
              mutex_unlock ] ]
    else loop_y in
  let start_z2 :=
    if with_checkpoint then Expr.Vacc (VARNAME_OuterLoop2 +++ "_start")
    else Expr.Vacc (name tile_size) in
  let loop_z := get_for_openMP "z" start_z2 (Expr.Vacc name_maxtilen)
                  tile_size in
  let loop_z :=
    push_statements loop_z
      [ if with_checkpoint
        then CustomCode "#pragma omp for ordered schedule(dynamic)"
        else CustomCode "#pragma omp for" ] in
  let loop_z := push_statements loop_z [loop_y] in
  let loop_z :=
    if with_checkpoint then
      push_statements loop_z
        [ SVar_Assign
            (mkVar_Assign VARNAME_InnerLoop2
               (Expr.plus z (Expr.Vacc (name tile_size))) None) ]
    else loop_z in
  Some (stmts ++ [loop_z]).

(** [count_nt_calls_and_loops]: the calls of tabulated nonterminals and the
    loops among the statements of [loop] *)
Definition counts (s : Statement.Base) : nat :=
  ((match s with
    | Fn_Call _ n _ _ => if String.prefix "nt_tabulate_" n then 1 else 0
    | _ => 0
    end) +
   (if is_FOR s then 1 else 0))%nat.

Definition count_nt_calls_and_loops (loop : Statement.Base) : nat :=
  match loop with
  | For _ _ _ body => fold_left (fun res s => (res + counts s)%nat) body 0%nat
  | _ => 0%nat
  end.

(** *** The pruning loop of [add_nt_calls]

    [for (s = begin; s != end; ++s) if (is FOR && count == 0) s = erase(s);]

    [erase] returns the position after the erased element and the loop header
    then advances once more, so the element that follows an erased one is
    never examined.  When the erased element was the last one, [s] is [end()]
    and the language leaves [++s] undefined; the list implementations in use
    keep a circular list with a sentinel, where [++s] steps back to
    [begin()]: the scan starts again on what is left ([true] in the second
    component of [prune_pass]).  A scan that restarts on a list without an
    empty loop changes nothing.  [prune_scan] below is the scan that fails
    at that step instead; the results that are to hold of every list
    implementation are stated of it. *)
Definition dead_loop (s : Statement.Base) : bool :=
  is_FOR s && Nat.eqb (count_nt_calls_and_loops s) 0.

Fixpoint prune_pass (l : list Statement.Base)
    : list Statement.Base * bool :=
  match l with
  | [] => ([], false)
  | s :: rest =>
      if dead_loop s then
        match rest with
        | [] => ([], true)
        | r :: rest' => let (l', w) := prune_pass rest' in (r :: l', w)
        end
      else let (l', w) := prune_pass rest in (s :: l', w)
  end.

Fixpoint prune_loop (fuel : nat) (l : list Statement.Base)
    : list Statement.Base :=
  match fuel with
  | O => l
  | S f => let (l', w) := prune_pass l in
           if w then prune_loop f l' else l'
  end.

(** every restart has erased an element, so [length l] restarts suffice *)
Definition prune (l : list Statement.Base) : list Statement.Base :=
  prune_loop (List.length l) l.

(** *** The calls of one nesting level *)

(** [std::find(loop_vars->begin(), loop_vars->end(), name) != end]; every
    running index has one name object, shared by all loops and nonterminals
    that use it, so identity of the name is equality of the string *)
Definition in_loop_vars (loop_vars : list string) (idx : string) : bool :=
  existsb (String.eqb idx) loop_vars.

Record nt_scan : Type := mk_nt_scan {
  scan_args : list Expr.Base;
  used_indices : nat;
  nt_has_indices : nat
}.

(** the body of [for (t = 0; t < nt->tracks(); ++t)] *)
Definition nt_scan_track (nt : Symbol.NT) (loop_vars : list string)
    (acc : nt_scan) (t : nat) : option nt_scan :=
  tab <- nth_error (Symbol.tables nt) t ;;
  acc <-
    (if negb (delete_left_index tab) then
       idx <- nth_error (Symbol.left_indices nt) t ;;
       Some (mk_nt_scan
               (scan_args acc ++ [Expr.minus (Expr.Vacc idx) (Expr.Const 1)])
               (if in_loop_vars loop_vars idx
                then S (used_indices acc) else used_indices acc)
               (S (nt_has_indices acc)))
     else Some acc) ;;
  if negb (delete_right_index tab) then
    idx <- nth_error (Symbol.right_indices nt) t ;;
    Some (mk_nt_scan
            (scan_args acc ++ [Expr.Vacc idx])
            (if in_loop_vars loop_vars idx
             then S (used_indices acc) else used_indices acc)
            (S (nt_has_indices acc)))
  else Some acc.

Fixpoint nt_scan_tracks (nt : Symbol.NT) (loop_vars : list string)
    (ts : list nat) (acc : nt_scan) : option nt_scan :=
  match ts with
  | [] => Some acc
  | t :: ts' =>
      acc' <- nt_scan_track nt loop_vars acc t ;;
      nt_scan_tracks nt loop_vars ts' acc'
  end.

Definition nt_scan_all (nt : Symbol.NT) (loop_vars : list string)
    : option nt_scan :=
  nt_scan_tracks nt loop_vars (seq 0 (Symbol.tracks nt))
    (mk_nt_scan [] 0 0).

(** the call statements the loop over [orderedNTs] pushes for one
    nonterminal: none or one *)
Definition nt_call (nt : Symbol.NT) (loop_vars : list string)
    : option (list Statement.Base) :=
  if negb (Symbol.is_tabulated nt) then Some []
  else
    sc <- nt_scan_all nt loop_vars ;;
    if Nat.eqb (used_indices sc) (List.length loop_vars) then
      _ <- assert (Nat.ltb 0 (List.length (Symbol.code_list nt))) ;;
      fname <- hd_error (rev (Symbol.code_list nt)) ;;
      Some [Fn_Call NONE fname (scan_args sc) false]
    else Some [].

Fixpoint nt_calls (orderedNTs : list Symbol.NT) (loop_vars : list string)
    : option (list Statement.Base) :=
  match orderedNTs with
  | [] => Some []
  | nt :: rest =>
      c <- nt_call nt loop_vars ;;
      cs <- nt_calls rest loop_vars ;;
      Some (c ++ cs)
  end.

(** the part of [add_nt_calls] after the pruning loop *)
Definition add_nts (contains_nested_for : bool) (loop_vars : list string)
    (orderedNTs : list Symbol.NT) (with_checkpoint : bool) (mode : CYKmode)
    : option (list Statement.Base) :=
  if CYKmode_eqb mode OPENMP_PARALLEL && contains_nested_for then Some []
  else
    let pre :=
      if with_checkpoint then
        if CYKmode_eqb mode SINGLETHREAD
        then [CustomCode "std::lock_guard<fair_mutex> lock(mutex);"]
        else if CYKmode_eqb mode OPENMP_SERIAL then [mutex_lock] else []
      else [] in
    calls <- nt_calls orderedNTs loop_vars ;;
    let post :=
      if with_checkpoint && CYKmode_eqb mode OPENMP_SERIAL
      then [mutex_unlock] else [] in
    Some (pre ++ calls ++ post).

(** the loop variables seen inside the loop declared by [vd] *)
Definition next_loop_vars (mode : CYKmode) (loop_vars : list string)
    (vd : Var_Decl) : list string :=
  if negb (CYKmode_eqb mode OPENMP_PARALLEL) || String.prefix "t_" (name vd)
  then loop_vars ++ [name vd]
  else loop_vars.

(** *** [add_nt_calls]

    [add_nt_calls_in] is the body of the first loop of [add_nt_calls] for one
    statement: a [For] is rewritten by the recursive call on its statements
    followed by the insertion of the returned calls at their end. *)
Fixpoint add_nt_calls_in (orderedNTs : list Symbol.NT)
    (with_checkpoint : bool) (mode : CYKmode) (loop_vars : list string)
    (s : Statement.Base) {struct s} : option Statement.Base :=
  match s with
  | For vd c i body =>
      let next := next_loop_vars mode loop_vars vd in
      body1 <-
        (fix each (l : list Statement.Base) : option (list Statement.Base) :=
           match l with
           | [] => Some []
           | x :: r =>
               x' <- add_nt_calls_in orderedNTs with_checkpoint mode next x ;;
               r' <- each r ;;
               Some (x' :: r')
           end) body ;;
      new_stmts <-
        add_nts (existsb is_FOR body) next orderedNTs with_checkpoint mode ;;
      Some (For vd c i (prune body1 ++ new_stmts))
  | other => Some other
  end.

Fixpoint add_nt_calls_each (orderedNTs : list Symbol.NT)
    (with_checkpoint : bool) (mode : CYKmode) (loop_vars : list string)
    (l : list Statement.Base) : option (list Statement.Base) :=
  match l with
  | [] => Some []
  | x :: r =>
      x' <- add_nt_calls_in orderedNTs with_checkpoint mode loop_vars x ;;
      r' <- add_nt_calls_each orderedNTs with_checkpoint mode loop_vars r ;;
      Some (x' :: r')
  end.

(** returns the statement list as the call leaves it (it is changed in
    place) and the list of calls it returns *)
Definition add_nt_calls (stmts : list Statement.Base)
    (loop_vars : list string) (orderedNTs : list Symbol.NT)
    (with_checkpoint : bool) (mode : CYKmode)
    : option (list Statement.Base * list Statement.Base) :=
  stmts1 <- add_nt_calls_each orderedNTs with_checkpoint mode loop_vars stmts ;;
  nt_stmts <-
    add_nts (existsb is_FOR stmts) loop_vars orderedNTs with_checkpoint mode ;;
  Some (prune stmts1, nt_stmts).

(** *** [print_CYK] *)

Fixpoint loaded_decls (ast : AST) (ts : list nat)
    : option (list Statement.Base) :=
  match ts with
  | [] => Some []
  | track :: ts' =>
      lri <- nth_error (left_running_indices (grammar ast)) track ;;
      rri <- nth_error (right_running_indices (grammar ast)) track ;;
      rest <- loaded_decls ast ts' ;;
      Some (SVar_Decl (mkVar_Decl Ty.Int (lri +++ "_loaded")
                         (Expr.Or (Expr.Not (Expr.Vacc "load_checkpoint"))
                                  (Expr.Not (Expr.Vacc lri))))
            :: SVar_Decl (mkVar_Decl Ty.Int (rri +++ "_loaded")
                            (Expr.Or (Expr.Not (Expr.Vacc "load_checkpoint"))
                                     (Expr.Not (Expr.Vacc rri))))
            :: rest)
  end.

Definition openmp_checkpoint_header : list Statement.Base :=
  [ CustomCode ("int " +++ VARNAME_OuterLoop1 +++
                "_loaded = !load_checkpoint || !" +++ VARNAME_OuterLoop1 +++
                ";");
    CustomCode ("int " +++ VARNAME_OuterLoop2 +++
                "_loaded = !load_checkpoint || !" +++ VARNAME_OuterLoop2 +++
                ";");
    CustomCode ("int " +++ VARNAME_InnerLoop2 +++
                "_loaded = !load_checkpoint || !" +++ VARNAME_InnerLoop2 +++
                ";");
    CustomCode ("int " +++ VARNAME_OuterLoop1 +++ "_start = (" +++
                VARNAME_OuterLoop1 +++ "_loaded++) ? 0 : " +++
                VARNAME_OuterLoop1 +++ ";");
    CustomCode ("int " +++ VARNAME_OuterLoop2 +++ "_start = (" +++
                VARNAME_OuterLoop2 +++ "_loaded++) ? tile_size : " +++
                VARNAME_OuterLoop2 +++ ";");
    CustomCode ("int " +++ VARNAME_InnerLoop2 +++ "_start = " +++
                VARNAME_InnerLoop2 +++ ";") ].

(** the multi-thread version, generated for single-track grammars only *)
Definition print_CYK_openmp (ast : AST) : option (list Statement.Base) :=
  let name_maxtilen := "max_tiles_n" in
  it_stmt_seq <- hd_error (rev (seq_decls ast)) ;;
  let cp := checkpoint_cyk ast in
  let header :=
    if cp then
      fst (get_tile_computation ast name_maxtilen it_stmt_seq true)
      ++ openmp_checkpoint_header
    else [] in
  let stmts_tilesize :=
    get_tile_computation ast name_maxtilen it_stmt_seq false in
  let blk0 :=
    fst stmts_tilesize
    ++ [ if cp then CustomCode "#pragma omp for ordered schedule(dynamic)"
         else CustomCode "#pragma omp for";
         CustomCode "// OPENMP < 3 requires signed int here ..." ] in
  (* parallel part *)
  stmts <- cyk_traversal_multithread_parallel ast it_stmt_seq
             (snd stmts_tilesize) name_maxtilen cp ;;
  '(stmts, new_stmts) <-
     add_nt_calls stmts [] (topological_ord (grammar ast)) cp
       OPENMP_PARALLEL ;;
  let blk_parallel :=
    Block (blk0 ++ (stmts ++ new_stmts) ++ [CustomCode "// end parallel"]) in
  (* serial part *)
  sstmts <- cyk_traversal_singlethread ast OPENMP_SERIAL ;;
  '(sstmts, new_serial_stmts) <-
     add_nt_calls sstmts [] (topological_ord (grammar ast)) cp
       OPENMP_SERIAL ;;
  Some (header
        ++ [CustomCode "#pragma omp parallel"; blk_parallel]
        ++ fst stmts_tilesize
        ++ (sstmts ++ new_serial_stmts)).

Definition print_CYK (ast : AST) : option Fn_Def :=
  let fn_cyk := mkFn_Def Ty.RealVoid "cyk" [] in
  if negb (cyk ast) then Some fn_cyk
  else
    decls <-
      (if checkpoint_cyk ast
       then loaded_decls ast
              (seq 0 (Symbol.tracks (axiom (grammar ast))))
       else Some []) ;;
    (* single thread version *)
    stmts <-
      cyk_traversal_singlethread ast
        (if outside_generation ast then SINGLETHREAD_OUTSIDE
         else SINGLETHREAD) ;;
    (* multi thread version (only single-track possible for now) *)
    omp <-
      (if Nat.eqb (Symbol.tracks (axiom (grammar ast))) 1
       then print_CYK_openmp ast
       else Some []) ;;
    Some (mkFn_Def (return_type fn_cyk) (fn_name fn_cyk)
            (decls
             ++ [CustomCode "#ifndef _OPENMP"] ++ stmts
             ++ [CustomCode "#else"] ++ omp
             ++ [CustomCode "#endif"])).

(** ** outside/grammar_transformation.cc *)

Module Log.

Inductive entry : Type :=
| warning (loc : string) (msg : string)
| error (loc : string) (msg : string).

End Log.

Section Outside.

(** [Yield::Poly::put]: the printed form of a bound *)
Variable put : Yield.Poly -> string.

Definition empty_word_msg (g : Grammar) (l : Yield.Poly) : string :=
  "The minimal yield size of your grammar '" +++ gname g +++ "' is " +++
  put l +++
  ", i.e. it cannot parse the empty input string ''." +++
  " For outside grammar generation, this means you are lacking a" +++
  " recursion basis which will result in empty results for " +++
  "ALL outside candidates! Try adding an alternative like " +++
  "nil(EMPTY) to your axiom.".

(** the loop over [axiom->multi_ys()]: the result and the entries logged *)
Fixpoint check_multi_ys (g : Grammar) (ys : list Yield.Size)
    : bool * list Log.entry :=
  match ys with
  | [] => (true, [])
  | i :: rest =>
      if Yield.gt (Yield.low i) 0
      then (false, [Log.warning (location g) (empty_word_msg g (Yield.low i))])
      else check_multi_ys g rest
  end.

Definition check_outside_parse_empty_word (ast : AST)
    : bool * list Log.entry :=
  if outside_generation ast
  then check_multi_ys (grammar ast) (Symbol.multi_ys (axiom (grammar ast)))
  else (true, []).

End Outside.

(** ** The meaning of the generated code

    Modelled from the spec: the printer of the statement tree (cpp.cc) is
    not embedded here.  The statements the generator builds are C++ text;
    a loop without an increment of its own is printed with [++var], as the
    comments of cyk.cc show.  To speak about the
    cells a traversal visits and about the value a loop variable ends with,
    the fragment the generator emits is given its sequential C++ meaning:
    integer variables in an environment, [for] loops, and a record of the
    calls made, in order.  Arithmetic is on unbounded integers; the results
    below say where the values lie, so they carry over to machine integers
    whenever the sequence length plus one is representable.  A declaration
    does not wrap its value to the declared type: where a result takes a
    tile size or the bounds of a loop as its input, it bounds them so that
    every value fits [unsigned int] and [int] alike. *)

Module Sem.

Definition env : Type := string -> option Z.

Definition empty : env := fun _ => None.

Definition upd (x : string) (v : Z) (e : env) : env :=
  fun y => if String.eqb x y then Some v else e y.

(** a name of the form [v++] is the post-increment of variable [v] *)
Fixpoint strip_postinc (s : string) : option string :=
  match s with
  | EmptyString => None
  | String c r =>
      if String.eqb r "++" then Some (String c EmptyString)
      else option_map (String c) (strip_postinc r)
  end.

Definition of_bool (b : bool) : Z := if b then 1 else 0.

Section Eval.

(** the lengths of the input sequences, by name *)
Variable sizes : string -> option Z.

Fixpoint eval (e : Expr.Base) (r : env) {struct e} : option (Z * env) :=
  match e with
  | Expr.Const c => Some (c, r)
  | Expr.Vacc x =>
      match strip_postinc x with
      | Some v => old <- r v ;; Some (old, upd v (old + 1) r)
      | None => v <- r x ;; Some (v, r)
      end
  | Expr.Plus a b =>
      '(x, r) <- eval a r ;; '(y, r) <- eval b r ;; Some (x + y, r)
  | Expr.Minus a b =>
      '(x, r) <- eval a r ;; '(y, r) <- eval b r ;; Some (x - y, r)
  | Expr.Times a b =>
      '(x, r) <- eval a r ;; '(y, r) <- eval b r ;; Some (x * y, r)
  | Expr.Div a b =>
      '(x, r) <- eval a r ;; '(y, r) <- eval b r ;;
      if y =? 0 then None else Some (Z.quot x y, r)
  | Expr.Less a b =>
      '(x, r) <- eval a r ;; '(y, r) <- eval b r ;; Some (of_bool (x <? y), r)
  | Expr.Greater a b =>
      '(x, r) <- eval a r ;; '(y, r) <- eval b r ;; Some (of_bool (x >? y), r)
  | Expr.Or a b =>
      '(x, r) <- eval a r ;;
      if x =? 0 then '(y, r) <- eval b r ;; Some (of_bool (negb (y =? 0)), r)
      else Some (1, r)
  | Expr.Not a =>
      '(x, r) <- eval a r ;; Some (of_bool (x =? 0), r)
  | Expr.Cond c t f =>
      '(x, r) <- eval c r ;;
      if x =? 0 then eval f r else eval t r
  | Expr.Fn_Call "size" [Expr.Vacc s] true =>
      n <- sizes s ;; Some (n, r)
  | Expr.Fn_Call _ _ _ => None
  end.

Fixpoint eval_args (args : list Expr.Base) (r : env)
    : option (list Z * env) :=
  match args with
  | [] => Some ([], r)
  | a :: rest =>
      '(v, r) <- eval a r ;;
      '(vs, r) <- eval_args rest r ;;
      Some (v :: vs, r)
  end.

(** the environment and the calls made so far, oldest first *)
Record State : Type := mkState {
  vars : env;
  calls : list (string * list Z)
}.

Definition exec_decl (d : Var_Decl) (st : State) : option State :=
  '(v, r) <- eval (rhs d) (vars st) ;;
  Some (mkState (upd (name d) v r) (calls st)).

Definition exec_assign (a : Var_Assign) (st : State) : option State :=
  '(v, r) <- eval (assign_rhs a) (vars st) ;;
  match op a with
  | None => Some (mkState (upd (acc a) v r) (calls st))
  | Some Expr.PLUS =>
      old <- r (acc a) ;;
      Some (mkState (upd (acc a) (old + v) r) (calls st))
  end.

(** the increment of a loop: the one given, or [++var] *)
Definition exec_inc (vd : Var_Decl) (inc : option Var_Assign) (st : State)
    : option State :=
  match inc with
  | Some a => exec_assign a st
  | None =>
      old <- vars st (name vd) ;;
      Some (mkState (upd (name vd) (old + 1) (vars st)) (calls st))
  end.

Fixpoint run_list (run : Statement.Base -> State -> option State)
    (l : list Statement.Base) (st : State) : option State :=
  match l with
  | [] => Some st
  | s :: rest => st' <- run s st ;; run_list run rest st'
  end.

(** [None] is a failed assertion, a division by zero, an unbound variable
    or exhausted fuel.  Method calls on an object (the mutex) and verbatim
    lines (comments, pragmas) have no effect on the sequential meaning. *)
Fixpoint exec (fuel : nat) (s : Statement.Base) (st : State) {struct fuel}
    : option State :=
  match fuel with
  | O => None
  | S f =>
      match s with
      | SVar_Decl d => exec_decl d st
      | SVar_Assign a => exec_assign a st
      | For vd c i body =>
          st1 <- exec_decl vd st ;;
          while f vd c i body st1
      | Fn_Call ASSERT _ args _ =>
          '(vs, r) <- eval_args args (vars st) ;;
          if forallb (fun v => negb (v =? 0)) vs
          then Some (mkState r (calls st)) else None
      | Fn_Call NONE _ _ true => Some st
      | Fn_Call NONE n args false =>
          '(vs, r) <- eval_args args (vars st) ;;
          Some (mkState r (calls st ++ [(n, vs)]))
      | CustomCode _ => Some st
      | Block body => run_list (exec f) body st
      end
  end
with while (fuel : nat) (vd : Var_Decl) (c : Expr.Base)
    (i : option Var_Assign) (body : list Statement.Base) (st : State)
    {struct fuel} : option State :=
  match fuel with
  | O => None
  | S f =>
      '(v, r) <- eval c (vars st) ;;
      let st := mkState r (calls st) in
      if v =? 0 then Some st
      else
        st1 <- run_list (exec f) body st ;;
        st2 <- exec_inc vd i st1 ;;
        while f vd c i body st2
  end.

Definition exec_list (fuel : nat) : list Statement.Base -> State ->
    option State :=
  run_list (exec fuel).

End Eval.

(** *** Conditional compilation

    [#ifdef M], [#ifndef M], [#else] and [#endif] lines select the statements
    of one list; the generator never nests them.  [active] tells whether the
    statements at hand are compiled. *)
Definition directive_arg (n : nat) (line : string) : string :=
  substring n (String.length line - n) line.

Fixpoint preprocess (defined : string -> bool) (active : bool)
    (l : list Statement.Base) : list Statement.Base :=
  match l with
  | [] => []
  | CustomCode line :: rest =>
      if String.prefix "#ifdef " line
      then preprocess defined (defined (directive_arg 7 line)) rest
      else if String.prefix "#ifndef " line
      then preprocess defined (negb (defined (directive_arg 8 line))) rest
      else if String.eqb line "#else"
      then preprocess defined (negb active) rest
      else if String.eqb line "#endif"
      then preprocess defined true rest
      else if active then CustomCode line :: preprocess defined active rest
      else preprocess defined active rest
  | s :: rest =>
      if active then s :: preprocess defined active rest
      else preprocess defined active rest
  end.

End Sem.

(** ** Observations on statement trees *)

(** some call statement occurs in [s], at any depth *)
Fixpoint has_fn_call (s : Statement.Base) : bool :=
  match s with
  | Fn_Call _ _ _ _ => true
  | For _ _ _ body => existsb has_fn_call body
  | Block body => existsb has_fn_call body
  | _ => false
  end.

(** the number of loops in [s], at any depth *)
Fixpoint count_loops (s : Statement.Base) : nat :=
  match s with
  | For _ _ _ body => S (list_sum (map count_loops body))
  | Block body => list_sum (map count_loops body)
  | _ => 0%nat
  end.

(** the names of the calls that sit below exactly [d] loops *)
Fixpoint calls_at (d : nat) (s : Statement.Base) : list string :=
  match s with
  | Fn_Call _ n _ _ => match d with O => [n] | S _ => [] end
  | For _ _ _ body =>
      match d with
      | O => []
      | S d' => flat_map (calls_at d') body
      end
  | Block body => flat_map (calls_at d) body
  | _ => []
  end.

(** the statements of a function between two verbatim lines *)
Fixpoint skip_to (line : string) (l : list Statement.Base)
    : list Statement.Base :=
  match l with
  | [] => []
  | CustomCode c :: rest =>
      if String.eqb c line then rest else skip_to line rest
  | _ :: rest => skip_to line rest
  end.

Fixpoint take_to (line : string) (l : list Statement.Base)
    : list Statement.Base :=
  match l with
  | [] => []
  | CustomCode c :: rest =>
      if String.eqb c line then [] else CustomCode c :: take_to line rest
  | s :: rest => s :: take_to line rest
  end.

Definition between (from to : string) (l : list Statement.Base)
    : list Statement.Base :=
  take_to to (skip_to from l).

(** ** The index variables of a nonterminal, as the placement rule speaks of
    them: per track the left index unless eliminated, then the right index
    unless eliminated.  [true] marks a left (row) index. *)
Definition live_of_track (nt : Symbol.NT) (t : nat)
    : option (list (bool * string)) :=
  tab <- nth_error (Symbol.tables nt) t ;;
  l <- (if delete_left_index tab then Some []
        else idx <- nth_error (Symbol.left_indices nt) t ;;
             Some [(true, idx)]) ;;
  r <- (if delete_right_index tab then Some []
        else idx <- nth_error (Symbol.right_indices nt) t ;;
             Some [(false, idx)]) ;;
  Some (l ++ r).

Fixpoint live_of_tracks (nt : Symbol.NT) (ts : list nat)
    : option (list (bool * string)) :=
  match ts with
  | [] => Some []
  | t :: ts' =>
      a <- live_of_track nt t ;;
      b <- live_of_tracks nt ts' ;;
      Some (a ++ b)
  end.

Definition live_indices (nt : Symbol.NT) : option (list (bool * string)) :=
  live_of_tracks nt (seq 0 (Symbol.tracks nt)).

(** a left index is passed decremented by one, a right index as it is *)
Definition arg_of (p : bool * string) : Expr.Base :=
  if fst p then Expr.Minus (Expr.Vacc (snd p)) (Expr.Const 1)
  else Expr.Vacc (snd p).

(** how many of the live indices the loop-variable stack binds *)
Definition bound_count (loop_vars : list string)
    (live : list (bool * string)) : nat :=
  List.length (filter (fun p => in_loop_vars loop_vars (snd p)) live).

(** ** The cells of the triangular matrix, by quadrant, in visiting order *)

Definition column_rows (k : nat) (j : Z) : list (Z * Z) :=
  map (fun i => (Z.of_nat i, j)) (rev (seq 1 k)).

Definition quadrant_A (j : nat) : list (Z * Z) := column_rows j (Z.of_nat j).
Definition quadrant_B (j : nat) : list (Z * Z) := [(0, Z.of_nat j)].
Definition quadrant_C (n : nat) : list (Z * Z) := column_rows n (Z.of_nat n).
Definition quadrant_D (n : nat) : list (Z * Z) := [(0, Z.of_nat n)].

Definition visited (n : nat) : list (Z * Z) :=
  flat_map (fun j => quadrant_A j ++ quadrant_B j) (seq 0 n)
  ++ quadrant_C n ++ quadrant_D n.

(** ** A single-track grammar, named as in the comments of cyk.cc *)

Module Ex.

Definition t_0_seq : Var_Decl :=
  mkVar_Decl (Ty.External "Sequence") "t_0_seq" (Expr.Const 0).
Definition t_1_seq : Var_Decl :=
  mkVar_Decl (Ty.External "Sequence") "t_1_seq" (Expr.Const 0).

(** tabulated, quadratic table: both indices live *)
Definition nt_foo : Symbol.NT :=
  Symbol.mkNT true 1 [mkTable false false] ["t_0_i"] ["t_0_j"]
    ["nt_tabulate_foo"] [Yield.mkSize (Yield.Num 0) Yield.UP].

(** tabulated, linear table: left index eliminated, right index live *)
Definition nt_bar : Symbol.NT :=
  Symbol.mkNT true 1 [mkTable true false] ["t_0_i"] ["t_0_j"]
    ["nt_tabulate_bar"] [Yield.mkSize (Yield.Num 0) Yield.UP].

(** tabulated, linear table: right index eliminated, left index live *)
Definition nt_baz : Symbol.NT :=
  Symbol.mkNT true 1 [mkTable false true] ["t_0_i"] ["t_0_j"]
    ["nt_tabulate_baz"] [Yield.mkSize (Yield.Num 0) Yield.UP].

Definition grammar1 (nts : list Symbol.NT) : Grammar :=
  mkGrammar "g" "g.gap:1" nt_foo ["t_0_i"] ["t_0_j"] nts.

Definition ast1 (nts : list Symbol.NT) (checkpoint : bool) : AST :=
  mkAST true checkpoint false [t_0_seq] (grammar1 nts).

(** a two-track grammar *)
Definition axiom2 : Symbol.NT :=
  Symbol.mkNT true 2 [mkTable false false; mkTable false false]
    ["t_0_i"; "t_1_i"] ["t_0_j"; "t_1_j"] ["nt_tabulate_ali"]
    [Yield.mkSize (Yield.Num 0) Yield.UP; Yield.mkSize (Yield.Num 1) Yield.UP].

Definition ast2 (outside : bool) : AST :=
  mkAST true false outside [t_0_seq; t_1_seq]
    (mkGrammar "ali" "ali.gap:1" axiom2 ["t_0_i"; "t_1_i"]
       ["t_0_j"; "t_1_j"] [axiom2]).

(** the input: one sequence of length [n] *)
Definition sizes (n : Z) : string -> option Z :=
  fun s => if String.eqb s "t_0_seq" then Some n else None.

Definition start : Sem.State := Sem.mkState Sem.empty [].

(** the single-thread traversal of one track with the calls of [nts] put
    in place, as the serial part of [print_CYK] composes the two *)
Definition singlethread_program (nts : list Symbol.NT) (mode : CYKmode)
    : option (list Statement.Base) :=
  stmts <- cyk_traversal_singlethread (ast1 nts false) mode ;;
  '(stmts, new_stmts) <- add_nt_calls stmts [] nts false mode ;;
  Some (stmts ++ new_stmts).

(** the tiled traversal with the calls of [nts] put in place *)
Definition parallel_program (nts : list Symbol.NT)
    : option (list Statement.Base) :=
  stmts <- cyk_traversal_multithread_parallel (ast1 nts false) t_0_seq
             tile_size_decl "max_tiles_n" false ;;
  '(stmts, new_stmts) <- add_nt_calls stmts [] nts false OPENMP_PARALLEL ;;
  Some (stmts ++ new_stmts).

(** an empty loop over [v] *)
Definition empty_loop (v : string) : Statement.Base :=
  For (mkVar_Decl Ty.Size v (Expr.Const 0))
      (Expr.Less (Expr.Vacc v) (Expr.Const 3)) None [].

Definition put (p : Yield.Poly) : string :=
  match p with
  | Yield.Num 0 => "0"
  | Yield.Num 1 => "1"
  | Yield.Num _ => "many"
  | Yield.UP => "n"
  end.

(** the program [singlethread_program [nt_foo] SINGLETHREAD] evaluates to,
    by parts *)
Definition foo_call : Statement.Base :=
  Fn_Call NONE "nt_tabulate_foo"
    [Expr.Minus (Expr.Vacc "t_0_i") (Expr.Const 1); Expr.Vacc "t_0_j"] false.

Definition row_decl : Var_Decl :=
  mkVar_Decl Ty.Size "t_0_i" (Expr.Plus (Expr.Vacc "t_0_j") (Expr.Const 1)).
Definition row_cond : Expr.Base :=
  Expr.Greater (Expr.Vacc "t_0_i") (Expr.Const 1).
Definition row_inc : option Var_Assign :=
  Some (mkVar_Assign "t_0_i" (Expr.Const (-1)) (Some Expr.PLUS)).
Definition row_loop : Statement.Base :=
  For row_decl row_cond row_inc [foo_call].
Definition row_end : Statement.Base :=
  SVar_Decl (mkVar_Decl Ty.Size "t_0_i" (Expr.Const 1)).

Definition col_decl : Var_Decl :=
  mkVar_Decl Ty.Size "t_0_j" (Expr.Const 0).
Definition col_cond : Expr.Base :=
  Expr.Less (Expr.Vacc "t_0_j") (seq_size t_0_seq).
Definition col_body : list Statement.Base :=
  [row_loop; row_end; foo_call].
Definition col_end : Statement.Base :=
  SVar_Decl (mkVar_Decl Ty.Size "t_0_j" (seq_size t_0_seq)).

Definition foo_program : list Statement.Base :=
  [For col_decl col_cond None col_body; col_end;
   row_loop; row_end; foo_call].

(** the record of a call of [nt_tabulate_foo] on a cell *)
Definition cell_call (c : Z * Z) : string * list Z :=
  ("nt_tabulate_foo", [fst c; snd c]).

End Ex.

(** the vectors the generator indexes by track are as long as the axiom has
    tracks *)
Definition wf_tracks (ast : AST) : Prop :=
  List.length (seq_decls ast) = Symbol.tracks (axiom (grammar ast)) /\
  List.length (left_running_indices (grammar ast))
    = Symbol.tracks (axiom (grammar ast)) /\
  List.length (right_running_indices (grammar ast))
    = Symbol.tracks (axiom (grammar ast)).

(** what the statements of a tile-size computation amount to *)
Definition tile_statements (name_maxtilen : string) (input_seq : Var_Decl)
    : list Statement.Base :=
  [ SVar_Decl (mkVar_Decl Ty.Size "tile_size" (Expr.Const 32));
    CustomCode "#ifdef TILE_SIZE";
    SVar_Assign (mkVar_Assign "tile_size" (Expr.Vacc "TILE_SIZE") None);
    CustomCode "#endif";
    Fn_Call ASSERT "assert" [Expr.Vacc "tile_size"] false;
    SVar_Decl (mkVar_Decl Ty.Size "max_tiles"
                 (Expr.Div (seq_size input_seq) (Expr.Vacc "tile_size")));
    SVar_Decl (mkVar_Decl Ty.Int name_maxtilen
                 (Expr.Times (Expr.Vacc "max_tiles")
                             (Expr.Vacc "tile_size"))) ].

(** the macro [TILE_SIZE], defined with a value or not defined *)
Definition macro_defined (tile_macro : option Z) (m : string) : bool :=
  match tile_macro with
  | Some _ => String.eqb m "TILE_SIZE"
  | None => false
  end.

Definition macro_env (tile_macro : option Z) : Sem.env :=
  match tile_macro with
  | Some t => Sem.upd "TILE_SIZE" t Sem.empty
  | None => Sem.empty
  end.

Definition effective_tile_size (tile_macro : option Z) : Z :=
  match tile_macro with
  | Some t => t
  | None => 32
  end.

(** the values of [k] successive evaluations of [e] *)
Fixpoint reads (sizes : string -> option Z) (e : Expr.Base) (k : nat)
    (r : Sem.env) : option (list Z) :=
  match k with
  | O => Some []
  | S k' =>
      '(v, r') <- Sem.eval sizes e r ;;
      vs <- reads sizes e k' r' ;;
      Some (v :: vs)
  end.

(** the start expression of the loop a builder returned *)
Definition loop_start (l : CYKloop) : option Expr.Base :=
  vd <- loop_var_decl (loop l) ;; Some (rhs vd).

(** [s] consists of loops and declarations only, at every depth *)
Fixpoint loops_and_decls (s : Statement.Base) : bool :=
  match s with
  | SVar_Decl _ => true
  | For _ _ _ body => forallb loops_and_decls body
  | _ => false
  end.

(** ** Shapes of statement lists *)

(** no empty loop is followed by an empty loop, and the last statement is
    not an empty loop: what the pruning loop needs to see every one *)
Fixpoint separated (l : list Statement.Base) : bool :=
  match l with
  | [] => true
  | s :: rest =>
      (negb (dead_loop s)
       || match rest with
          | [] => false
          | r :: _ => negb (dead_loop r)
          end)
      && separated rest
  end.

(** a list of loops, each followed by a declaration, at every depth: the
    shape of the inside-mode traversals *)
Inductive paired : list Statement.Base -> Prop :=
| paired_nil : paired []
| paired_cons (vd : Var_Decl) (c : Expr.Base) (i : option Var_Assign)
    (body : list Statement.Base) (d : Var_Decl) (l : list Statement.Base) :
    paired body -> paired l ->
    paired (For vd c i body :: SVar_Decl d :: l).

(** the statements of [l] that are not loops *)
Definition non_loops (l : list Statement.Base) : list Statement.Base :=
  filter (fun s => negb (is_FOR s)) l.

(** ** The outside-mode traversal of one track around a probe *)

Module ExOut.

(** a statement that records the row and the column index *)
Definition probe : Statement.Base :=
  Fn_Call NONE "cell" [Expr.Vacc "t_0_i"; Expr.Vacc "t_0_j"] false.

Definition program : option (list Statement.Base) :=
  cyk_traversal_singlethread_singletrack_outside 0 (Ex.ast1 [] false)
    Ex.t_0_seq [probe] false SINGLETHREAD_OUTSIDE.

Definition col_decl : Var_Decl :=
  mkVar_Decl Ty.Size "t_0_j"
    (Expr.Minus (seq_size Ex.t_0_seq) (Expr.Vacc "t_0_i")).
Definition col_cond : Expr.Base :=
  Expr.Less (Expr.Vacc "t_0_j")
    (Expr.Plus (seq_size Ex.t_0_seq) (Expr.Const 1)).
Definition col_loop : Statement.Base := For col_decl col_cond None [probe].

Definition row_decl : Var_Decl := mkVar_Decl Ty.Size "t_0_i" (Expr.Const 0).
Definition row_cond : Expr.Base :=
  Expr.Less (Expr.Vacc "t_0_i")
    (Expr.Plus (seq_size Ex.t_0_seq) (Expr.Const 1)).
Definition row_loop : Statement.Base := For row_decl row_cond None [col_loop].

Definition cell_call (c : Z * Z) : string * list Z :=
  ("cell", [fst c; snd c]).

(** the first [m] cells of row [i]: columns [n - i], [n - i + 1], ... *)
Definition row_cells (n i m : nat) : list (Z * Z) :=
  map (fun k => (Z.of_nat i, Z.of_nat (n - i + k))) (seq 0 m).

(** rows [0 .. m - 1], each with its columns [n - i .. n] *)
Definition visited (n m : nat) : list (Z * Z) :=
  flat_map (fun i => row_cells n i (S i)) (seq 0 m).

End ExOut.

(** ** Conditional compilation at every depth *)

Fixpoint preprocess_stmt (defined : string -> bool) (s : Statement.Base)
    : Statement.Base :=
  match s with
  | For vd c i body =>
      For vd c i
        (Sem.preprocess defined true (map (preprocess_stmt defined) body))
  | Block body =>
      Block (Sem.preprocess defined true (map (preprocess_stmt defined) body))
  | other => other
  end.

Definition preprocess_all (defined : string -> bool)
    (l : list Statement.Base) : list Statement.Base :=
  Sem.preprocess defined true (map (preprocess_stmt defined) l).

(** ** The OpenMP version for one track and a nonterminal with both indices *)

Module ExTile.

(** the tile-size computation after conditional compilation *)
Definition prelude (tile_macro : option Z) : list Statement.Base :=
  [SVar_Decl tile_size_decl]
  ++ (match tile_macro with
      | Some _ =>
          [SVar_Assign (mkVar_Assign "tile_size" (Expr.Vacc "TILE_SIZE") None)]
      | None => []
      end)
  ++ [ Fn_Call ASSERT "assert" [Expr.Vacc "tile_size"] false;
       SVar_Decl (mkVar_Decl Ty.Size "max_tiles"
                    (Expr.Div (seq_size Ex.t_0_seq) (Expr.Vacc "tile_size")));
       SVar_Decl (mkVar_Decl Ty.Int "max_tiles_n"
                    (Expr.Times (Expr.Vacc "max_tiles")
                                (Expr.Vacc "tile_size"))) ].

Definition z_cond : Expr.Base :=
  Expr.Less (Expr.Vacc "z") (Expr.Vacc "max_tiles_n").
Definition z_inc : option Var_Assign :=
  Some (mkVar_Assign "z" (Expr.Vacc "tile_size") (Some Expr.PLUS)).

(** part A: the triangles on the diagonal *)
Definition rowA_decl : Var_Decl :=
  mkVar_Decl Ty.Int "t_0_i" (Expr.Plus (Expr.Vacc "t_0_j") (Expr.Const 1)).
Definition rowA_end : Expr.Base := Expr.Vacc "z".
Definition rowA_loop : Statement.Base :=
  For rowA_decl (Expr.Greater (Expr.Vacc "t_0_i") rowA_end) Ex.row_inc
    [Ex.foo_call].
Definition colA_decl : Var_Decl :=
  mkVar_Decl Ty.Size "t_0_j" (Expr.Vacc "z").
Definition colA_cond : Expr.Base :=
  Expr.Less (Expr.Vacc "t_0_j")
    (Expr.Plus (Expr.Vacc "z") (Expr.Vacc "tile_size")).
Definition colA_loop : Statement.Base :=
  For colA_decl colA_cond None [rowA_loop].
Definition zA_decl : Var_Decl := mkVar_Decl Ty.Int "z" (Expr.Const 0).
Definition zA_loop : Statement.Base := For zA_decl z_cond z_inc [colA_loop].

(** part B: the tiles above the diagonal *)
Definition rowB_decl : Var_Decl :=
  mkVar_Decl Ty.Int "t_0_i" (Expr.Vacc "x").
Definition rowB_end : Expr.Base :=
  Expr.Minus (Expr.Vacc "x") (Expr.Vacc "tile_size").
Definition rowB_loop : Statement.Base :=
  For rowB_decl (Expr.Greater (Expr.Vacc "t_0_i") rowB_end) Ex.row_inc
    [Ex.foo_call].
Definition colB_decl : Var_Decl :=
  mkVar_Decl Ty.Size "t_0_j" (Expr.Vacc "y").
Definition colB_cond : Expr.Base :=
  Expr.Less (Expr.Vacc "t_0_j")
    (Expr.Plus (Expr.Vacc "y") (Expr.Vacc "tile_size")).
Definition colB_loop : Statement.Base :=
  For colB_decl colB_cond None [rowB_loop].
Definition x_decl : Var_Decl :=
  mkVar_Decl Ty.Size "x"
    (Expr.Plus (Expr.Minus (Expr.Vacc "y") (Expr.Vacc "z"))
               (Expr.Vacc "tile_size")).
Definition y_decl : Var_Decl := mkVar_Decl Ty.Int "y" (Expr.Vacc "z").
Definition y_cond : Expr.Base :=
  Expr.Less (Expr.Vacc "y") (Expr.Vacc "max_tiles_n").
Definition y_inc : option Var_Assign :=
  Some (mkVar_Assign "y" (Expr.Vacc "tile_size") (Some Expr.PLUS)).
Definition y_loop : Statement.Base :=
  For y_decl y_cond y_inc [SVar_Decl x_decl; colB_loop].
Definition zB_decl : Var_Decl :=
  mkVar_Decl Ty.Int "z" (Expr.Vacc "tile_size").
Definition zB_loop : Statement.Base :=
  For zB_decl z_cond z_inc [CustomCode "#pragma omp for"; y_loop].

Definition block (tile_macro : option Z) : Statement.Base :=
  Block (prelude tile_macro
         ++ [ CustomCode "#pragma omp for";
              CustomCode "// OPENMP < 3 requires signed int here ...";
              zA_loop; zB_loop;
              CustomCode "// end parallel" ]).

(** the serial part: the single-thread traversal from column
    [max_tiles_n] on *)
Definition serial_col_decl : Var_Decl :=
  mkVar_Decl Ty.Size "t_0_j" (Expr.Vacc "max_tiles_n").
Definition serial : list Statement.Base :=
  [ For serial_col_decl Ex.col_cond None Ex.col_body; Ex.col_end;
    Ex.row_loop; Ex.row_end; Ex.foo_call ].

Definition program (tile_macro : option Z) : list Statement.Base :=
  [CustomCode "#pragma omp parallel"; block tile_macro]
  ++ prelude tile_macro ++ serial.

(** rows [hi], [hi - 1], ... ([k] of them) of column [j] *)
Definition rows_down (hi k j : nat) : list (Z * Z) :=
  map (fun r => (Z.of_nat (hi - r), Z.of_nat j)) (seq 0 k).

(** the first [k] columns of the triangle of tile [a] on the diagonal *)
Definition tileA (t a k : nat) : list (Z * Z) :=
  flat_map (fun d => rows_down (a * t + d) (S d) (a * t + d)) (seq 0 k).

(** the first [k] columns of the tile in tile column [b], [a] tiles above
    the diagonal *)
Definition tileB (t a b k : nat) : list (Z * Z) :=
  flat_map (fun d => rows_down ((b - a) * t + t - 1) t (b * t + d))
    (seq 0 k).

(** part A for the first [k] tiles *)
Definition partA (t k : nat) : list (Z * Z) :=
  flat_map (fun a => tileA t a t) (seq 0 k).

(** the first [k] tiles of the band [a] tiles above the diagonal *)
Definition bandB (t a k : nat) : list (Z * Z) :=
  flat_map (fun b => tileB t a b t) (seq a k).

(** part B for the first [k] bands, of [m] tiles on the diagonal *)
Definition partB (t m k : nat) : list (Z * Z) :=
  flat_map (fun a => bandB t a (m - a)) (seq 1 k).

Definition serial_cells (n M : nat) : list (Z * Z) :=
  flat_map (fun j => quadrant_A j ++ quadrant_B j) (seq M (n - M))
  ++ quadrant_C n ++ quadrant_D n.

(** the cells in the order of the calls, for sequence length [n] and tile
    size [t] *)
Definition visited (n t : nat) : list (Z * Z) :=
  partA t (n / t) ++ partB t (n / t) (n / t - 1)
  ++ serial_cells n (n / t * t).

End ExTile.

(** the variables outside [xs] are as they were *)
Definition keeps (xs : list string) (st st' : Sem.State) : Prop :=
  forall v, ~ In v xs -> Sem.vars st' v = Sem.vars st v.

(** ** Exceptions *)

(** [LogError] as the functions below throw it: with a location or
    without, and a message *)
Record LogError : Type := mkLogError {
  err_loc : option string;
  err_msg : string
}.

(** the line feed of the messages *)
Definition nl : string := String (Ascii.ascii_of_nat 10) EmptyString.

(** ** outside/grammar_transformation.cc: the requested nonterminals *)

Section OutsideRequest.

(** the name that requests all nonterminals; it is declared outside the
    embedded files and only compared with here *)
Variable OUTSIDE_ALL : string.

(** the keys of [Grammar::NTs], the nonterminals of the grammar by name *)
Variable NTs : list string.

Definition NTs_find (i : string) : bool := existsb (String.eqb i) NTs.

(** the loop over the requested names; [warn_missing_nts] collects the
    names of nonterminals that do not exist *)
Fixpoint collect_missing_nts (requested warn_missing_nts : list string)
    : list string :=
  match requested with
  | [] => warn_missing_nts
  | i :: rest =>
      if String.eqb i OUTSIDE_ALL then
        collect_missing_nts rest warn_missing_nts
      else if negb (NTs_find i) then
        collect_missing_nts rest (warn_missing_nts ++ [i])
      else collect_missing_nts rest warn_missing_nts
  end.

(** the loop that appends the missing names to the message *)
Fixpoint append_missing_nts (msg : string) (warn_missing_nts : list string)
    : string :=
  match warn_missing_nts with
  | [] => msg
  | i :: rest =>
      let msg := msg +++ ("  '" +++ i +++ "'") in
      let msg := match rest with
                 | [] => msg
                 | _ :: _ => msg +++ nl
                 end in
      append_missing_nts msg rest
  end.

Definition missing_nts_msg (g : Grammar) : string :=
  "You requested outside grammar generation and" +++ nl +++
  "reporting results for " +++
  "the following non-terminals, which do NOT exist in your grammar '" +++
  gname g +++ "':" +++ nl.

(** [outside_nt_list] is what [ast.get_outside_nt_list()] returns: no list
    where the user requested no nonterminal.  [None] is a normal return,
    [Some e] the exception thrown. *)
Definition check_outside_requested_nonexisting_nts (g : Grammar)
    (outside_nt_list : option (list string)) : option LogError :=
  match outside_nt_list with
  | None => None
  | Some requested =>
      let warn_missing_nts := collect_missing_nts requested [] in
      if Nat.ltb 0 (List.length warn_missing_nts) then
        Some (mkLogError (Some (location g))
                (append_missing_nts (missing_nts_msg g) warn_missing_nts))
      else None
  end.

End OutsideRequest.

(** ** driver.cc *)

Module Driver.

Section Files.

(** the open files and what [std::fopen] for reading returns for a path *)
Variable FILE : Type.
Variable fopen : string -> option FILE.

(** [std::strerror(errno)] after a failed [fopen] *)
Variable strerror_errno : string.

(** the members of the driver that the functions below touch, with the
    input file [yyin] of the lexer (lexer.h), its stack of buffers and the
    messages passed to [Log::error] *)
Record t : Type := mk {
  from_stdin : bool;
  fail_later : bool;
  filename_ : option string;
  includes : list string;
  open_files : list FILE;
  yyin : option FILE;
  buffer_stack : list FILE;
  errors : list string
}.

Definition with_yyin (y : option FILE) (d : t) : t :=
  mk (from_stdin d) (fail_later d) (filename_ d) (includes d)
     (open_files d) y (buffer_stack d) (errors d).

Definition with_fail_later (b : bool) (d : t) : t :=
  mk (from_stdin d) b (filename_ d) (includes d) (open_files d) (yyin d)
     (buffer_stack d) (errors d).

(** the state after the constructor, for a lexer with input [yyin] *)
Definition new (yyin : option FILE) : t :=
  mk false false None [EmptyString] [] yyin [] [].

Definition setFilename (s : string) (d : t) : t :=
  mk (from_stdin d) (fail_later d) (Some s) (includes d) (open_files d)
     (yyin d) (buffer_stack d) (errors d).

Definition setStdin (b : bool) (d : t) : t :=
  mk b (fail_later d) (Some "<stdin>") (includes d) (open_files d)
     (yyin d) (buffer_stack d) (errors d).

Definition set_includes (v : list string) (d : t) : t :=
  mk (from_stdin d) (fail_later d) (filename_ d) (includes d ++ v)
     (open_files d) (yyin d) (buffer_stack d) (errors d).

(** [Driver::error(const std::string &)] *)
Definition error (m : string) (d : t) : t :=
  mk (from_stdin d) true (filename_ d) (includes d) (open_files d)
     (yyin d) (buffer_stack d) (errors d ++ [m]).

(** [None] is the failed assertion on [filename_] *)
Definition file_open (d : t) : option (t * bool) :=
  f <- filename_ d ;;
  match fopen f with
  | Some h => Some (with_yyin (Some h) d, true)
  | None =>
      Some (error ("Can't open " +++ f +++ ": " +++ strerror_errno)
              (with_yyin None d),
            false)
  end.

Definition lexer_prepare (d : t) : option (t * bool) :=
  if from_stdin d then Some (d, true) else file_open d.

(** [parser] is what the generated parser does to the driver (it reports
    through [Driver::error]) and [seen_errors] what the log answers
    afterwards; the initialisation of the scanner and of the tables touches
    no member *)
Definition parse (parser : t -> t) (seen_errors : t -> bool) (d : t)
    : option (t * bool) :=
  '(d, prepared) <- lexer_prepare d ;;
  if negb prepared then Some (d, false)
  else
    let d := with_fail_later false d in
    let d := parser d in
    let d := with_fail_later (fail_later d || seen_errors d) d in
    Some (d, fail_later d).

(** the character [/] *)
Definition slash : Ascii.ascii := Ascii.ascii_of_nat 47.

(** the last character of a string *)
Fixpoint back (b : string) : option Ascii.ascii :=
  match b with
  | EmptyString => None
  | String c EmptyString => Some c
  | String _ rest => back rest
  end.

(** the path tried for the directory [i] and the name [s] *)
Definition candidate (i s : string) : string :=
  let b := i in
  let b :=
    match back b with
    | Some c =>
        if Ascii.eqb c slash then b else b +++ String slash EmptyString
    | None => b
    end in
  b +++ s.

(** the loop over the include directories: [yyin] after it *)
Fixpoint open_include (s : string) (dirs : list string) (yyin : option FILE)
    : option FILE :=
  match dirs with
  | [] => yyin
  | i :: rest =>
      match fopen (candidate i s) with
      | Some f => Some f
      | None => open_include s rest None
      end
  end.

(** the driver afterwards and the exception thrown, if any *)
Definition push_buffer (s : string) (d : t) : t * option LogError :=
  let yyin' := open_include s (includes d) (yyin d) in
  let d' := with_yyin yyin' d in
  match yyin' with
  | None =>
      (d', Some (mkLogError None
                   ("include: Can't open " +++ s +++ ": " +++
                    strerror_errno)))
  | Some f =>
      if Nat.ltb 100 (List.length (open_files d)) then
        (d', Some (mkLogError None "Too many open files! (include loop?)"))
      else
        (mk (from_stdin d) (fail_later d) (filename_ d) (includes d)
            (open_files d ++ [f]) yyin' (f :: buffer_stack d) (errors d),
         None)
  end.

End Files.

Arguments mk {FILE}.
Arguments from_stdin {FILE}.
Arguments fail_later {FILE}.
Arguments filename_ {FILE}.
Arguments includes {FILE}.
Arguments open_files {FILE}.
Arguments yyin {FILE}.
Arguments buffer_stack {FILE}.
Arguments errors {FILE}.
Arguments with_yyin {FILE}.
Arguments with_fail_later {FILE}.
Arguments new {FILE}.
Arguments setFilename {FILE}.
Arguments setStdin {FILE}.
Arguments set_includes {FILE}.
Arguments error {FILE}.
Arguments file_open {FILE}.
Arguments lexer_prepare {FILE}.
Arguments parse {FILE}.
Arguments open_include {FILE}.
Arguments push_buffer {FILE}.

End Driver.

(** ** The single-thread traversal around two linear tables *)

Module ExLin.

(** the program [singlethread_program [nt_bar; nt_baz] SINGLETHREAD]
    evaluates to, by parts *)
Definition bar_call : Statement.Base :=
  Fn_Call NONE "nt_tabulate_bar" [Expr.Vacc "t_0_j"] false.
Definition baz_call : Statement.Base :=
  Fn_Call NONE "nt_tabulate_baz"
    [Expr.Minus (Expr.Vacc "t_0_i") (Expr.Const 1)] false.

Definition col_body : list Statement.Base := [Ex.row_end; bar_call].
Definition col_loop : Statement.Base :=
  For Ex.col_decl Ex.col_cond None col_body.
Definition row_loop : Statement.Base :=
  For Ex.row_decl Ex.row_cond Ex.row_inc [baz_call].

Definition program : list Statement.Base :=
  [col_loop; Ex.col_end; row_loop; Ex.row_end; bar_call; baz_call].

(** the records of the calls *)
Definition bar (j : nat) : string * list Z :=
  ("nt_tabulate_bar", [Z.of_nat j]).
Definition baz (i : nat) : string * list Z :=
  ("nt_tabulate_baz", [Z.of_nat i]).

(** the calls in their order, for sequence length [n] *)
Definition visited (n : nat) : list (string * list Z) :=
  map bar (seq 0 n) ++ map baz (rev (seq 1 n)) ++ [bar n; baz 0].

End ExLin.

(** ** The single-thread traversal with checkpointing *)

Module ExCp.

(** the flag declarations of [print_CYK], the single-thread traversal of
    one track and the calls of [nts] put in place, all with checkpointing *)
Definition singlethread_program (nts : list Symbol.NT)
    : option (list Statement.Base) :=
  let ast := Ex.ast1 nts true in
  decls <- loaded_decls ast (seq 0 (Symbol.tracks (axiom (grammar ast)))) ;;
  stmts <- cyk_traversal_singlethread ast SINGLETHREAD ;;
  '(stmts, new_stmts) <- add_nt_calls stmts [] nts true SINGLETHREAD ;;
  Some (decls ++ stmts ++ new_stmts).

(** the program [singlethread_program [nt_foo]] evaluates to, by parts *)
Definition loaded_decl (v : string) : Statement.Base :=
  SVar_Decl (mkVar_Decl Ty.Int (v +++ "_loaded")
               (Expr.Or (Expr.Not (Expr.Vacc "load_checkpoint"))
                        (Expr.Not (Expr.Vacc v)))).

Definition lock : Statement.Base :=
  CustomCode "std::lock_guard<fair_mutex> lock(mutex);".

Definition row_decl : Var_Decl :=
  mkVar_Decl (Ty.External "") "t_0_i"
    (Expr.Cond (Expr.Vacc "t_0_i_loaded++")
       (Expr.Plus (Expr.Vacc "t_0_j") (Expr.Const 1)) (Expr.Vacc "t_0_i")).
Definition row_body : list Statement.Base := [lock; Ex.foo_call].
Definition row_loop : Statement.Base :=
  For row_decl Ex.row_cond Ex.row_inc row_body.
Definition row_end : Statement.Base :=
  SVar_Decl (mkVar_Decl (Ty.External "") "t_0_i" (Expr.Const 1)).

Definition col_decl : Var_Decl :=
  mkVar_Decl (Ty.External "") "t_0_j"
    (Expr.Cond (Expr.Vacc "t_0_j_loaded++") (Expr.Const 0)
       (Expr.Vacc "t_0_j")).
Definition col_body : list Statement.Base :=
  [row_loop; row_end; lock; Ex.foo_call].
Definition col_loop : Statement.Base :=
  For col_decl Ex.col_cond None col_body.
Definition col_end : Statement.Base :=
  SVar_Decl (mkVar_Decl (Ty.External "") "t_0_j" (seq_size Ex.t_0_seq)).

Definition program : list Statement.Base :=
  [loaded_decl "t_0_i"; loaded_decl "t_0_j";
   col_loop; col_end; row_loop; row_end; lock; Ex.foo_call].

(** the state the generated function starts in: whether a checkpoint is to
    be loaded, and the indices as the checkpoint restored them *)
Definition start (load_checkpoint : Z) (i j : nat) : Sem.State :=
  Sem.mkState
    (Sem.upd "load_checkpoint" load_checkpoint
       (Sem.upd "t_0_i" (Z.of_nat i)
          (Sem.upd "t_0_j" (Z.of_nat j) Sem.empty)))
    [].

(** an index counts as not restored where no checkpoint is loaded or its
    value is 0 *)
Definition fresh (load_checkpoint : Z) (v : nat) : bool :=
  (load_checkpoint =? 0) || (Z.of_nat v =? 0).

(** the column and the row the traversal starts at *)
Definition first_column (load_checkpoint : Z) (j : nat) : nat :=
  if fresh load_checkpoint j then 0%nat else j.
Definition first_row (load_checkpoint : Z) (i j : nat) : nat :=
  if fresh load_checkpoint i
  then S (first_column load_checkpoint j) else i.

(** the cells in the order of the calls: the first column from the first
    row on, then the later columns *)
Definition resumed (n : nat) (load_checkpoint : Z) (i j : nat)
    : list (Z * Z) :=
  let J := first_column load_checkpoint j in
  let I := first_row load_checkpoint i j in
  column_rows (I - 1) (Z.of_nat J) ++ quadrant_B J
  ++ flat_map (fun j => quadrant_A j ++ quadrant_B j) (seq (S J) (n - J)).

End ExCp.

(** ** Well-formed nonterminals *)

(** a tabulated nonterminal has a table and both indices for each of its
    tracks, and code *)
Definition wf_nt (nt : Symbol.NT) : Prop :=
  Symbol.is_tabulated nt = true ->
  (Symbol.tracks nt <= List.length (Symbol.tables nt))%nat /\
  (Symbol.tracks nt <= List.length (Symbol.left_indices nt))%nat /\
  (Symbol.tracks nt <= List.length (Symbol.right_indices nt))%nat /\
  Symbol.code_list nt <> [].

(** ** The pruning loop without the undefined step *)

(** [l'] is [l] with some of its elements left out *)
Inductive subsequence {A : Type} : list A -> list A -> Prop :=
| subsequence_nil : subsequence [] []
| subsequence_skip (x : A) (l' l : list A) :
    subsequence l' l -> subsequence l' (x :: l)
| subsequence_keep (x : A) (l' l : list A) :
    subsequence l' l -> subsequence (x :: l') (x :: l).

(** one scan of the pruning loop; [None] where it erases the last statement
    of the list, after which the loop header increments the end iterator *)
Definition prune_scan (l : list Statement.Base)
    : option (list Statement.Base) :=
  let (l', w) := prune_pass l in
  if w then None else Some l'.

(** [add_nt_calls] and [print_CYK] with [prune_scan] for the pruning loop:
    they fail where a pruning loop takes the undefined step, and are the
    same otherwise *)
Fixpoint add_nt_calls_in_strict (orderedNTs : list Symbol.NT)
    (with_checkpoint : bool) (mode : CYKmode) (loop_vars : list string)
    (s : Statement.Base) {struct s} : option Statement.Base :=
  match s with
  | For vd c i body =>
      let next := next_loop_vars mode loop_vars vd in
      body1 <-
        (fix each (l : list Statement.Base) : option (list Statement.Base) :=
           match l with
           | [] => Some []
           | x :: r =>
               x' <- add_nt_calls_in_strict orderedNTs with_checkpoint mode
                       next x ;;
               r' <- each r ;;
               Some (x' :: r')
           end) body ;;
      body2 <- prune_scan body1 ;;
      new_stmts <-
        add_nts (existsb is_FOR body) next orderedNTs with_checkpoint mode ;;
      Some (For vd c i (body2 ++ new_stmts))
  | other => Some other
  end.

Fixpoint add_nt_calls_each_strict (orderedNTs : list Symbol.NT)
    (with_checkpoint : bool) (mode : CYKmode) (loop_vars : list string)
    (l : list Statement.Base) : option (list Statement.Base) :=
  match l with
  | [] => Some []
  | x :: r =>
      x' <- add_nt_calls_in_strict orderedNTs with_checkpoint mode
              loop_vars x ;;
      r' <- add_nt_calls_each_strict orderedNTs with_checkpoint mode
              loop_vars r ;;
      Some (x' :: r')
  end.

Definition add_nt_calls_strict (stmts : list Statement.Base)
    (loop_vars : list string) (orderedNTs : list Symbol.NT)
    (with_checkpoint : bool) (mode : CYKmode)
    : option (list Statement.Base * list Statement.Base) :=
  stmts1 <-
    add_nt_calls_each_strict orderedNTs with_checkpoint mode loop_vars stmts ;;
  stmts2 <- prune_scan stmts1 ;;
  nt_stmts <-
    add_nts (existsb is_FOR stmts) loop_vars orderedNTs with_checkpoint mode ;;
  Some (stmts2, nt_stmts).

Definition print_CYK_openmp_strict (ast : AST) : option (list Statement.Base) :=
  let name_maxtilen := "max_tiles_n" in
  it_stmt_seq <- hd_error (rev (seq_decls ast)) ;;
  let cp := checkpoint_cyk ast in
  let header :=
    if cp then
      fst (get_tile_computation ast name_maxtilen it_stmt_seq true)
      ++ openmp_checkpoint_header
    else [] in
  let stmts_tilesize :=
    get_tile_computation ast name_maxtilen it_stmt_seq false in
  let blk0 :=
    fst stmts_tilesize
    ++ [ if cp then CustomCode "#pragma omp for ordered schedule(dynamic)"
         else CustomCode "#pragma omp for";
         CustomCode "// OPENMP < 3 requires signed int here ..." ] in
  (* parallel part *)
  stmts <- cyk_traversal_multithread_parallel ast it_stmt_seq
             (snd stmts_tilesize) name_maxtilen cp ;;
  '(stmts, new_stmts) <-
     add_nt_calls_strict stmts [] (topological_ord (grammar ast)) cp
       OPENMP_PARALLEL ;;
  let blk_parallel :=
    Block (blk0 ++ (stmts ++ new_stmts) ++ [CustomCode "// end parallel"]) in
  (* serial part *)
  sstmts <- cyk_traversal_singlethread ast OPENMP_SERIAL ;;
  '(sstmts, new_serial_stmts) <-
     add_nt_calls_strict sstmts [] (topological_ord (grammar ast)) cp
       OPENMP_SERIAL ;;
  Some (header
        ++ [CustomCode "#pragma omp parallel"; blk_parallel]
        ++ fst stmts_tilesize
        ++ (sstmts ++ new_serial_stmts)).

Definition print_CYK_strict (ast : AST) : option Fn_Def :=
  let fn_cyk := mkFn_Def Ty.RealVoid "cyk" [] in
  if negb (cyk ast) then Some fn_cyk
  else
    decls <-
      (if checkpoint_cyk ast
       then loaded_decls ast
              (seq 0 (Symbol.tracks (axiom (grammar ast))))
       else Some []) ;;
    (* single thread version *)
    stmts <-
      cyk_traversal_singlethread ast
        (if outside_generation ast then SINGLETHREAD_OUTSIDE
         else SINGLETHREAD) ;;
    (* multi thread version (only single-track possible for now) *)
    omp <-
      (if Nat.eqb (Symbol.tracks (axiom (grammar ast))) 1
       then print_CYK_openmp_strict ast
       else Some []) ;;
    Some (mkFn_Def (return_type fn_cyk) (fn_name fn_cyk)
            (decls
             ++ [CustomCode "#ifndef _OPENMP"] ++ stmts
             ++ [CustomCode "#else"] ++ omp
             ++ [CustomCode "#endif"])).

(** ** Grammars on which the tiled phase keeps its loops *)

(** some tabulated nonterminal has a quadratic table over the running
    indices of track 0, which the tiled phase takes for loop variables by
    their prefix, and code that the pruning loop takes for the call of a
    nonterminal by its prefix *)
Definition quadratic_call (ast : AST) : Prop :=
  exists li ri nt fname,
    nth_error (left_running_indices (grammar ast)) 0 = Some li /\
    nth_error (right_running_indices (grammar ast)) 0 = Some ri /\
    String.prefix "t_" li = true /\
    String.prefix "t_" ri = true /\
    In nt (topological_ord (grammar ast)) /\
    Symbol.is_tabulated nt = true /\
    live_indices nt = Some [(true, li); (false, ri)] /\
    hd_error (rev (Symbol.code_list nt)) = Some fname /\
    String.prefix "nt_tabulate_" fname = true.

(** every loop of [s] holds a loop or is entered with the loop variables
    [target], in the tiled phase entered with [lv] *)
Fixpoint nest (target lv : list string) (s : Statement.Base) : bool :=
  match s with
  | For vd c i body =>
      let next := next_loop_vars OPENMP_PARALLEL lv vd in
      forallb (nest target next) body
      && (existsb is_FOR body
          || if list_eq_dec string_dec next target then true else false)
  | _ => true
  end.

(** ** The OpenMP version and a linear table *)

Module ExLinOmp.

(** the program [print_CYK_openmp] evaluates to for [nt_foo] and [nt_bar],
    by parts: the parallel block holds the calls of [nt_foo] alone, the
    serial part those of both *)
Definition col_body : list Statement.Base := Ex.col_body ++ [ExLin.bar_call].
Definition serial : list Statement.Base :=
  [ For ExTile.serial_col_decl Ex.col_cond None col_body; Ex.col_end;
    Ex.row_loop; Ex.row_end; Ex.foo_call; ExLin.bar_call ].

Definition program (tile_macro : option Z) : list Statement.Base :=
  [CustomCode "#pragma omp parallel"; ExTile.block tile_macro]
  ++ ExTile.prelude tile_macro ++ serial.

(** the calls of the serial part in column [j] *)
Definition column_calls (j : nat) : list (string * list Z) :=
  map Ex.cell_call (quadrant_A j ++ quadrant_B j) ++ [ExLin.bar j].

(** the calls in their order, for sequence length [n] and tile size [t] *)
Definition visited (n t : nat) : list (string * list Z) :=
  map Ex.cell_call
    (ExTile.partA t (n / t) ++ ExTile.partB t (n / t) (n / t - 1))
  ++ flat_map column_calls (seq (n / t * t) (n - n / t * t))
  ++ column_calls n.

Definition is_bar (c : string * list Z) : bool :=
  String.eqb (fst c) "nt_tabulate_bar".

End ExLinOmp.

(** * Properties *)

(** ** Strings and the option monad *)

Lemma append_assoc (a b c : string) : (a +++ b) +++ c = a +++ (b +++ c).
Proof.
  induction a as [|ch a IH]; simpl; [reflexivity | now rewrite IH].
Qed.

Lemma length_append (a b : string) :
  String.length (a +++ b) = (String.length a + String.length b)%nat.
Proof.
  induction a as [|ch a IH]; simpl; [reflexivity | now rewrite IH].
Qed.

Lemma bind_Some {A B : Type} (m : option A) (f : A -> option B) (b : B) :
  bind m f = Some b -> exists a, m = Some a /\ f a = Some b.
Proof.
  destruct m as [a|]; simpl; intros H; [eauto | discriminate].
Qed.

Ltac inv_bind H :=
  let x := fresh "x" in
  let E := fresh "E" in
  apply bind_Some in H; destruct H as [x [E H]].

(** ** [print_CYK] without CYK evaluation *)

(** C9: if CYK evaluation is not requested, [print_CYK] still returns a
    function definition; it is named "cyk" and its statement list is
    empty. *)
Theorem print_CYK_not_requested (ast : AST) :
  cyk ast = false ->
  exists fn, print_CYK ast = Some fn /\ fn_name fn = "cyk" /\ stmts fn = [].
Proof.
  intros H. unfold print_CYK. rewrite H. simpl.
  eexists; repeat split.
Qed.

Lemma print_CYK_not_requested_witness :
  let ast := mkAST false true true [] (Ex.grammar1 [Ex.nt_foo]) in
  cyk ast = false /\
  exists fn, print_CYK ast = Some fn /\ fn_name fn = "cyk" /\ stmts fn = [].
Proof.
  split; [reflexivity | apply print_CYK_not_requested; reflexivity].
Defined.

(** ** The outside empty-word check *)

Lemma gt_zero_false (p : Yield.Poly) :
  Yield.gt p 0 = false <-> p = Yield.Num 0.
Proof.
  destruct p as [i|]; simpl; split; intros H; try discriminate.
  - apply N.ltb_ge in H. f_equal. lia.
  - injection H as ->. reflexivity.
Qed.

Lemma check_multi_ys_true (put : Yield.Poly -> string) (g : Grammar)
    (ys : list Yield.Size) :
  fst (check_multi_ys put g ys) = true <->
  Forall (fun y => Yield.low y = Yield.Num 0) ys.
Proof.
  induction ys as [|y ys IH]; simpl.
  - split; auto.
  - destruct (Yield.gt (Yield.low y) 0) eqn:E; simpl.
    + split; [discriminate|].
      intros H. inversion H as [|? ? H0 _]; subst.
      apply gt_zero_false in H0. congruence.
    + rewrite IH. apply gt_zero_false in E.
      split; [now constructor | intros H; now inversion H].
Qed.

Lemma check_multi_ys_log (put : Yield.Poly -> string) (g : Grammar)
    (ys : list Yield.Size) :
  (fst (check_multi_ys put g ys) = true /\ snd (check_multi_ys put g ys) = [])
  \/
  (fst (check_multi_ys put g ys) = false /\
   exists y, In y ys /\ Yield.gt (Yield.low y) 0 = true /\
     snd (check_multi_ys put g ys)
       = [Log.warning (location g) (empty_word_msg put g (Yield.low y))]).
Proof.
  induction ys as [|y ys IH]; simpl.
  - left; split; reflexivity.
  - destruct (Yield.gt (Yield.low y) 0) eqn:E; simpl.
    + right; split; [reflexivity|]. exists y; auto.
    + destruct IH as [IH | [IHf [y' [Hin [Hgt Hlog]]]]]; [left; exact IH|].
      right; split; [exact IHf|]. exists y'; auto.
Qed.

Lemma empty_word_msg_text (put : Yield.Poly -> string) (g : Grammar)
    (l : Yield.Poly) :
  exists pre post,
    empty_word_msg put g l
      = pre +++ "it cannot parse the empty input string ''" +++ post.
Proof.
  exists ("The minimal yield size of your grammar '" +++ gname g +++
          "' is " +++ put l +++ ", i.e. ").
  eexists. unfold empty_word_msg.
  repeat rewrite append_assoc. do 4 f_equal.
  simpl. reflexivity.
Qed.

(** C10: [check_outside_parse_empty_word] returns true iff outside
    generation is not requested or the minimal yield size of the axiom is
    zero on every track; a true result logs nothing, a false result logs
    one warning (no error) whose text says that the grammar cannot parse
    the empty input string. *)
Theorem check_outside_parse_empty_word_spec
    (put : Yield.Poly -> string) (ast : AST) :
  let res := check_outside_parse_empty_word put ast in
  (fst res = true <->
     outside_generation ast = false \/
     Forall (fun y => Yield.low y = Yield.Num 0)
            (Symbol.multi_ys (axiom (grammar ast)))) /\
  (fst res = true /\ snd res = [] \/
   fst res = false /\
   exists l pre post,
     Yield.gt l 0 = true /\
     snd res = [Log.warning (location (grammar ast))
                  (pre +++ "it cannot parse the empty input string ''"
                       +++ post)] /\
     pre +++ "it cannot parse the empty input string ''" +++ post
       = empty_word_msg put (grammar ast) l).
Proof.
  unfold check_outside_parse_empty_word.
  destruct (outside_generation ast) eqn:Eo; simpl.
  - split.
    + rewrite check_multi_ys_true. split; [auto|].
      intros [H|H]; [discriminate | exact H].
    + destruct (check_multi_ys_log put (grammar ast)
                  (Symbol.multi_ys (axiom (grammar ast))))
        as [H | [Hf [y [_ [Hgt Hlog]]]]]; [left; exact H|].
      right; split; [exact Hf|].
      destruct (empty_word_msg_text put (grammar ast) (Yield.low y))
        as [pre [post Hm]].
      exists (Yield.low y), pre, post.
      repeat split; [exact Hgt | now rewrite Hlog, Hm | now rewrite Hm].
  - split; [split; auto | left; split; reflexivity].
Qed.

(** ** The loop builders always succeed: both declarations share the name *)

Lemma nth_error_lt {A : Type} (l : list A) (n : nat) :
  (n < List.length l)%nat -> exists a, nth_error l n = Some a.
Proof.
  intros H. destruct (nth_error l n) as [a|] eqn:E; [eauto|].
  apply nth_error_None in E. lia.
Qed.

Lemma get_for_column_Some (rb : string) (start end_ : Expr.Base)
    (cp : bool) (mode : CYKmode) :
  exists vd c,
    get_for_column rb start end_ cp mode
      = Some (mkCYKloop (For vd c None [])
                        (mkVar_Decl (type vd) rb end_)) /\
    name vd = rb.
Proof.
  unfold get_for_column, new_CYKloop. simpl.
  rewrite String.eqb_refl. simpl.
  match goal with
  | |- context [For ?vd ?c None []] => exists vd, c
  end.
  split; reflexivity.
Qed.

Lemma get_for_row_Some (rb : string) (start end_ : Expr.Base)
    (cp : bool) (mode : CYKmode) :
  exists vd c i,
    get_for_row rb start end_ cp mode
      = Some (mkCYKloop (For vd c i [])
                        (mkVar_Decl (type vd) rb (Expr.Const 1))) /\
    name vd = rb.
Proof.
  unfold get_for_row, new_CYKloop. simpl.
  rewrite String.eqb_refl. simpl.
  match goal with
  | |- context [For ?vd ?c ?i []] => exists vd, c, i
  end.
  split; reflexivity.
Qed.

Section Totality.

Variable ast : AST.
Hypothesis wf : wf_tracks ast.

Lemma singletrack_Some (track : nat) (seq : Var_Decl)
    (nested : list Statement.Base) (cp : bool) (mode : CYKmode) :
  (track < Symbol.tracks (axiom (grammar ast)))%nat ->
  exists st,
    cyk_traversal_singlethread_singletrack track ast seq nested cp mode
      = Some st.
Proof.
  intros Ht. destruct wf as [_ [Hl Hr]].
  destruct (nth_error_lt (right_running_indices (grammar ast)) track)
    as [rri Er]; [lia|].
  destruct (nth_error_lt (left_running_indices (grammar ast)) track)
    as [lri El]; [lia|].
  unfold cyk_traversal_singlethread_singletrack.
  rewrite Er, El. simpl.
  destruct (get_for_row_Some lri (Expr.plus (Expr.Vacc rri) (Expr.Const 1))
              (Expr.Const 1) cp mode) as [vd [c [i [-> _]]]].
  simpl.
  destruct (get_for_column_Some rri
              (if CYKmode_eqb mode OPENMP_SERIAL
               then Expr.Vacc "max_tiles_n" else Expr.Const 0)
              (seq_size seq) cp mode) as [vd' [c' [-> _]]].
  simpl. eauto.
Qed.

Lemma singletrack_outside_Some (track : nat) (seq : Var_Decl)
    (nested : list Statement.Base) (cp : bool) (mode : CYKmode) :
  (track < Symbol.tracks (axiom (grammar ast)))%nat ->
  exists st,
    cyk_traversal_singlethread_singletrack_outside track ast seq nested
      cp mode = Some st.
Proof.
  intros Ht. destruct wf as [_ [Hl Hr]].
  destruct (nth_error_lt (right_running_indices (grammar ast)) track)
    as [rri Er]; [lia|].
  destruct (nth_error_lt (left_running_indices (grammar ast)) track)
    as [lri El]; [lia|].
  unfold cyk_traversal_singlethread_singletrack_outside.
  rewrite Er, El. simpl.
  destruct (get_for_column_Some rri
              (Expr.minus (seq_size seq) (Expr.Vacc lri))
              (Expr.plus (seq_size seq) (Expr.Const 1)) cp mode)
    as [vd' [c' [-> _]]].
  simpl.
  destruct (get_for_row_Some lri (Expr.Const 0)
              (Expr.plus (seq_size seq) (Expr.Const 1)) cp mode)
    as [vd [c [i [-> _]]]].
  simpl. eauto.
Qed.

Lemma cyk_traversal_tracks_Some (mode : CYKmode) (k : nat) :
  (k <= Symbol.tracks (axiom (grammar ast)))%nat ->
  forall stmts, exists st, cyk_traversal_tracks ast mode k stmts = Some st.
Proof.
  induction k as [|track IH]; intros Hk stmts; simpl; [eauto|].
  destruct (nth_error_lt (rev (seq_decls ast))
              (Symbol.tracks (axiom (grammar ast)) - 1 - track))
    as [sq Es].
  { rewrite length_rev. destruct wf as [Hs _]. lia. }
  rewrite Es. simpl.
  destruct (CYKmode_eqb mode SINGLETHREAD_OUTSIDE).
  - destruct (singletrack_outside_Some track sq stmts (checkpoint_cyk ast)
                mode) as [st ->]; [lia|].
    simpl. apply IH. lia.
  - destruct (singletrack_Some track sq stmts (checkpoint_cyk ast) mode)
      as [st ->]; [lia|].
    simpl. apply IH. lia.
Qed.

Lemma cyk_traversal_singlethread_Some (mode : CYKmode) :
  exists st, cyk_traversal_singlethread ast mode = Some st.
Proof.
  unfold cyk_traversal_singlethread.
  destruct wf as [Hs _]. rewrite Hs, Nat.eqb_refl. simpl.
  apply cyk_traversal_tracks_Some. lia.
Qed.

Lemma loaded_decls_Some (ts : list nat) :
  Forall (fun t => (t < Symbol.tracks (axiom (grammar ast)))%nat) ts ->
  exists d, loaded_decls ast ts = Some d.
Proof.
  destruct wf as [_ [Hl Hr]].
  induction ts as [|t ts IH]; intros H; simpl; [eauto|].
  inversion H as [|? ? Ht Hts]; subst.
  destruct (nth_error_lt (left_running_indices (grammar ast)) t)
    as [lri ->]; [lia|].
  destruct (nth_error_lt (right_running_indices (grammar ast)) t)
    as [rri ->]; [lia|].
  destruct (IH Hts) as [d ->]. simpl. eauto.
Qed.

End Totality.

(** ** The tile-size computation *)

Lemma tile_statements_eq (ast : AST) (name_maxtilen : string)
    (input_seq : Var_Decl) :
  (if checkpoint_cyk ast
   then fst (get_tile_computation ast name_maxtilen input_seq true)
   else [])
  ++ fst (get_tile_computation ast name_maxtilen input_seq false)
  = tile_statements name_maxtilen input_seq.
Proof.
  unfold get_tile_computation, tile_statements.
  destruct (checkpoint_cyk ast); reflexivity.
Qed.

(** C7: the tile-size computation declares [tile_size] with default 32,
    replaced by the macro [TILE_SIZE] where that is defined, [max_tiles] as
    the floor of the sequence length divided by [tile_size], and
    [max_tiles_n] as [max_tiles * tile_size].  The statements are those
    [print_CYK] emits with and without checkpointing; they are run on a
    sequence of length [n].  [tile_size] and [max_tiles] are declared
    [unsigned int] and [max_tiles_n] is declared [int]: the tile size is
    below [2^32] and the length below [2^31], so that no value wraps. *)
Theorem get_tile_computation_spec (ast : AST) (input_seq : Var_Decl)
    (sizes : string -> option Z) (n : Z) (tile_macro : option Z) :
  sizes (name input_seq) = Some n ->
  0 <= n < 2 ^ 31 ->
  0 < effective_tile_size tile_macro < 2 ^ 32 ->
  snd (get_tile_computation ast "max_tiles_n" input_seq false)
    = mkVar_Decl Ty.Size "tile_size" (Expr.Const 32) /\
  exists st,
    Sem.exec_list sizes 1
      (Sem.preprocess (macro_defined tile_macro) true
         ((if checkpoint_cyk ast
           then fst (get_tile_computation ast "max_tiles_n" input_seq true)
           else [])
          ++ fst (get_tile_computation ast "max_tiles_n" input_seq false)))
      (Sem.mkState (macro_env tile_macro) []) = Some st /\
    Sem.vars st "tile_size" = Some (effective_tile_size tile_macro) /\
    Sem.vars st "max_tiles" = Some (n / effective_tile_size tile_macro) /\
    Sem.vars st "max_tiles_n"
      = Some (n / effective_tile_size tile_macro
              * effective_tile_size tile_macro) /\
    0 <= n / effective_tile_size tile_macro < 2 ^ 32 /\
    0 <= n / effective_tile_size tile_macro * effective_tile_size tile_macro
      < 2 ^ 31.
Proof.
  intros Hsz Hn Ht. split.
  { unfold get_tile_computation. destruct (checkpoint_cyk ast); reflexivity. }
  assert (Hr : 0 <= n / effective_tile_size tile_macro < 2 ^ 32 /\
               0 <= n / effective_tile_size tile_macro
                    * effective_tile_size tile_macro < 2 ^ 31).
  { assert (H0 : 0 <= n / effective_tile_size tile_macro)
      by (apply Z.div_pos; lia).
    assert (H1 : effective_tile_size tile_macro
                 * (n / effective_tile_size tile_macro) <= n)
      by (apply Z.mul_div_le; lia).
    assert (H2 : n / effective_tile_size tile_macro <= n)
      by (apply Z.div_le_upper_bound; nia).
    split; [lia | nia]. }
  rewrite tile_statements_eq.
  assert (Hq : Z.quot n (effective_tile_size tile_macro)
               = n / effective_tile_size tile_macro)
    by (apply Z.quot_div_nonneg; lia).
  assert (Hz : (effective_tile_size tile_macro =? 0) = false)
    by (apply Z.eqb_neq; lia).
  destruct tile_macro as [t|]; simpl in Hq, Hz, Ht |- *.
  - unfold Sem.exec_list, Sem.exec_decl, Sem.exec_assign. simpl.
    rewrite Hz. simpl.
    unfold Sem.exec_decl, seq_size. simpl. rewrite Hsz. simpl.
    rewrite Hz. simpl.
    unfold Sem.exec_decl. simpl.
    eexists; split; [reflexivity|]. simpl. rewrite Hq.
    split; [reflexivity|]. split; [reflexivity|]. split; [reflexivity|].
    exact Hr.
  - unfold Sem.exec_list, Sem.exec_decl, Sem.exec_assign. simpl.
    unfold Sem.exec_decl, seq_size. simpl. rewrite Hsz. simpl.
    unfold Sem.exec_decl. simpl.
    eexists; split; [reflexivity|]. simpl. rewrite Hq.
    split; [reflexivity|]. split; [reflexivity|]. split; [reflexivity|].
    exact Hr.
Qed.

Lemma get_tile_computation_spec_witness :
  exists st,
    Sem.exec_list (Ex.sizes 12) 1
      (Sem.preprocess (macro_defined (Some 4)) true
         (fst (get_tile_computation (Ex.ast1 [] false) "max_tiles_n"
                 Ex.t_0_seq false)))
      (Sem.mkState (macro_env (Some 4)) []) = Some st /\
    Sem.vars st "tile_size" = Some 4 /\
    Sem.vars st "max_tiles" = Some 3 /\
    Sem.vars st "max_tiles_n" = Some 12.
Proof.
  destruct (get_tile_computation_spec (Ex.ast1 [] false) Ex.t_0_seq
              (Ex.sizes 12) 12 (Some 4))
    as [_ [st [He [Ht [Hm [Hn _]]]]]];
    [reflexivity | lia | simpl; lia |].
  exists st. auto.
Defined.

(** ** Checkpointed loop starts *)

Lemma strip_postinc_loaded (x : string) :
  Sem.strip_postinc (x +++ "_loaded++") = Some (x +++ "_loaded").
Proof.
  induction x as [|c x IH]; [reflexivity|].
  simpl. rewrite IH.
  destruct (String.eqb_spec (x +++ "_loaded++") "++") as [E|_];
    [|reflexivity].
  apply (f_equal String.length) in E. rewrite length_append in E.
  simpl in E. lia.
Qed.

Lemma loaded_flag_neq (x : string) : x +++ "_loaded" <> x.
Proof.
  intros E. apply (f_equal String.length) in E.
  rewrite length_append in E. simpl in E. lia.
Qed.

Lemma upd_same (x : string) (v : Z) (r : Sem.env) :
  Sem.upd x v r x = Some v.
Proof. unfold Sem.upd. now rewrite String.eqb_refl. Qed.

Lemma upd_other (x y : string) (v : Z) (r : Sem.env) :
  x <> y -> Sem.upd x v r y = r y.
Proof.
  intros H. unfold Sem.upd. apply String.eqb_neq in H. now rewrite H.
Qed.

Lemma eval_var (sizes : string -> option Z) (x : string) (v : Z)
    (r : Sem.env) :
  Sem.strip_postinc x = None -> r x = Some v ->
  Sem.eval sizes (Expr.Vacc x) r = Some (v, r).
Proof. intros Hs Hx. simpl. rewrite Hs, Hx. reflexivity. Qed.

Lemma eval_postinc (sizes : string -> option Z) (x y : string) (v : Z)
    (r : Sem.env) :
  Sem.strip_postinc x = Some y -> r y = Some v ->
  Sem.eval sizes (Expr.Vacc x) r = Some (v, Sem.upd y (v + 1) r).
Proof. intros Hs Hy. simpl. rewrite Hs, Hy. reflexivity. Qed.

Lemma eval_Cond (sizes : string -> option Z) (c t e : Expr.Base)
    (r : Sem.env) :
  Sem.eval sizes (Expr.Cond c t e) r
  = ('(x, r) <- Sem.eval sizes c r ;;
     if x =? 0 then Sem.eval sizes e r else Sem.eval sizes t r).
Proof. reflexivity. Qed.

(** with checkpointing outside the parallel tile phase both builders start
    their loop at [<name>_loaded++ ? start : <name>]; otherwise at [start] *)
Lemma loop_start_checkpoint (rb : string) (start end_ : Expr.Base)
    (cp : bool) (mode : CYKmode) :
  (l <- get_for_column rb start end_ cp mode ;; loop_start l)
    = Some (if cp && negb (CYKmode_eqb mode OPENMP_PARALLEL)
            then checkpoint_start rb start else start) /\
  (l <- get_for_row rb start end_ cp mode ;; loop_start l)
    = Some (if cp && negb (CYKmode_eqb mode OPENMP_PARALLEL)
            then checkpoint_start rb start else start).
Proof.
  unfold get_for_column, get_for_row, new_CYKloop, loop_start. simpl.
  rewrite String.eqb_refl. simpl. split; reflexivity.
Qed.

Section CheckpointReads.

Variable sizes : string -> option Z.
Variable rb : string.
Variable start : Expr.Base.
Variable r : Sem.env.
Variables f v d : Z.

Let flag : string := rb +++ "_loaded".

Hypothesis rb_plain : Sem.strip_postinc rb = None.
Hypothesis flag_value : r flag = Some f.
Hypothesis restored_value : r rb = Some v.
(** the natural start does not depend on the flag and changes nothing *)
Hypothesis start_pure :
  forall r', (forall x, x <> flag -> r' x = r x) ->
             Sem.eval sizes start r' = Some (d, r').

Lemma checkpoint_start_step (r' : Sem.env) (f' : Z) :
  (forall x, x <> flag -> r' x = r x) ->
  r' flag = Some f' ->
  Sem.eval sizes (checkpoint_start rb start) r'
    = Some (if f' =? 0 then v else d, Sem.upd flag (f' + 1) r').
Proof.
  intros Hagree Hf. unfold checkpoint_start.
  rewrite eval_Cond.
  rewrite (eval_postinc sizes _ flag f' r' (strip_postinc_loaded rb) Hf).
  cbn [bind].
  assert (Hagree' : forall x, x <> flag ->
                      Sem.upd flag (f' + 1) r' x = r x).
  { intros x Hx. rewrite upd_other by congruence. now apply Hagree. }
  destruct (f' =? 0).
  - apply eval_var; [exact rb_plain|].
    rewrite Hagree'; [exact restored_value|].
    intros E. symmetry in E. now apply loaded_flag_neq in E.
  - now apply start_pure.
Qed.

Lemma checkpoint_reads_loaded (k : nat) :
  forall (r' : Sem.env) (f' : Z),
  (forall x, x <> flag -> r' x = r x) ->
  r' flag = Some f' -> 0 < f' ->
  reads sizes (checkpoint_start rb start) k r' = Some (repeat d k).
Proof.
  induction k as [|k IH]; intros r' f' Hagree Hf Hpos; [reflexivity|].
  cbn [reads]. rewrite (checkpoint_start_step r' f' Hagree Hf).
  replace (f' =? 0) with false by (symmetry; apply Z.eqb_neq; lia).
  cbn [bind].
  rewrite (IH (Sem.upd flag (f' + 1) r') (f' + 1)).
  - reflexivity.
  - intros x Hx. rewrite upd_other by congruence. now apply Hagree.
  - apply upd_same.
  - lia.
Qed.

Lemma checkpoint_reads_all (k : nat) :
  0 <= f ->
  reads sizes (checkpoint_start rb start) (S k) r
    = Some ((if f =? 0 then v else d) :: repeat d k).
Proof.
  intros Hf. cbn [reads].
  rewrite (checkpoint_start_step r f (fun x _ => eq_refl) flag_value).
  cbn [bind].
  rewrite (checkpoint_reads_loaded k (Sem.upd flag (f + 1) r) (f + 1)).
  - reflexivity.
  - intros x Hx. now rewrite upd_other by congruence.
  - apply upd_same.
  - lia.
Qed.

End CheckpointReads.

(** C3, as the code has it: with checkpointing outside the parallel tile
    phase, the start expression of a loop built by [get_for_column] or
    [get_for_row] is a conditional on the post-incremented loaded flag of
    the loop variable.  Its first read yields the restored value when the
    flag is zero (not yet loaded) and the natural start otherwise; the read
    increments the flag, so every later read yields the natural start. *)
Theorem checkpoint_start_reads (sizes : string -> option Z) (rb : string)
    (start end_ : Expr.Base) (mode : CYKmode) (r : Sem.env) (f v d : Z)
    (k : nat) :
  mode <> OPENMP_PARALLEL ->
  Sem.strip_postinc rb = None ->
  r (rb +++ "_loaded") = Some f ->
  0 <= f ->
  r rb = Some v ->
  (forall r', (forall x, x <> rb +++ "_loaded" -> r' x = r x) ->
              Sem.eval sizes start r' = Some (d, r')) ->
  let e := Expr.Cond (Expr.Vacc (rb +++ "_loaded++")) start (Expr.Vacc rb) in
  (l <- get_for_column rb start end_ true mode ;; loop_start l) = Some e /\
  (l <- get_for_row rb start end_ true mode ;; loop_start l) = Some e /\
  reads sizes e (S k) r = Some ((if f =? 0 then v else d) :: repeat d k).
Proof.
  intros Hm Hrb Hf Hf0 Hv Hpure e.
  destruct (loop_start_checkpoint rb start end_ true mode) as [Hc Hr].
  assert (Hmode : CYKmode_eqb mode OPENMP_PARALLEL = false)
    by (destruct mode; try reflexivity; congruence).
  rewrite Hmode in Hc, Hr. simpl in Hc, Hr.
  repeat split; [exact Hc | exact Hr |].
  apply (checkpoint_reads_all sizes rb start r f v d Hrb Hf Hv Hpure k Hf0).
Qed.

Lemma checkpoint_start_reads_witness :
  let r := Sem.upd "t_0_j_loaded" 0 (Sem.upd "t_0_j" 7 Sem.empty) in
  let e := Expr.Cond (Expr.Vacc "t_0_j_loaded++") (Expr.Const 0)
             (Expr.Vacc "t_0_j") in
  (l <- get_for_column "t_0_j" (Expr.Const 0) (seq_size Ex.t_0_seq) true
          SINGLETHREAD ;; loop_start l) = Some e /\
  (l <- get_for_row "t_0_j" (Expr.Const 0) (seq_size Ex.t_0_seq) true
          SINGLETHREAD ;; loop_start l) = Some e /\
  reads (Ex.sizes 9) e 3 r = Some [7; 0; 0].
Proof.
  apply (checkpoint_start_reads (Ex.sizes 9) "t_0_j" (Expr.Const 0)
           (seq_size Ex.t_0_seq) SINGLETHREAD
           (Sem.upd "t_0_j_loaded" 0 (Sem.upd "t_0_j" 7 Sem.empty))
           0 7 0 2).
  - discriminate.
  - reflexivity.
  - reflexivity.
  - lia.
  - reflexivity.
  - intros r' _. reflexivity.
Defined.

(** C3 as stated fails: with a restore pending (flag zero, restored column
    index 7, natural start 0) the first read of the start expression built
    by [get_for_column] yields the restored 7 and the later reads yield the
    natural start 0, not the other way round. *)
Lemma checkpoint_start_first_read_counterexample :
  let r := Sem.upd "t_0_j_loaded" 0 (Sem.upd "t_0_j" 7 Sem.empty) in
  exists e,
    (l <- get_for_column "t_0_j" (Expr.Const 0) (seq_size Ex.t_0_seq) true
            SINGLETHREAD ;; loop_start l) = Some e /\
    reads (Ex.sizes 9) e 3 r = Some [7; 0; 0] /\
    ~ (forall k, reads (Ex.sizes 9) e (S k) r = Some (0 :: repeat 7 k)).
Proof.
  eexists. split; [reflexivity|]. split; [reflexivity|].
  intros H. specialize (H 0%nat). vm_compute in H. discriminate.
Qed.

(** ** Placement of the nonterminal calls *)

Lemma nt_scan_track_live (nt : Symbol.NT) (lv : list string)
    (acc : nt_scan) (t : nat) :
  nt_scan_track nt lv acc t
  = (live <- live_of_track nt t ;;
     Some (mk_nt_scan (scan_args acc ++ map arg_of live)
             (used_indices acc + bound_count lv live)
             (nt_has_indices acc + List.length live))).
Proof.
  unfold nt_scan_track, live_of_track, bound_count.
  destruct (nth_error (Symbol.tables nt) t) as [tab|]; [|reflexivity].
  simpl.
  destruct (delete_left_index tab), (delete_right_index tab); simpl;
    repeat match goal with
    | |- context [nth_error ?l t] =>
        destruct (nth_error l t); simpl; try reflexivity
    end;
    repeat match goal with
    | |- context [in_loop_vars lv ?i] => destruct (in_loop_vars lv i); simpl
    end;
    destruct acc as [a u h]; simpl;
    rewrite <- ?app_assoc, ?app_nil_r; simpl;
    do 2 f_equal; lia.
Qed.

Lemma bound_count_app (lv : list string) (a b : list (bool * string)) :
  bound_count lv (a ++ b) = (bound_count lv a + bound_count lv b)%nat.
Proof. unfold bound_count. now rewrite filter_app, length_app. Qed.

Lemma nt_scan_tracks_live (nt : Symbol.NT) (lv : list string)
    (ts : list nat) :
  forall acc,
  nt_scan_tracks nt lv ts acc
  = (live <- live_of_tracks nt ts ;;
     Some (mk_nt_scan (scan_args acc ++ map arg_of live)
             (used_indices acc + bound_count lv live)
             (nt_has_indices acc + List.length live))).
Proof.
  induction ts as [|t ts IH]; intros acc; simpl.
  - destruct acc as [a u h]; simpl.
    unfold bound_count; simpl. rewrite app_nil_r.
    do 2 f_equal; lia.
  - rewrite nt_scan_track_live.
    destruct (live_of_track nt t) as [l1|]; [|reflexivity]. simpl.
    rewrite IH.
    destruct (live_of_tracks nt ts) as [l2|]; [|reflexivity]. simpl.
    rewrite map_app, bound_count_app, length_app, <- app_assoc.
    do 2 f_equal; lia.
Qed.

Lemma nt_scan_all_live (nt : Symbol.NT) (lv : list string) :
  nt_scan_all nt lv
  = (live <- live_indices nt ;;
     Some (mk_nt_scan (map arg_of live) (bound_count lv live)
             (List.length live))).
Proof.
  unfold nt_scan_all, live_indices. now rewrite nt_scan_tracks_live.
Qed.

Lemma bound_count_single (lv : list string) (b : bool) (idx : string) :
  bound_count lv [(b, idx)] = if in_loop_vars lv idx then 1%nat else 0%nat.
Proof.
  unfold bound_count. simpl. now destruct (in_loop_vars lv idx).
Qed.

(** C4, as the code has it.  Where [add_nt_calls] does not return early (the
    parallel mode at a level with a nested loop), a tabulated nonterminal
    gets a call iff the number of its non-eliminated indices bound by the
    loop-variable stack equals the size of the stack.  The call omits the
    eliminated indices, passes every left index decremented by one and
    every right index unchanged.  For a nonterminal with one live index
    this places a call at depth 0 (empty stack) and at depth 1 inside the
    loop of the live index, and none at depth 1 inside another loop or at
    depth 2 or deeper. *)
Theorem nt_call_placement (nt : Symbol.NT) (live : list (bool * string))
    (fname : string) (lv : list string) (nested : bool) (mode : CYKmode) :
  Symbol.is_tabulated nt = true ->
  live_indices nt = Some live ->
  hd_error (rev (Symbol.code_list nt)) = Some fname ->
  let call := Fn_Call NONE fname (map arg_of live) false in
  nt_call nt lv
    = Some (if Nat.eqb (bound_count lv live) (List.length lv)
            then [call] else []) /\
  add_nts nested lv [nt] false mode
    = Some (if CYKmode_eqb mode OPENMP_PARALLEL && nested then []
            else if Nat.eqb (bound_count lv live) (List.length lv)
                 then [call] else []) /\
  (forall b idx, live = [(b, idx)] ->
     nt_call nt [] = Some [call] /\
     nt_call nt [idx] = Some [call] /\
     (forall x, x <> idx -> nt_call nt [x] = Some []) /\
     (forall x y rest, nt_call nt (x :: y :: rest) = Some [])).
Proof.
  intros Htab Hlive Hname call.
  assert (Hcall : forall lv',
            nt_call nt lv'
            = Some (if Nat.eqb (bound_count lv' live) (List.length lv')
                    then [call] else [])).
  { intros lv'. unfold nt_call. rewrite Htab, nt_scan_all_live, Hlive.
    simpl. destruct (Nat.eqb (bound_count lv' live) (List.length lv'));
      [|reflexivity].
    destruct (Symbol.code_list nt) as [|c cs] eqn:Ec;
      [simpl in Hname; discriminate|].
    simpl List.length. simpl Nat.ltb. simpl assert. cbn [bind].
    rewrite Hname. reflexivity. }
  split; [apply Hcall|]. split.
  - unfold add_nts.
    destruct (CYKmode_eqb mode OPENMP_PARALLEL && nested); [reflexivity|].
    simpl. rewrite Hcall.
    destruct (Nat.eqb (bound_count lv live) (List.length lv)); reflexivity.
  - intros b idx ->. repeat split.
    + rewrite Hcall. reflexivity.
    + rewrite Hcall, bound_count_single. simpl.
      now rewrite String.eqb_refl.
    + intros x Hx. rewrite Hcall, bound_count_single. simpl.
      apply not_eq_sym in Hx. apply String.eqb_neq in Hx. now rewrite Hx.
    + intros x y rest. rewrite Hcall, bound_count_single.
      destruct (in_loop_vars (x :: y :: rest) idx); reflexivity.
Qed.

Lemma nt_call_placement_witness :
  let call := Fn_Call NONE "nt_tabulate_bar" [Expr.Vacc "t_0_j"] false in
  nt_call Ex.nt_bar ["t_0_j"] = Some [call] /\
  add_nts false ["t_0_j"] [Ex.nt_bar] false SINGLETHREAD = Some [call] /\
  (forall b idx, [(false, "t_0_j")] = [(b, idx)] ->
     nt_call Ex.nt_bar [] = Some [call] /\
     nt_call Ex.nt_bar [idx] = Some [call] /\
     (forall x, x <> idx -> nt_call Ex.nt_bar [x] = Some []) /\
     (forall x y rest, nt_call Ex.nt_bar (x :: y :: rest) = Some [])).
Proof.
  apply (nt_call_placement Ex.nt_bar [(false, "t_0_j")] "nt_tabulate_bar"
           ["t_0_j"] false SINGLETHREAD); reflexivity.
Defined.

(** C4 as stated fails: in the single-thread traversal of one track a
    nonterminal with its left index eliminated and its right index live is
    called at depth 1 (in the column loop) and also at depth 0, outside all
    loops.  In the parallel mode a level with a nested loop gets no call,
    also where the bound indices (none) are as many as the stack holds. *)
Lemma nt_call_depth_counterexample :
  exists prog,
    Ex.singlethread_program [Ex.nt_bar] SINGLETHREAD = Some prog /\
    flat_map (calls_at 0) prog = ["nt_tabulate_bar"] /\
    flat_map (calls_at 1) prog = ["nt_tabulate_bar"] /\
    flat_map (calls_at 2) prog = [] /\
    add_nt_calls [] [] [Ex.nt_bar] false SINGLETHREAD
      = Some ([], [Fn_Call NONE "nt_tabulate_bar" [Expr.Vacc "t_0_j"] false])
    /\
    add_nts true [] [Ex.nt_bar] false OPENMP_PARALLEL = Some [].
Proof.
  eexists. split; [vm_compute; reflexivity|].
  repeat split.
Qed.

(** ** Pruning of empty loops *)

Lemma prune_pass_length (l : list Statement.Base) :
  (List.length (fst (prune_pass l)) <= List.length l)%nat /\
  (snd (prune_pass l) = true ->
   (List.length (fst (prune_pass l)) < List.length l)%nat).
Proof.
  assert (H : forall n l, (List.length l <= n)%nat ->
            (List.length (fst (prune_pass l)) <= List.length l)%nat /\
            (snd (prune_pass l) = true ->
             (List.length (fst (prune_pass l)) < List.length l)%nat)).
  { intros n. induction n as [|n IH]; intros l' Hl.
    - destruct l'; simpl in *; [split; [lia | discriminate] | lia].
    - destruct l' as [|s rest]; [simpl; split; [lia | discriminate]|].
      simpl in Hl. simpl prune_pass.
      destruct (dead_loop s).
      + destruct rest as [|r rest']; [simpl; split; lia|].
        simpl in Hl.
        destruct (IH rest' ltac:(lia)) as [H1 H2].
        destruct (prune_pass rest') as [l1 w]; simpl in *.
        split; [lia | intros Hw; specialize (H2 Hw); lia].
      + destruct (IH rest ltac:(lia)) as [H1 H2].
        destruct (prune_pass rest) as [l1 w]; simpl in *.
        split; [lia | intros Hw; specialize (H2 Hw); lia]. }
  apply (H (List.length l)). lia.
Qed.

(** more restarts than [length l] change nothing *)
Lemma prune_loop_enough (fuel : nat) :
  forall l extra, (List.length l <= fuel)%nat ->
  prune_loop (fuel + extra) l = prune_loop fuel l.
Proof.
  induction fuel as [|fuel IH]; intros l extra Hl.
  - destruct l; [|simpl in Hl; lia]. destruct extra; reflexivity.
  - simpl. destruct (prune_pass_length l) as [H1 H2].
    destruct (prune_pass l) as [l' w]; simpl in *.
    destruct w; [|reflexivity].
    apply IH. specialize (H2 eq_refl). lia.
Qed.

(** C5 at failing inputs.  Two empty sibling loops: the first is erased,
    the second is skipped and survives (one scan, no restart).  The tiled traversal of a grammar
    with no nonterminal: the first loop over [z] is erased, the second one
    is skipped and survives around its pragma, so a loop is left.  The
    single-thread traversals, where a declaration separates any two loops,
    do collapse to no loop. *)
Theorem prune_skips_following_sibling :
  add_nt_calls [Ex.empty_loop "a"; Ex.empty_loop "b"] [] [] false
    SINGLETHREAD = Some ([Ex.empty_loop "b"], []) /\
  prune_pass [Ex.empty_loop "a"; Ex.empty_loop "b"]
    = ([Ex.empty_loop "b"], false) /\
  dead_loop (Ex.empty_loop "b") = true /\
  (exists z_loop,
     Ex.parallel_program [] = Some [z_loop] /\
     dead_loop z_loop = true /\
     count_loops z_loop = 1%nat) /\
  (exists prog,
     Ex.singlethread_program [] OPENMP_SERIAL = Some prog /\
     list_sum (map count_loops prog) = 0%nat).
Proof.
  split; [reflexivity|]. split; [reflexivity|]. split; [reflexivity|]. split.
  - eexists. split; [vm_compute; reflexivity|]. split; reflexivity.
  - eexists. split; [vm_compute; reflexivity|]. reflexivity.
Qed.

(** ** End states *)

(** both builders return a loop and an end state that name the same
    variable, the running boundary *)
Lemma CYKloop_names_agree (rb : string) (start end_ : Expr.Base)
    (cp : bool) (mode : CYKmode) :
  (exists l vd, get_for_column rb start end_ cp mode = Some l /\
                loop_var_decl (loop l) = Some vd /\
                name vd = rb /\ name (end_state l) = rb /\
                rhs (end_state l) = end_) /\
  (exists l vd, get_for_row rb start end_ cp mode = Some l /\
                loop_var_decl (loop l) = Some vd /\
                name vd = rb /\ name (end_state l) = rb /\
                rhs (end_state l) = Expr.Const 1).
Proof.
  split.
  - destruct (get_for_column_Some rb start end_ cp mode)
      as [vd [c [H Hn]]].
    eexists; exists vd. rewrite H. simpl. repeat split. exact Hn.
  - destruct (get_for_row_Some rb start end_ cp mode)
      as [vd [c [i [H Hn]]]].
    eexists; exists vd. rewrite H. simpl. repeat split. exact Hn.
Qed.

(** C8 at a failing input: the row loop of the parallel tile phase, built
    by [get_for_row] with start [x] and end [x - tile_size].  Run with
    [x = 8] and [tile_size = 4] it stops with the row index at 4, the value
    its condition rejects, while its end state, which names the same
    variable, declares the index as 1. *)
Theorem row_end_state_parallel :
  exists l st v r,
    get_for_row "t_0_i" (Expr.Vacc "x")
      (Expr.minus (Expr.Vacc "x") (Expr.Vacc "tile_size")) false
      OPENMP_PARALLEL = Some l /\
    option_map name (loop_var_decl (loop l)) = Some (name (end_state l)) /\
    Sem.exec (Ex.sizes 12) 6 (loop l)
      (Sem.mkState (Sem.upd "x" 8 (Sem.upd "tile_size" 4 Sem.empty)) [])
      = Some st /\
    Sem.vars st "t_0_i" = Some 4 /\
    Sem.eval (Ex.sizes 12) (rhs (end_state l)) (Sem.vars st) = Some (v, r) /\
    v = 1.
Proof.
  eexists; eexists; eexists; eexists.
  split; [vm_compute; reflexivity|].
  split; [reflexivity|].
  split; [vm_compute; reflexivity|].
  split; [reflexivity|].
  split; reflexivity.
Qed.

(** ** The single-thread version holds no call *)

Lemma Statement_ind_nested (P : Statement.Base -> Prop) :
  (forall d, P (SVar_Decl d)) ->
  (forall a, P (SVar_Assign a)) ->
  (forall vd c i body, Forall P body -> P (For vd c i body)) ->
  (forall b n args o, P (Fn_Call b n args o)) ->
  (forall line, P (CustomCode line)) ->
  (forall body, Forall P body -> P (Block body)) ->
  forall s, P s.
Proof.
  intros Hd Ha Hf Hc Hl Hb.
  fix IH 1. intros s.
  destruct s as [d|a|vd c i body|b n args o|line|body].
  - apply Hd.
  - apply Ha.
  - apply Hf. induction body as [|x body IHb]; constructor;
      [apply IH | exact IHb].
  - apply Hc.
  - apply Hl.
  - apply Hb. induction body as [|x body IHb]; constructor;
      [apply IH | exact IHb].
Qed.

Lemma loops_and_decls_no_call (s : Statement.Base) :
  loops_and_decls s = true -> has_fn_call s = false.
Proof.
  induction s as [d|a|vd c i body IH|b n args o|line|body IH]
    using Statement_ind_nested; simpl; try discriminate; try reflexivity.
  induction body as [|x body IHb]; simpl; [reflexivity|].
  inversion IH as [|? ? Hx Hbody]; subst.
  intros H. apply andb_true_iff in H. destruct H as [H1 H2].
  rewrite (Hx H1). simpl. apply IHb; assumption.
Qed.

Lemma all_loops_and_decls_no_call (l : list Statement.Base) :
  forallb loops_and_decls l = true -> existsb has_fn_call l = false.
Proof.
  induction l as [|x l IH]; simpl; [reflexivity|].
  intros H. apply andb_true_iff in H. destruct H as [H1 H2].
  now rewrite (loops_and_decls_no_call x H1), (IH H2).
Qed.

Lemma singletrack_loops_and_decls (track : nat) (ast : AST)
    (seq : Var_Decl) (nested : list Statement.Base) (cp : bool)
    (mode : CYKmode) (st : list Statement.Base) :
  forallb loops_and_decls nested = true ->
  cyk_traversal_singlethread_singletrack track ast seq nested cp mode
    = Some st ->
  forallb loops_and_decls st = true.
Proof.
  intros Hn H. unfold cyk_traversal_singlethread_singletrack in H.
  inv_bind H. rename x into rri. inv_bind H. rename x into lri.
  destruct (get_for_row_Some lri (Expr.plus (Expr.Vacc rri) (Expr.Const 1))
              (Expr.Const 1) cp mode) as [vd [c [i [Hr _]]]].
  rewrite Hr in H. cbn [bind] in H.
  destruct (get_for_column_Some rri
              (if CYKmode_eqb mode OPENMP_SERIAL
               then Expr.Vacc "max_tiles_n" else Expr.Const 0)
              (seq_size seq) cp mode) as [vd' [c' [Hc _]]].
  rewrite Hc in H. cbn [bind] in H.
  injection H as <-. unfold copy_statements. simpl.
  rewrite ?forallb_app. simpl. rewrite !Hn. reflexivity.
Qed.

Lemma singletrack_outside_loops_and_decls (track : nat) (ast : AST)
    (seq : Var_Decl) (nested : list Statement.Base) (cp : bool)
    (mode : CYKmode) (st : list Statement.Base) :
  forallb loops_and_decls nested = true ->
  cyk_traversal_singlethread_singletrack_outside track ast seq nested cp
    mode = Some st ->
  forallb loops_and_decls st = true.
Proof.
  intros Hn H. unfold cyk_traversal_singlethread_singletrack_outside in H.
  inv_bind H. rename x into rri. inv_bind H. rename x into lri.
  destruct (get_for_column_Some rri
              (Expr.minus (seq_size seq) (Expr.Vacc lri))
              (Expr.plus (seq_size seq) (Expr.Const 1)) cp mode)
    as [vd' [c' [Hc _]]].
  rewrite Hc in H. cbn [bind] in H.
  destruct (get_for_row_Some lri (Expr.Const 0)
              (Expr.plus (seq_size seq) (Expr.Const 1)) cp mode)
    as [vd [c [i [Hr _]]]].
  rewrite Hr in H. cbn [bind] in H.
  injection H as <-. unfold copy_statements. simpl.
  rewrite Hn. reflexivity.
Qed.

Lemma cyk_traversal_tracks_loops_and_decls (ast : AST) (mode : CYKmode)
    (k : nat) :
  forall stmts st,
  forallb loops_and_decls stmts = true ->
  cyk_traversal_tracks ast mode k stmts = Some st ->
  forallb loops_and_decls st = true.
Proof.
  induction k as [|track IH]; intros stmts st Hs H; simpl in H.
  - now injection H as <-.
  - inv_bind H. inv_bind H. apply (IH x0 st); [|exact H].
    destruct (CYKmode_eqb mode SINGLETHREAD_OUTSIDE).
    + eapply singletrack_outside_loops_and_decls; eassumption.
    + eapply singletrack_loops_and_decls; eassumption.
Qed.

Lemma cyk_traversal_singlethread_loops_and_decls (ast : AST)
    (mode : CYKmode) (st : list Statement.Base) :
  cyk_traversal_singlethread ast mode = Some st ->
  forallb loops_and_decls st = true.
Proof.
  unfold cyk_traversal_singlethread. intros H. inv_bind H.
  eapply cyk_traversal_tracks_loops_and_decls; [|exact H]. reflexivity.
Qed.

Lemma loaded_decls_loops_and_decls (ast : AST) (ts : list nat) :
  forall d, loaded_decls ast ts = Some d ->
  forallb loops_and_decls d = true.
Proof.
  induction ts as [|t ts IH]; intros d H; simpl in H.
  - now injection H as <-.
  - inv_bind H. inv_bind H. inv_bind H. injection H as <-.
    simpl. now apply IH.
Qed.

Lemma skip_to_loops_and_decls (line : string)
    (pre rest : list Statement.Base) :
  forallb loops_and_decls pre = true ->
  skip_to line (pre ++ CustomCode line :: rest) = rest.
Proof.
  induction pre as [|x pre IH]; simpl.
  - now rewrite String.eqb_refl.
  - intros H. apply andb_true_iff in H. destruct H as [H1 H2].
    destruct x; simpl in H1; try discriminate; now apply IH.
Qed.

Lemma take_to_loops_and_decls (line : string)
    (pre rest : list Statement.Base) :
  forallb loops_and_decls pre = true ->
  take_to line (pre ++ CustomCode line :: rest) = pre.
Proof.
  induction pre as [|x pre IH]; simpl.
  - now rewrite String.eqb_refl.
  - intros H. apply andb_true_iff in H. destruct H as [H1 H2].
    destruct x; simpl in H1; try discriminate; now rewrite IH.
Qed.

(** C1 fails on the single-thread version.  Whatever the grammar, the
    statements [print_CYK] puts between [#ifndef _OPENMP] and [#else] are
    the bare single-thread traversal (inside or outside mode): the placement
    of the nonterminal calls is not applied to it, so it holds no call at
    any depth, also when the grammar has tabulated nonterminals. *)
Theorem print_CYK_singlethread_no_calls (ast : AST) (fn : Fn_Def) :
  cyk ast = true ->
  print_CYK ast = Some fn ->
  cyk_traversal_singlethread ast
    (if outside_generation ast then SINGLETHREAD_OUTSIDE else SINGLETHREAD)
    = Some (between "#ifndef _OPENMP" "#else" (stmts fn)) /\
  existsb has_fn_call (between "#ifndef _OPENMP" "#else" (stmts fn)) = false.
Proof.
  intros Hc H. unfold print_CYK in H. rewrite Hc in H. simpl in H.
  inv_bind H. rename x into decls.
  inv_bind H. rename x into st.
  inv_bind H. rename x into omp.
  injection H as <-. simpl stmts.
  assert (Hd : forallb loops_and_decls decls = true).
  { destruct (checkpoint_cyk ast).
    - eapply loaded_decls_loops_and_decls; eassumption.
    - now injection E as <-. }
  assert (Hs : forallb loops_and_decls st = true)
    by (eapply cyk_traversal_singlethread_loops_and_decls; eassumption).
  unfold between. simpl.
  rewrite (skip_to_loops_and_decls "#ifndef _OPENMP" decls _ Hd).
  rewrite (take_to_loops_and_decls "#else" st _ Hs).
  split; [exact E0 | now apply all_loops_and_decls_no_call].
Qed.

Lemma print_CYK_singlethread_no_calls_witness :
  exists fn,
    print_CYK (Ex.ast1 [Ex.nt_foo] false) = Some fn /\
    Symbol.is_tabulated Ex.nt_foo = true /\
    existsb has_fn_call (skip_to "#else" (stmts fn)) = true /\
    cyk_traversal_singlethread (Ex.ast1 [Ex.nt_foo] false) SINGLETHREAD
      = Some (between "#ifndef _OPENMP" "#else" (stmts fn)) /\
    existsb has_fn_call (between "#ifndef _OPENMP" "#else" (stmts fn))
      = false.
Proof.
  eexists. split; [vm_compute; reflexivity|].
  split; [reflexivity|]. split; [reflexivity|].
  apply (print_CYK_singlethread_no_calls (Ex.ast1 [Ex.nt_foo] false));
    reflexivity.
Defined.

(** ** The single-thread traversal visits every cell once *)

Lemma foo_program_eq :
  Ex.singlethread_program [Ex.nt_foo] SINGLETHREAD = Some Ex.foo_program.
Proof. vm_compute. reflexivity. Qed.

Lemma exec_For (sizes : string -> option Z) (f : nat) (vd : Var_Decl)
    (c : Expr.Base) (i : option Var_Assign) (body : list Statement.Base)
    (st : Sem.State) :
  Sem.exec sizes (S f) (For vd c i body) st
  = (st1 <- Sem.exec_decl sizes vd st ;; Sem.while sizes f vd c i body st1).
Proof. reflexivity. Qed.

Lemma while_S (sizes : string -> option Z) (f : nat) (vd : Var_Decl)
    (c : Expr.Base) (i : option Var_Assign) (body : list Statement.Base)
    (st : Sem.State) :
  Sem.while sizes (S f) vd c i body st
  = ('(v, r) <- Sem.eval sizes c (Sem.vars st) ;;
     if v =? 0 then Some (Sem.mkState r (Sem.calls st))
     else
       st1 <- Sem.run_list (Sem.exec sizes f) body
                (Sem.mkState r (Sem.calls st)) ;;
       st2 <- Sem.exec_inc sizes vd i st1 ;;
       Sem.while sizes f vd c i body st2).
Proof. reflexivity. Qed.

Section Cells.

Variable n : nat.

Let sizes : string -> option Z := Ex.sizes (Z.of_nat n).

Lemma foo_call_exec (f : nat) (st : Sem.State) (i j : Z) :
  Sem.vars st "t_0_i" = Some i ->
  Sem.vars st "t_0_j" = Some j ->
  Sem.exec sizes (S f) Ex.foo_call st
  = Some (Sem.mkState (Sem.vars st)
            (Sem.calls st ++ [Ex.cell_call (i - 1, j)])).
Proof.
  intros Hi Hj. unfold Ex.foo_call. simpl. rewrite Hi. simpl.
  rewrite Hj. reflexivity.
Qed.

Lemma row_cond_eval (r : Sem.env) (i : Z) :
  r "t_0_i" = Some i ->
  Sem.eval sizes Ex.row_cond r = Some (Sem.of_bool (i >? 1), r).
Proof. intros Hi. unfold Ex.row_cond. simpl. rewrite Hi. reflexivity. Qed.

Lemma row_inc_exec (st : Sem.State) (i : Z) :
  Sem.vars st "t_0_i" = Some i ->
  Sem.exec_inc sizes Ex.row_decl Ex.row_inc st
  = Some (Sem.mkState (Sem.upd "t_0_i" (i + -1) (Sem.vars st))
            (Sem.calls st)).
Proof.
  intros Hi. unfold Ex.row_inc, Sem.exec_inc, Sem.exec_assign. simpl.
  rewrite Hi. reflexivity.
Qed.

Lemma column_rows_S (k : nat) (j : Z) :
  column_rows (S k) j = (Z.of_nat (S k), j) :: column_rows k j.
Proof.
  unfold column_rows. rewrite seq_S, rev_app_distr. reflexivity.
Qed.

Lemma row_while (k : nat) :
  forall (fuel : nat) (st : Sem.State) (j : Z),
  (k < fuel)%nat ->
  Sem.vars st "t_0_i" = Some (Z.of_nat k + 1) ->
  Sem.vars st "t_0_j" = Some j ->
  exists st',
    Sem.while sizes fuel Ex.row_decl Ex.row_cond Ex.row_inc [Ex.foo_call] st
      = Some st' /\
    Sem.calls st' = Sem.calls st ++ map Ex.cell_call (column_rows k j) /\
    Sem.vars st' "t_0_i" = Some 1 /\
    Sem.vars st' "t_0_j" = Some j.
Proof.
  induction k as [|k IH]; intros fuel st j Hfuel Hi Hj.
  - destruct fuel as [|f]; [lia|].
    rewrite while_S, (row_cond_eval _ _ Hi). cbn [bind].
    eexists. split; [reflexivity|]. cbn [Sem.vars Sem.calls].
    unfold column_rows. simpl. rewrite app_nil_r. auto.
  - destruct fuel as [|f]; [lia|]. destruct f as [|f]; [lia|].
    rewrite while_S, (row_cond_eval _ _ Hi). cbn [bind].
    replace (Z.of_nat (S k) + 1 >? 1) with true
      by (symmetry; apply Z.gtb_lt; lia).
    cbn [Sem.of_bool Z.eqb Sem.run_list].
    rewrite (foo_call_exec f _ (Z.of_nat (S k) + 1) j) by assumption.
    cbn [bind Sem.vars].
    rewrite (row_inc_exec _ (Z.of_nat (S k) + 1)) by assumption.
    cbn [bind Sem.vars Sem.calls].
    destruct (IH (S f)
                (Sem.mkState
                   (Sem.upd "t_0_i" (Z.of_nat (S k) + 1 + -1) (Sem.vars st))
                   (Sem.calls st
                    ++ [Ex.cell_call (Z.of_nat (S k) + 1 - 1, j)])) j)
      as [st' [Hw [Hc [Hi' Hj']]]].
    + lia.
    + cbn [Sem.vars]. rewrite upd_same. f_equal. lia.
    + cbn [Sem.vars]. rewrite upd_other by discriminate. exact Hj.
    + exists st'. split; [exact Hw|]. rewrite Hc. cbn [Sem.calls].
      rewrite column_rows_S, <- app_assoc. cbn [map app].
      replace (Z.of_nat (S k) + 1 - 1) with (Z.of_nat (S k)) by lia.
      auto.
Qed.

Lemma row_loop_exec (k fuel : nat) (st : Sem.State) :
  (k + 1 < fuel)%nat ->
  Sem.vars st "t_0_j" = Some (Z.of_nat k) ->
  exists st',
    Sem.exec sizes fuel Ex.row_loop st = Some st' /\
    Sem.calls st'
      = Sem.calls st ++ map Ex.cell_call (column_rows k (Z.of_nat k)) /\
    Sem.vars st' "t_0_i" = Some 1 /\
    Sem.vars st' "t_0_j" = Some (Z.of_nat k).
Proof.
  intros Hfuel Hj. destruct fuel as [|f]; [lia|].
  unfold Ex.row_loop. rewrite exec_For.
  unfold Sem.exec_decl, Ex.row_decl. simpl Sem.eval. rewrite Hj.
  cbn [bind name].
  destruct (row_while k f
              (Sem.mkState (Sem.upd "t_0_i" (Z.of_nat k + 1) (Sem.vars st))
                 (Sem.calls st)) (Z.of_nat k))
    as [st' [Hw H]].
  - lia.
  - cbn [Sem.vars]. apply upd_same.
  - cbn [Sem.vars]. rewrite upd_other by discriminate. exact Hj.
  - exists st'. split; [exact Hw | exact H].
Qed.

Lemma row_end_exec (f : nat) (st : Sem.State) :
  Sem.exec sizes (S f) Ex.row_end st
  = Some (Sem.mkState (Sem.upd "t_0_i" 1 (Sem.vars st)) (Sem.calls st)).
Proof. reflexivity. Qed.

Lemma col_body_exec (j f : nat) (st : Sem.State) :
  (j + 1 < f)%nat ->
  Sem.vars st "t_0_j" = Some (Z.of_nat j) ->
  exists st',
    Sem.run_list (Sem.exec sizes f) Ex.col_body st = Some st' /\
    Sem.calls st'
      = Sem.calls st ++ map Ex.cell_call (quadrant_A j ++ quadrant_B j) /\
    Sem.vars st' "t_0_j" = Some (Z.of_nat j).
Proof.
  intros Hf Hj. unfold Ex.col_body. cbn [Sem.run_list].
  destruct (row_loop_exec j f st Hf Hj) as [st1 [He [Hc [Hi1 Hj1]]]].
  rewrite He. cbn [bind].
  destruct f as [|f]; [lia|].
  rewrite row_end_exec. cbn [bind].
  rewrite (foo_call_exec f _ 1 (Z.of_nat j)).
  - cbn [bind]. eexists. split; [reflexivity|].
    cbn [Sem.calls Sem.vars]. rewrite Hc, map_app, <- app_assoc.
    rewrite upd_other by discriminate. split; [reflexivity | exact Hj1].
  - cbn [Sem.vars]. apply upd_same.
  - cbn [Sem.vars]. rewrite upd_other by discriminate. exact Hj1.
Qed.

Lemma col_cond_eval (r : Sem.env) (j : Z) :
  r "t_0_j" = Some j ->
  Sem.eval sizes Ex.col_cond r
  = Some (Sem.of_bool (j <? Z.of_nat n), r).
Proof. intros Hj. unfold Ex.col_cond. simpl. rewrite Hj. reflexivity. Qed.

Lemma col_while (m : nat) :
  forall (fuel : nat) (st : Sem.State) (j : nat),
  (j + m = n)%nat ->
  (n + m + 1 < fuel)%nat ->
  Sem.vars st "t_0_j" = Some (Z.of_nat j) ->
  exists st',
    Sem.while sizes fuel Ex.col_decl Ex.col_cond None Ex.col_body st
      = Some st' /\
    Sem.calls st'
      = Sem.calls st
        ++ map Ex.cell_call
             (flat_map (fun j => quadrant_A j ++ quadrant_B j) (seq j m)) /\
    Sem.vars st' "t_0_j" = Some (Z.of_nat n).
Proof.
  induction m as [|m IH]; intros fuel st j Hjm Hfuel Hj.
  - destruct fuel as [|f]; [lia|].
    rewrite while_S, (col_cond_eval _ _ Hj). cbn [bind].
    replace (Z.of_nat j <? Z.of_nat n) with false
      by (symmetry; apply Z.ltb_ge; lia).
    cbn [Sem.of_bool Z.eqb]. eexists. split; [reflexivity|].
    cbn [Sem.calls Sem.vars seq flat_map map]. rewrite app_nil_r.
    split; [reflexivity|]. rewrite Hj. f_equal. lia.
  - destruct fuel as [|f]; [lia|].
    rewrite while_S, (col_cond_eval _ _ Hj). cbn [bind].
    replace (Z.of_nat j <? Z.of_nat n) with true
      by (symmetry; apply Z.ltb_lt; lia).
    cbn [Sem.of_bool Z.eqb].
    destruct (col_body_exec j f (Sem.mkState (Sem.vars st) (Sem.calls st)))
      as [st1 [Hb [Hc1 Hj1]]]; [lia | exact Hj |].
    rewrite Hb. cbn [bind]. unfold Sem.exec_inc, Ex.col_decl.
    cbn [name]. rewrite Hj1. cbn [bind].
    destruct (IH f
                (Sem.mkState
                   (Sem.upd "t_0_j" (Z.of_nat j + 1) (Sem.vars st1))
                   (Sem.calls st1)) (S j))
      as [st' [Hw [Hc Hj']]].
    + lia.
    + lia.
    + cbn [Sem.vars]. rewrite upd_same. f_equal. lia.
    + exists st'. split; [exact Hw|]. split; [|exact Hj'].
      rewrite Hc. cbn [Sem.calls]. rewrite Hc1. cbn [Sem.calls].
      cbn [seq flat_map]. rewrite !map_app, <- !app_assoc. reflexivity.
Qed.

Lemma foo_program_exec :
  exists st,
    Sem.exec_list sizes (2 * n + 4) Ex.foo_program Ex.start = Some st /\
    Sem.calls st = map Ex.cell_call (visited n).
Proof.
  unfold Sem.exec_list, Ex.foo_program. cbn [Sem.run_list].
  replace (2 * n + 4)%nat with (S (2 * n + 3)) by lia.
  rewrite exec_For. unfold Sem.exec_decl at 1. cbn [Ex.col_decl rhs name].
  cbn [Sem.eval bind].
  destruct (col_while n (2 * n + 3)
              (Sem.mkState (Sem.upd "t_0_j" 0 (Sem.vars Ex.start))
                 (Sem.calls Ex.start)) 0)
    as [st1 [Hw [Hc1 Hj1]]]; [lia | lia | apply upd_same |].
  rewrite Hw. cbn [bind].
  assert (Hend : Sem.exec sizes (S (2 * n + 3)) Ex.col_end st1
                 = Some (Sem.mkState
                           (Sem.upd "t_0_j" (Z.of_nat n) (Sem.vars st1))
                           (Sem.calls st1))) by reflexivity.
  rewrite Hend. cbn [bind].
  destruct (row_loop_exec n (S (2 * n + 3))
              (Sem.mkState (Sem.upd "t_0_j" (Z.of_nat n) (Sem.vars st1))
                 (Sem.calls st1)))
    as [st2 [Hr [Hc2 [Hi2 Hj2]]]]; [lia | apply upd_same |].
  rewrite Hr. cbn [bind]. rewrite row_end_exec. cbn [bind].
  rewrite (foo_call_exec (2 * n + 3) _ 1 (Z.of_nat n)).
  - cbn [bind]. eexists. split; [reflexivity|].
    cbn [Sem.calls]. rewrite Hc2. cbn [Sem.calls]. rewrite Hc1.
    unfold visited, quadrant_C, quadrant_D, Ex.start. cbn [Sem.calls].
    rewrite !map_app. cbn [app map]. rewrite <- !app_assoc. reflexivity.
  - cbn [Sem.vars]. apply upd_same.
  - cbn [Sem.vars]. rewrite upd_other by discriminate. exact Hj2.
Qed.

End Cells.

Lemma NoDup_map_injective {A B : Type} (f : A -> B) (l : list A) :
  (forall x y, f x = f y -> x = y) -> NoDup l -> NoDup (map f l).
Proof.
  intros Hinj H. induction H as [|x l Hx _ IH]; simpl; constructor;
    [|exact IH].
  intros Hin. apply in_map_iff in Hin. destruct Hin as [y [Hy Hin]].
  apply Hinj in Hy. subst. contradiction.
Qed.

Lemma NoDup_flat_map {A B : Type} (f : A -> list B) (l : list A) :
  NoDup l ->
  (forall x, In x l -> NoDup (f x)) ->
  (forall x y b, In x l -> In y l -> In b (f x) -> In b (f y) -> x = y) ->
  NoDup (flat_map f l).
Proof.
  intros H. induction H as [|x l Hx _ IH]; intros Hf Hd; simpl;
    [constructor|].
  apply NoDup_app.
  - apply Hf. now left.
  - apply IH.
    + intros y Hy. apply Hf. now right.
    + intros y z b Hy Hz. apply Hd; now right.
  - intros b Hb Hin. apply in_flat_map in Hin. destruct Hin as [y [Hy Hby]].
    assert (x = y) by (apply (Hd x y b); auto; [now left | now right]).
    subst. contradiction.
Qed.

Lemma in_column (j : nat) (i j' : Z) :
  In (i, j') (quadrant_A j ++ quadrant_B j) <->
  j' = Z.of_nat j /\ 0 <= i <= Z.of_nat j.
Proof.
  unfold quadrant_A, quadrant_B, column_rows. rewrite in_app_iff, in_map_iff.
  split.
  - intros [[x [Hx Hin]] | [H | []]].
    + apply in_rev, in_seq in Hin. injection Hx as <- <-. lia.
    + injection H as <- <-. lia.
  - intros [-> Hi].
    destruct (Z.eq_dec i 0) as [-> | Hne]; [right; now left|].
    left. exists (Z.to_nat i). split.
    + f_equal. lia.
    + apply in_rev. rewrite rev_involutive. apply in_seq. lia.
Qed.

Lemma NoDup_column (j : nat) : NoDup (quadrant_A j ++ quadrant_B j).
Proof.
  apply NoDup_app.
  - unfold quadrant_A, column_rows. apply NoDup_map_injective.
    + intros x y H. injection H as H. lia.
    + apply NoDup_rev, seq_NoDup.
  - unfold quadrant_B. constructor; [intros [] | constructor].
  - intros [i j'] Ha [Hb | []]. injection Hb as <- <-.
    unfold quadrant_A, column_rows in Ha. apply in_map_iff in Ha.
    destruct Ha as [x [Hx Hin]]. apply in_rev, in_seq in Hin.
    injection Hx as Hx. lia.
Qed.

Lemma visited_columns (n : nat) :
  visited n
  = flat_map (fun j => quadrant_A j ++ quadrant_B j) (seq 0 (S n)).
Proof.
  unfold visited, quadrant_C, quadrant_D.
  rewrite seq_S, flat_map_app. simpl. now rewrite app_nil_r.
Qed.

Lemma visited_cells (n : nat) :
  NoDup (visited n) /\
  (forall i j, In (i, j) (visited n) <-> 0 <= i <= j /\ j <= Z.of_nat n).
Proof.
  rewrite visited_columns. split.
  - apply NoDup_flat_map.
    + apply seq_NoDup.
    + intros j _. apply NoDup_column.
    + intros x y [i j] _ _ Hx Hy.
      apply in_column in Hx. apply in_column in Hy. lia.
  - intros i j. rewrite in_flat_map. split.
    + intros [c [Hc Hin]]. apply in_seq in Hc. apply in_column in Hin. lia.
    + intros H. exists (Z.to_nat j). split.
      * apply in_seq. lia.
      * apply in_column. lia.
Qed.

(** C2: for every sequence length [n] the single-thread traversal of one
    track, with the calls of a nonterminal with both indices in place, runs
    to its end and calls the nonterminal on the cells of quadrant A and B
    column by column, then on those of C and of D; these are the pairs
    [(i, j)] with [0 <= i <= j] and [j <= n], each exactly once. *)
Theorem singlethread_visits_each_cell_once (n : nat) :
  exists prog fuel st,
    Ex.singlethread_program [Ex.nt_foo] SINGLETHREAD = Some prog /\
    Sem.exec_list (Ex.sizes (Z.of_nat n)) fuel prog Ex.start = Some st /\
    Sem.calls st
      = map (fun c => ("nt_tabulate_foo", [fst c; snd c])) (visited n) /\
    visited n
      = flat_map (fun j => quadrant_A j ++ quadrant_B j) (seq 0 n)
        ++ quadrant_C n ++ quadrant_D n /\
    NoDup (visited n) /\
    (forall i j, In (i, j) (visited n) <-> 0 <= i <= j /\ j <= Z.of_nat n).
Proof.
  destruct (foo_program_exec n) as [st [He Hc]].
  exists Ex.foo_program, (2 * n + 4)%nat, st.
  split; [exact foo_program_eq|]. split; [exact He|].
  split; [exact Hc|]. split; [reflexivity|]. apply visited_cells.
Qed.

(** ** More on the pruning loop *)

Lemma prune_pass_live (l : list Statement.Base) :
  filter (fun s => negb (dead_loop s)) (fst (prune_pass l))
  = filter (fun s => negb (dead_loop s)) l /\
  incl (fst (prune_pass l)) l.
Proof.
  assert (H : forall n l, (List.length l <= n)%nat ->
            filter (fun s => negb (dead_loop s)) (fst (prune_pass l))
            = filter (fun s => negb (dead_loop s)) l /\
            incl (fst (prune_pass l)) l).
  { intros n. induction n as [|n IH]; intros l' Hl.
    - destruct l'; simpl in *; [split; [reflexivity | apply incl_refl] | lia].
    - destruct l' as [|s rest]; [split; [reflexivity | apply incl_refl]|].
      simpl in Hl. simpl prune_pass.
      destruct (dead_loop s) eqn:Es.
      + destruct rest as [|r rest'].
        * simpl. rewrite Es. simpl. split; [reflexivity|].
          intros x [].
        * simpl in Hl. destruct (IH rest' ltac:(lia)) as [H1 H2].
          destruct (prune_pass rest') as [l1 w]. simpl in *.
          rewrite Es. simpl. rewrite H1. split; [reflexivity|].
          intros x [Hx | Hx]; [right; now left | right; right; now apply H2].
      + destruct (IH rest ltac:(lia)) as [H1 H2].
        destruct (prune_pass rest) as [l1 w]. simpl in *.
        rewrite Es. simpl. rewrite H1. split; [reflexivity|].
        intros x [Hx | Hx]; [now left | right; now apply H2]. }
  apply (H (List.length l)). lia.
Qed.

Lemma prune_pass_subsequence (l : list Statement.Base) :
  subsequence (fst (prune_pass l)) l.
Proof.
  assert (H : forall n l, (List.length l <= n)%nat ->
            subsequence (fst (prune_pass l)) l).
  { intros n. induction n as [|n IH]; intros l' Hl.
    - destruct l'; simpl in *; [constructor | lia].
    - destruct l' as [|s rest]; [constructor|].
      simpl in Hl. simpl prune_pass.
      destruct (dead_loop s).
      + destruct rest as [|r rest']; [repeat constructor|].
        simpl in Hl. specialize (IH rest' ltac:(lia)).
        destruct (prune_pass rest') as [l1 w]. simpl in *.
        now repeat constructor.
      + specialize (IH rest ltac:(lia)).
        destruct (prune_pass rest) as [l1 w]. simpl in *.
        now constructor. }
  apply (H (List.length l)). lia.
Qed.

Lemma prune_scan_prune (l l' : list Statement.Base) :
  prune_scan l = Some l' -> prune l = l' /\ prune_pass l = (l', false).
Proof.
  unfold prune_scan, prune. intros H.
  destruct (prune_pass l) as [l1 w] eqn:E. destruct w; [discriminate|].
  injection H as <-. split; [|reflexivity].
  destruct l as [|s rest].
  - simpl in E. injection E as <-. reflexivity.
  - cbn [List.length prune_loop]. rewrite E. reflexivity.
Qed.

(** X1: Where the scan of the pruning loop does not erase the last statement
    of its list (the step after which the loop increments the end
    iterator), pruning leaves a subsequence of the list: nothing is added,
    repeated or reordered; and the statements that are not empty loops are
    all kept. *)
Theorem prune_keeps_live (l l' : list Statement.Base) :
  prune_scan l = Some l' ->
  prune l = l' /\
  subsequence l' l /\
  filter (fun s => negb (dead_loop s)) l'
  = filter (fun s => negb (dead_loop s)) l.
Proof.
  intros H. destruct (prune_scan_prune l l' H) as [Hp He].
  split; [exact Hp|]. split.
  - pose proof (prune_pass_subsequence l) as Hs. rewrite He in Hs.
    exact Hs.
  - destruct (prune_pass_live l) as [Hl _]. rewrite He in Hl. exact Hl.
Qed.

Lemma prune_keeps_live_witness :
  prune_scan [Ex.empty_loop "a"; Ex.empty_loop "b"; Ex.row_end]
    = Some [Ex.empty_loop "b"; Ex.row_end] /\
  prune [Ex.empty_loop "a"; Ex.empty_loop "b"; Ex.row_end]
    = [Ex.empty_loop "b"; Ex.row_end] /\
  subsequence [Ex.empty_loop "b"; Ex.row_end]
    [Ex.empty_loop "a"; Ex.empty_loop "b"; Ex.row_end].
Proof.
  split; [reflexivity|].
  destruct (prune_keeps_live
              [Ex.empty_loop "a"; Ex.empty_loop "b"; Ex.row_end]
              [Ex.empty_loop "b"; Ex.row_end] eq_refl) as [Hp [Hs _]].
  split; [exact Hp | exact Hs].
Defined.

Lemma prune_pass_separated (l : list Statement.Base) :
  separated l = true ->
  prune_pass l = (filter (fun s => negb (dead_loop s)) l, false).
Proof.
  assert (H : forall n l, (List.length l <= n)%nat -> separated l = true ->
            prune_pass l = (filter (fun s => negb (dead_loop s)) l, false)).
  { intros n. induction n as [|n IH]; intros l' Hl Hs.
    - destruct l'; simpl in *; [reflexivity | lia].
    - destruct l' as [|s rest]; [reflexivity|].
      simpl in Hl. simpl in Hs. apply andb_true_iff in Hs.
      destruct Hs as [Hs1 Hs2]. simpl prune_pass. simpl filter.
      destruct (dead_loop s) eqn:Es; simpl in Hs1 |- *.
      + destruct rest as [|r rest']; [discriminate|].
        simpl in Hl. simpl in Hs2. apply andb_true_iff in Hs2.
        destruct Hs2 as [_ Hs3].
        rewrite (IH rest' ltac:(lia) Hs3). simpl. rewrite Hs1. reflexivity.
      + rewrite (IH rest ltac:(lia) Hs2). reflexivity. }
  apply (H (List.length l)). lia.
Qed.

(** X2: Where every empty loop is followed by a statement that is not an empty
    loop, the pruning loop removes all empty loops and nothing else. *)
Theorem prune_separated (l : list Statement.Base) :
  separated l = true ->
  prune l = filter (fun s => negb (dead_loop s)) l.
Proof.
  intros Hs. unfold prune.
  destruct l as [|s rest] eqn:El; [reflexivity|].
  rewrite <- El in *. assert (Hlen : List.length l = S (List.length rest))
    by (rewrite El; reflexivity).
  rewrite Hlen. simpl prune_loop. rewrite (prune_pass_separated l Hs).
  reflexivity.
Qed.

Lemma prune_separated_witness :
  separated [Ex.empty_loop "a"; Ex.row_end; Ex.empty_loop "b"; Ex.row_end]
    = true /\
  prune [Ex.empty_loop "a"; Ex.row_end; Ex.empty_loop "b"; Ex.row_end]
  = filter (fun s => negb (dead_loop s))
      [Ex.empty_loop "a"; Ex.row_end; Ex.empty_loop "b"; Ex.row_end].
Proof.
  split; [reflexivity | apply prune_separated; reflexivity].
Defined.

(** ** Nonterminals that are not called *)

Lemma nt_calls_untabulated (nts : list Symbol.NT) (lv : list string) :
  Forall (fun nt => Symbol.is_tabulated nt = false) nts ->
  nt_calls nts lv = Some [].
Proof.
  induction 1 as [|nt nts Hnt _ IH]; simpl; [reflexivity|].
  unfold nt_call. rewrite Hnt. simpl. rewrite IH. reflexivity.
Qed.

(** X3: On a tabulated nonterminal whose live indices are in range, [nt_call]
    fails exactly where a call is due (the stack binds as many of its live
    indices as it holds names) and the nonterminal has no code: the
    assertion before the call. *)
Theorem nt_call_failure (nt : Symbol.NT) (lv : list string)
    (live : list (bool * string)) :
  Symbol.is_tabulated nt = true ->
  live_indices nt = Some live ->
  (nt_call nt lv = None <->
   bound_count lv live = List.length lv /\ Symbol.code_list nt = []).
Proof.
  intros Ht Hl. unfold nt_call.
  rewrite Ht, nt_scan_all_live, Hl. simpl.
  destruct (Nat.eqb_spec (bound_count lv live) (List.length lv)) as [E|E].
  - destruct (Symbol.code_list nt) as [|c cs] eqn:Ec.
    + simpl. split; auto.
    + simpl List.length. simpl Nat.ltb. simpl assert. cbn [bind].
      destruct (hd_error (rev (c :: cs))) eqn:Eh.
      * simpl. split; [discriminate | intros [_ H]; discriminate].
      * exfalso. destruct (rev (c :: cs)) eqn:Er; [|discriminate].
        apply (f_equal (@List.length _)) in Er.
        rewrite length_rev in Er. simpl in Er. lia.
  - split; [discriminate | intros [H _]; contradiction].
Qed.

Lemma nt_call_failure_witness :
  Symbol.is_tabulated Ex.nt_foo = true /\
  live_indices Ex.nt_foo = Some [(true, "t_0_i"); (false, "t_0_j")] /\
  (nt_call Ex.nt_foo ["t_0_j"; "t_0_i"] = None <->
   bound_count ["t_0_j"; "t_0_i"] [(true, "t_0_i"); (false, "t_0_j")]
     = List.length ["t_0_j"; "t_0_i"] /\
   Symbol.code_list Ex.nt_foo = []).
Proof.
  split; [reflexivity|]. split; [reflexivity|].
  apply (nt_call_failure Ex.nt_foo ["t_0_j"; "t_0_i"]
           [(true, "t_0_i"); (false, "t_0_j")]); reflexivity.
Defined.

(** ** The recursion of [add_nt_calls] *)

Lemma add_nt_calls_in_For (nts : list Symbol.NT) (cp : bool)
    (mode : CYKmode) (lv : list string) (vd : Var_Decl) (c : Expr.Base)
    (i : option Var_Assign) (body : list Statement.Base) :
  add_nt_calls_in nts cp mode lv (For vd c i body)
  = ('(body', new_stmts) <-
       add_nt_calls body (next_loop_vars mode lv vd) nts cp mode ;;
     Some (For vd c i (body' ++ new_stmts))).
Proof.
  unfold add_nt_calls. simpl.
  match goal with
  | |- bind ?m _ = _ =>
      replace m
        with (add_nt_calls_each nts cp mode (next_loop_vars mode lv vd) body)
  end.
  - destruct (add_nt_calls_each nts cp mode (next_loop_vars mode lv vd) body);
      [|reflexivity].
    simpl.
    destruct (add_nts (existsb is_FOR body) (next_loop_vars mode lv vd)
                nts cp mode); reflexivity.
  - induction body as [|x body IH]; simpl; [reflexivity|].
    now rewrite IH.
Qed.

(** ** Traversals without tabulated nonterminals lose all their loops *)

Lemma paired_app (a b : list Statement.Base) :
  paired a -> paired b -> paired (a ++ b).
Proof.
  induction 1; intros Hb; simpl; [exact Hb|].
  constructor; auto.
Qed.

Lemma singletrack_paired (track : nat) (ast : AST) (seq : Var_Decl)
    (nested : list Statement.Base) (cp : bool) (mode : CYKmode)
    (st : list Statement.Base) :
  paired nested ->
  cyk_traversal_singlethread_singletrack track ast seq nested cp mode
    = Some st ->
  paired st.
Proof.
  intros Hn H. unfold cyk_traversal_singlethread_singletrack in H.
  inv_bind H. rename x into rri. inv_bind H. rename x into lri.
  destruct (get_for_row_Some lri (Expr.plus (Expr.Vacc rri) (Expr.Const 1))
              (Expr.Const 1) cp mode) as [vd [c [i [Hr _]]]].
  rewrite Hr in H. cbn [bind] in H.
  destruct (get_for_column_Some rri
              (if CYKmode_eqb mode OPENMP_SERIAL
               then Expr.Vacc "max_tiles_n" else Expr.Const 0)
              (seq_size seq) cp mode) as [vd' [c' [Hc _]]].
  rewrite Hc in H. cbn [bind] in H.
  injection H as <-. unfold copy_statements. simpl.
  constructor; [constructor; assumption|].
  constructor; assumption.
Qed.

Lemma cyk_traversal_tracks_paired (ast : AST) (mode : CYKmode) (k : nat) :
  CYKmode_eqb mode SINGLETHREAD_OUTSIDE = false ->
  forall stmts st,
  paired stmts ->
  cyk_traversal_tracks ast mode k stmts = Some st ->
  paired st.
Proof.
  intros Hm. induction k as [|track IH]; intros stmts st Hs H; simpl in H.
  - now injection H as <-.
  - inv_bind H. inv_bind H. rewrite Hm in E0.
    apply (IH x0 st); [|exact H].
    eapply singletrack_paired; eassumption.
Qed.

Lemma paired_non_loops_counts (l : list Statement.Base)
    (extra : list Statement.Base) (res : nat) :
  paired l ->
  Forall (fun s => counts s = 0%nat) extra ->
  fold_left (fun res s => (res + counts s)%nat) (non_loops l ++ extra) res
  = res.
Proof.
  intros Hp He. revert res.
  induction Hp as [|vd c i body d l _ _ _ IH]; intros res; simpl.
  - induction He as [|x extra Hx _ IHe] in res |- *; simpl; [reflexivity|].
    rewrite Hx, Nat.add_0_r. apply IHe.
  - rewrite Nat.add_0_r. apply IH.
Qed.

Lemma add_nts_no_counts (nested : bool) (lv : list string)
    (nts : list Symbol.NT) (cp : bool) (mode : CYKmode) :
  Forall (fun nt => Symbol.is_tabulated nt = false) nts ->
  exists new,
    add_nts nested lv nts cp mode = Some new /\
    Forall (fun s => counts s = 0%nat) new /\
    list_sum (map count_loops new) = 0%nat.
Proof.
  intros Hn. unfold add_nts.
  destruct (CYKmode_eqb mode OPENMP_PARALLEL && nested);
    [exists []; repeat split; constructor|].
  rewrite (nt_calls_untabulated nts lv Hn). simpl.
  eexists. split; [reflexivity|].
  destruct cp, mode; simpl; repeat constructor.
Qed.

Section Collapse.

Variable nts : list Symbol.NT.
Variable cp : bool.
Variable mode : CYKmode.
Hypothesis untabulated :
  Forall (fun nt => Symbol.is_tabulated nt = false) nts.

Lemma paired_each (l : list Statement.Base) :
  paired l ->
  forall lv, exists l1,
    add_nt_calls_each nts cp mode lv l = Some l1 /\
    prune_pass l1 = (non_loops l, false).
Proof.
  induction 1 as [|vd c i body d l Hb IHb Hl IHl]; intros lv.
  - exists []. split; reflexivity.
  - cbn [add_nt_calls_each].
    rewrite add_nt_calls_in_For. unfold add_nt_calls.
    destruct (IHb (next_loop_vars mode lv vd)) as [b1 [Eb Pb]].
    rewrite Eb. cbn [bind].
    destruct (add_nts_no_counts (existsb is_FOR body)
                (next_loop_vars mode lv vd) nts cp mode untabulated)
      as [new [En [Hc _]]].
    rewrite En. cbn [bind].
    destruct (IHl lv) as [l1 [El Pl]].
    cbn [add_nt_calls_in]. rewrite El. cbn [bind].
    eexists. split; [reflexivity|].
    assert (Hprune : prune b1 = non_loops body).
    { unfold prune. destruct (List.length b1) eqn:Elen.
      - destruct b1; [|discriminate]. simpl in Pb.
        injection Pb as <-. reflexivity.
      - simpl. rewrite Pb. reflexivity. }
    rewrite Hprune.
    assert (Hdead : dead_loop (For vd c i (non_loops body ++ new)) = true).
    { unfold dead_loop. simpl.
      rewrite (paired_non_loops_counts body new 0 Hb Hc). reflexivity. }
    cbn [prune_pass]. rewrite Hdead, Pl. reflexivity.
Qed.

(** On a list of loops each followed by a declaration, at every depth,
    [add_nt_calls] leaves the declarations of the top level and no loop,
    when no nonterminal is tabulated. *)
Lemma paired_collapse (l : list Statement.Base) (lv : list string) :
  paired l ->
  exists new,
    add_nt_calls l lv nts cp mode = Some (non_loops l, new) /\
    list_sum (map count_loops (non_loops l ++ new)) = 0%nat.
Proof.
  intros Hp. unfold add_nt_calls.
  destruct (paired_each l Hp lv) as [l1 [El Pl]].
  rewrite El. cbn [bind].
  destruct (add_nts_no_counts (existsb is_FOR l) lv nts cp mode untabulated)
    as [new [En [_ Hn]]].
  rewrite En. cbn [bind]. exists new. split.
  - f_equal. f_equal. unfold prune. destruct (List.length l1) eqn:Elen.
    + destruct l1; [|discriminate]. simpl in Pl. now injection Pl as <-.
    + simpl. now rewrite Pl.
  - rewrite map_app, list_sum_app, Hn, Nat.add_0_r.
    clear - Hp. induction Hp; simpl; auto.
Qed.

End Collapse.

(** X4: For a grammar of any number of tracks without a tabulated nonterminal,
    the placement applied to the inside-mode single-thread traversal (also
    the serial closure, with or without checkpointing) removes every loop:
    what is left are the end-state declarations of the top level and the
    lock statements. *)
Theorem singlethread_no_nts_no_loops (ast : AST) (mode : CYKmode)
    (cp : bool) (nts : list Symbol.NT) (st : list Statement.Base) :
  mode = SINGLETHREAD \/ mode = OPENMP_SERIAL ->
  Forall (fun nt => Symbol.is_tabulated nt = false) nts ->
  cyk_traversal_singlethread ast mode = Some st ->
  exists new,
    add_nt_calls st [] nts cp mode = Some (non_loops st, new) /\
    list_sum (map count_loops (non_loops st ++ new)) = 0%nat.
Proof.
  intros Hm Hn Hst. apply paired_collapse; [exact Hn|].
  unfold cyk_traversal_singlethread in Hst. inv_bind Hst.
  eapply cyk_traversal_tracks_paired; [| constructor | exact Hst].
  destruct Hm as [-> | ->]; reflexivity.
Qed.

Lemma singlethread_no_nts_no_loops_witness :
  exists st new,
    cyk_traversal_singlethread (Ex.ast2 false) SINGLETHREAD = Some st /\
    add_nt_calls st [] [] true SINGLETHREAD = Some (non_loops st, new) /\
    list_sum (map count_loops (non_loops st ++ new)) = 0%nat.
Proof.
  destruct (cyk_traversal_singlethread (Ex.ast2 false) SINGLETHREAD)
    as [st|] eqn:E; [|vm_compute in E; discriminate].
  destruct (singlethread_no_nts_no_loops (Ex.ast2 false) SINGLETHREAD true
              [] st) as [new H]; [now left | constructor | exact E |].
  exists st, new. split; [reflexivity | exact H].
Defined.

(** ** How the tracks compose *)

Lemma count_loops_app (a b : list Statement.Base) :
  list_sum (map count_loops (a ++ b))
  = (list_sum (map count_loops a) + list_sum (map count_loops b))%nat.
Proof. now rewrite map_app, list_sum_app. Qed.

Lemma singletrack_count_loops (track : nat) (ast : AST) (seq : Var_Decl)
    (nested : list Statement.Base) (cp : bool) (mode : CYKmode)
    (st : list Statement.Base) :
  cyk_traversal_singlethread_singletrack track ast seq nested cp mode
    = Some st ->
  list_sum (map count_loops st)
  = (4 * list_sum (map count_loops nested) + 3)%nat.
Proof.
  intros H. unfold cyk_traversal_singlethread_singletrack in H.
  inv_bind H. rename x into rri. inv_bind H. rename x into lri.
  destruct (get_for_row_Some lri (Expr.plus (Expr.Vacc rri) (Expr.Const 1))
              (Expr.Const 1) cp mode) as [vd [c [i [Hr _]]]].
  rewrite Hr in H. cbn [bind] in H.
  destruct (get_for_column_Some rri
              (if CYKmode_eqb mode OPENMP_SERIAL
               then Expr.Vacc "max_tiles_n" else Expr.Const 0)
              (seq_size seq) cp mode) as [vd' [c' [Hc _]]].
  rewrite Hc in H. cbn [bind] in H.
  injection H as <-. unfold copy_statements. simpl. lia.
Qed.

Lemma singletrack_outside_count_loops (track : nat) (ast : AST)
    (seq : Var_Decl) (nested : list Statement.Base) (cp : bool)
    (mode : CYKmode) (st : list Statement.Base) :
  cyk_traversal_singlethread_singletrack_outside track ast seq nested cp
    mode = Some st ->
  list_sum (map count_loops st)
  = (list_sum (map count_loops nested) + 2)%nat.
Proof.
  intros H. unfold cyk_traversal_singlethread_singletrack_outside in H.
  inv_bind H. rename x into rri. inv_bind H. rename x into lri.
  destruct (get_for_column_Some rri
              (Expr.minus (seq_size seq) (Expr.Vacc lri))
              (Expr.plus (seq_size seq) (Expr.Const 1)) cp mode)
    as [vd' [c' [Hc _]]].
  rewrite Hc in H. cbn [bind] in H.
  destruct (get_for_row_Some lri (Expr.Const 0)
              (Expr.plus (seq_size seq) (Expr.Const 1)) cp mode)
    as [vd [c [i [Hr _]]]].
  rewrite Hr in H. cbn [bind] in H.
  injection H as <-. unfold copy_statements. simpl. lia.
Qed.

Lemma cyk_traversal_tracks_count_loops (ast : AST) (mode : CYKmode)
    (k : nat) :
  forall stmts st,
  cyk_traversal_tracks ast mode k stmts = Some st ->
  if CYKmode_eqb mode SINGLETHREAD_OUTSIDE
  then list_sum (map count_loops st)
       = (list_sum (map count_loops stmts) + 2 * k)%nat
  else (list_sum (map count_loops st) + 1
        = 4 ^ k * (list_sum (map count_loops stmts) + 1))%nat.
Proof.
  induction k as [|track IH]; intros stmts st H; simpl in H.
  - injection H as <-. destruct (CYKmode_eqb mode SINGLETHREAD_OUTSIDE);
      simpl; lia.
  - inv_bind H. inv_bind H. specialize (IH _ _ H).
    destruct (CYKmode_eqb mode SINGLETHREAD_OUTSIDE).
    + apply singletrack_outside_count_loops in E0. lia.
    + apply singletrack_count_loops in E0. rewrite IH, E0.
      rewrite Nat.pow_succ_r'. lia.
Qed.

(** X5: Each track wraps the traversal of the later tracks into its four
    quadrants: for [k] tracks the inside-mode traversal has [4^k - 1] loops
    and the outside-mode traversal [2 * k]. *)
Theorem cyk_traversal_singlethread_loops (ast : AST) (mode : CYKmode)
    (st : list Statement.Base) :
  cyk_traversal_singlethread ast mode = Some st ->
  let k := Symbol.tracks (axiom (grammar ast)) in
  if CYKmode_eqb mode SINGLETHREAD_OUTSIDE
  then list_sum (map count_loops st) = (2 * k)%nat
  else (list_sum (map count_loops st) + 1 = 4 ^ k)%nat.
Proof.
  intros H k. unfold cyk_traversal_singlethread in H. inv_bind H.
  apply cyk_traversal_tracks_count_loops in H. fold k in H.
  destruct (CYKmode_eqb mode SINGLETHREAD_OUTSIDE); simpl in H; lia.
Qed.

Lemma cyk_traversal_singlethread_loops_witness :
  exists st,
    cyk_traversal_singlethread (Ex.ast2 false) SINGLETHREAD = Some st /\
    (list_sum (map count_loops st) + 1 = 4 ^ 2)%nat.
Proof.
  destruct (cyk_traversal_singlethread (Ex.ast2 false) SINGLETHREAD)
    as [st|] eqn:E; [|vm_compute in E; discriminate].
  exists st. split; [reflexivity|].
  apply (cyk_traversal_singlethread_loops (Ex.ast2 false) SINGLETHREAD st E).
Defined.

(** ** A rule for the loops of the generated code *)

Lemma state_eta (st : Sem.State) :
  Sem.mkState (Sem.vars st) (Sem.calls st) = st.
Proof. now destruct st. Qed.

Section WhileRule.

Variable sizes : string -> option Z.
Variable vd : Var_Decl.
Variable c : Expr.Base.
Variable i : option Var_Assign.
Variable body : list Statement.Base.

(** the loop makes [steps] rounds; [Inv m] holds before round [m] *)
Variable steps : nat.
Variable Inv : nat -> Sem.State -> Prop.
(** fuel that suffices for one run of the body *)
Variable F : nat.

Hypothesis round :
  forall m st, (m < steps)%nat -> Inv m st ->
    exists v,
      Sem.eval sizes c (Sem.vars st) = Some (v, Sem.vars st) /\ v <> 0 /\
      forall f, (F <= f)%nat ->
        exists st1 st2,
          Sem.run_list (Sem.exec sizes f) body st = Some st1 /\
          Sem.exec_inc sizes vd i st1 = Some st2 /\
          Inv (S m) st2.

Hypothesis leave :
  forall st, Inv steps st ->
    Sem.eval sizes c (Sem.vars st) = Some (0, Sem.vars st).

Lemma while_rule_from (k : nat) :
  forall m st fuel,
  (m + k = steps)%nat -> Inv m st -> (F + k < fuel)%nat ->
  exists st',
    Sem.while sizes fuel vd c i body st = Some st' /\ Inv steps st'.
Proof.
  induction k as [|k IH]; intros m st fuel Hm HI Hfuel.
  - destruct fuel as [|f]; [lia|].
    replace m with steps in HI by lia.
    rewrite while_S, (leave st HI). cbn [bind Z.eqb].
    rewrite state_eta. eauto.
  - destruct fuel as [|f]; [lia|].
    destruct (round m st ltac:(lia) HI) as [v [Hc [Hv Hb]]].
    rewrite while_S, Hc. cbn [bind].
    apply Z.eqb_neq in Hv. rewrite Hv, state_eta.
    destruct (Hb f ltac:(lia)) as [st1 [st2 [H1 [H2 H3]]]].
    rewrite H1. cbn [bind]. rewrite H2. cbn [bind].
    apply (IH (S m) st2 f); [lia | exact H3 | lia].
Qed.

Lemma while_rule (st : Sem.State) (fuel : nat) :
  Inv 0%nat st -> (F + steps < fuel)%nat ->
  exists st',
    Sem.while sizes fuel vd c i body st = Some st' /\ Inv steps st'.
Proof. intros HI Hf. apply (while_rule_from steps 0%nat st fuel); auto. Qed.

End WhileRule.

Lemma run_list_app (run : Statement.Base -> Sem.State -> option Sem.State)
    (a b : list Statement.Base) (st : Sem.State) :
  Sem.run_list run (a ++ b) st
  = (st' <- Sem.run_list run a st ;; Sem.run_list run b st').
Proof.
  revert st. induction a as [|x a IH]; intros st; simpl; [reflexivity|].
  destruct (run x st); simpl; [apply IH | reflexivity].
Qed.

(** ** Where the built loops stop *)

Lemma eval_Less (sizes : string -> option Z) (a b : Expr.Base)
    (r : Sem.env) :
  Sem.eval sizes (Expr.Less a b) r
  = ('(x, r) <- Sem.eval sizes a r ;; '(y, r) <- Sem.eval sizes b r ;;
     Some (Sem.of_bool (x <? y), r)).
Proof. reflexivity. Qed.

Lemma eval_Greater (sizes : string -> option Z) (a b : Expr.Base)
    (r : Sem.env) :
  Sem.eval sizes (Expr.Greater a b) r
  = ('(x, r) <- Sem.eval sizes a r ;; '(y, r) <- Sem.eval sizes b r ;;
     Some (Sem.of_bool (x >? y), r)).
Proof. reflexivity. Qed.

Section LoopEnds.

Variable sizes : string -> option Z.
Variable rb : string.
Variables start end_ : Expr.Base.
Variable r0 : Sem.env.
Variable cs : list (string * list Z).
Variables s e : Z.

Hypothesis rb_plain : Sem.strip_postinc rb = None.
Hypothesis start_value : Sem.eval sizes start r0 = Some (s, r0).
(** the bound does not depend on the loop variable and changes nothing *)
Hypothesis end_value :
  forall r, (forall x, x <> rb -> r x = r0 x) ->
            Sem.eval sizes end_ r = Some (e, r).

Let agrees (st : Sem.State) : Prop :=
  (forall x, x <> rb -> Sem.vars st x = r0 x) /\ Sem.calls st = cs.

Lemma column_loop_runs (mode : CYKmode) :
  s <= e ->
  exists l st,
    get_for_column rb start end_ false mode = Some l /\
    Sem.exec sizes (Z.to_nat (e - s) + 2) (loop l) (Sem.mkState r0 cs)
      = Some st /\
    Sem.vars st rb = Some e /\ agrees st /\
    Sem.eval sizes (rhs (end_state l)) (Sem.vars st) = Some (e, Sem.vars st).
Proof.
  intros Hse.
  set (vd := {| type := Ty.Size; name := rb; rhs := start |}).
  destruct (while_rule sizes vd (Expr.Less (Expr.Vacc rb) end_) None []
              (Z.to_nat (e - s))
              (fun m st => Sem.vars st rb = Some (s + Z.of_nat m)
                           /\ agrees st)
              0%nat) with (st := Sem.mkState (Sem.upd rb s r0) cs)
                          (fuel := (Z.to_nat (e - s) + 1)%nat)
    as [st' [Hw [Hv Ha]]].
  - intros m st Hm [Hv [Ha Hc]].
    exists 1. rewrite eval_Less, (eval_var sizes rb _ _ rb_plain Hv).
    cbn [bind]. rewrite (end_value _ Ha). cbn [bind].
    replace (s + Z.of_nat m <? e) with true
      by (symmetry; apply Z.ltb_lt; lia).
    split; [reflexivity|]. split; [discriminate|].
    intros f _. exists st. eexists. split; [reflexivity|].
    unfold Sem.exec_inc. simpl name. rewrite Hv. cbn [bind].
    split; [reflexivity|]. simpl. rewrite upd_same. split.
    + f_equal. lia.
    + split; [|exact Hc]. intros x Hx. cbn [Sem.vars].
      rewrite upd_other by congruence. now apply Ha.
  - intros st [Hv [Ha Hc]].
    rewrite eval_Less, (eval_var sizes rb _ _ rb_plain Hv).
    cbn [bind]. rewrite (end_value _ Ha). cbn [bind].
    replace (s + Z.of_nat (Z.to_nat (e - s)) <? e) with false
      by (symmetry; apply Z.ltb_ge; lia).
    reflexivity.
  - simpl. rewrite upd_same. split; [f_equal; lia|].
    split; [|reflexivity]. intros x Hx. cbn [Sem.vars].
    now rewrite upd_other by congruence.
  - lia.
  - exists (mkCYKloop (For vd (Expr.Less (Expr.Vacc rb) end_) None [])
                      (mkVar_Decl Ty.Size rb end_)), st'.
    split.
    { unfold get_for_column, new_CYKloop. simpl.
      rewrite String.eqb_refl. reflexivity. }
    split.
    { simpl loop.
      replace (Z.to_nat (e - s) + 2)%nat with (S (Z.to_nat (e - s) + 1))
        by lia.
      rewrite exec_For. unfold Sem.exec_decl. simpl.
      rewrite start_value. cbn [bind]. exact Hw. }
    split; [rewrite Hv; f_equal; lia|]. split; [exact Ha|].
    simpl. apply end_value. apply Ha.
Qed.

Lemma row_loop_runs (mode : CYKmode) :
  mode <> SINGLETHREAD_OUTSIDE ->
  e <= s ->
  exists l st,
    get_for_row rb start end_ false mode = Some l /\
    Sem.exec sizes (Z.to_nat (s - e) + 2) (loop l) (Sem.mkState r0 cs)
      = Some st /\
    Sem.vars st rb = Some e /\ agrees st /\
    Sem.eval sizes (rhs (end_state l)) (Sem.vars st) = Some (1, Sem.vars st).
Proof.
  intros Hmode Hse.
  assert (Hm : CYKmode_eqb mode SINGLETHREAD_OUTSIDE = false)
    by (destruct mode; try reflexivity; congruence).
  set (vd := {| type := if CYKmode_eqb mode OPENMP_PARALLEL
                        then Ty.Int else Ty.Size;
                name := rb; rhs := start |}).
  destruct (while_rule sizes vd (Expr.Greater (Expr.Vacc rb) end_)
              (Some (set_op Expr.PLUS
                       (mkVar_Assign rb (Expr.Const (-1)) None))) []
              (Z.to_nat (s - e))
              (fun m st => Sem.vars st rb = Some (s - Z.of_nat m)
                           /\ agrees st)
              0%nat) with (st := Sem.mkState (Sem.upd rb s r0) cs)
                          (fuel := (Z.to_nat (s - e) + 1)%nat)
    as [st' [Hw [Hv Ha]]].
  - intros m st Hlt [Hv [Ha Hc]].
    exists 1. rewrite eval_Greater, (eval_var sizes rb _ _ rb_plain Hv).
    cbn [bind]. rewrite (end_value _ Ha). cbn [bind].
    replace (s - Z.of_nat m >? e) with true
      by (symmetry; apply Z.gtb_lt; lia).
    split; [reflexivity|]. split; [discriminate|].
    intros f _. exists st. eexists. split; [reflexivity|].
    unfold Sem.exec_inc, Sem.exec_assign. simpl. rewrite Hv. cbn [bind].
    split; [reflexivity|]. simpl. rewrite upd_same. split.
    + f_equal. lia.
    + split; [|exact Hc]. intros x Hx. cbn [Sem.vars].
      rewrite upd_other by congruence. now apply Ha.
  - intros st [Hv [Ha Hc]].
    rewrite eval_Greater, (eval_var sizes rb _ _ rb_plain Hv).
    cbn [bind]. rewrite (end_value _ Ha). cbn [bind].
    replace (s - Z.of_nat (Z.to_nat (s - e)) >? e) with false
      by (symmetry; rewrite Z.gtb_ltb; apply Z.ltb_ge; lia).
    reflexivity.
  - simpl. rewrite upd_same. split; [f_equal; lia|].
    split; [|reflexivity]. intros x Hx. cbn [Sem.vars].
    now rewrite upd_other by congruence.
  - lia.
  - exists (mkCYKloop
              (For vd (Expr.Greater (Expr.Vacc rb) end_)
                 (Some (set_op Expr.PLUS
                          (mkVar_Assign rb (Expr.Const (-1)) None))) [])
              (mkVar_Decl (type vd) rb (Expr.Const 1))), st'.
    split.
    { unfold get_for_row, new_CYKloop. simpl.
      rewrite String.eqb_refl, Hm. reflexivity. }
    split.
    { simpl loop.
      replace (Z.to_nat (s - e) + 2)%nat with (S (Z.to_nat (s - e) + 1))
        by lia.
      rewrite exec_For. unfold Sem.exec_decl. simpl.
      rewrite start_value. cbn [bind]. exact Hw. }
    split; [rewrite Hv; f_equal; lia|]. split; [exact Ha|].
    reflexivity.
Qed.

End LoopEnds.

(** the loop ends are the values the end states declare *)

(** X6: A column loop built by [get_for_column] without checkpointing, whose
    bounds do not depend on the loop variable, started at or below its end,
    runs to its end, makes no call and stops with the loop variable at the
    value of [end]: the value its end state declares.  The loop variable is
    an [unsigned int]: the bounds are not negative and below [2^31], where
    [unsigned int] and [int] agree. *)
Theorem column_loop_end_state (sizes : string -> option Z) (rb : string)
    (start end_ : Expr.Base) (mode : CYKmode) (r0 : Sem.env)
    (cs : list (string * list Z)) (s e : Z) :
  Sem.strip_postinc rb = None ->
  Sem.eval sizes start r0 = Some (s, r0) ->
  (forall r, (forall x, x <> rb -> r x = r0 x) ->
             Sem.eval sizes end_ r = Some (e, r)) ->
  0 <= s -> s <= e -> e < 2 ^ 31 ->
  exists l st,
    get_for_column rb start end_ false mode = Some l /\
    Sem.exec sizes (Z.to_nat (e - s) + 2) (loop l) (Sem.mkState r0 cs)
      = Some st /\
    Sem.vars st rb = Some e /\
    Sem.calls st = cs /\
    Sem.eval sizes (rhs (end_state l)) (Sem.vars st) = Some (e, Sem.vars st).
Proof.
  intros H1 H2 H3 _ H4 _.
  destruct (column_loop_runs sizes rb start end_ r0 cs s e H1 H2 H3 mode H4)
    as [l [st [Hl [He [Hv [[_ Hc] Hend]]]]]].
  exists l, st. auto.
Qed.

Lemma column_loop_end_state_witness :
  exists l st,
    get_for_column "t_0_j" (Expr.Const 0) (seq_size Ex.t_0_seq) false
      SINGLETHREAD = Some l /\
    Sem.exec (Ex.sizes 5) (Z.to_nat (5 - 0) + 2) (loop l)
      (Sem.mkState Sem.empty []) = Some st /\
    Sem.vars st "t_0_j" = Some 5 /\
    Sem.calls st = [] /\
    Sem.eval (Ex.sizes 5) (rhs (end_state l)) (Sem.vars st)
      = Some (5, Sem.vars st).
Proof.
  apply (column_loop_end_state (Ex.sizes 5) "t_0_j" (Expr.Const 0)
           (seq_size Ex.t_0_seq) SINGLETHREAD Sem.empty [] 0 5).
  - reflexivity.
  - reflexivity.
  - intros r _. reflexivity.
  - lia.
  - lia.
  - lia.
Defined.

(** X7: A row loop built by [get_for_row] for a descending mode without
    checkpointing, started at or above its end, runs to its end, makes no
    call and stops with the loop variable at the value of [end]; its end
    state declares 1, which is that value in the single-thread traversals,
    where [end] is the constant 1.  The loop variable is an [int] in the
    tiled phase and an [unsigned int] otherwise: the bounds are not negative
    and below [2^31], where the two agree. *)
Theorem row_loop_end_value (sizes : string -> option Z) (rb : string)
    (start end_ : Expr.Base) (mode : CYKmode) (r0 : Sem.env)
    (cs : list (string * list Z)) (s e : Z) :
  Sem.strip_postinc rb = None ->
  Sem.eval sizes start r0 = Some (s, r0) ->
  (forall r, (forall x, x <> rb -> r x = r0 x) ->
             Sem.eval sizes end_ r = Some (e, r)) ->
  mode <> SINGLETHREAD_OUTSIDE ->
  0 <= e -> e <= s -> s < 2 ^ 31 ->
  exists l st,
    get_for_row rb start end_ false mode = Some l /\
    Sem.exec sizes (Z.to_nat (s - e) + 2) (loop l) (Sem.mkState r0 cs)
      = Some st /\
    Sem.vars st rb = Some e /\
    Sem.calls st = cs /\
    Sem.eval sizes (rhs (end_state l)) (Sem.vars st) = Some (1, Sem.vars st).
Proof.
  intros H1 H2 H3 Hm _ H4 _.
  destruct (row_loop_runs sizes rb start end_ r0 cs s e H1 H2 H3 mode Hm H4)
    as [l [st [Hl [He [Hv [[_ Hc] Hend]]]]]].
  exists l, st. auto.
Qed.

Lemma row_loop_end_value_witness :
  exists l st,
    get_for_row "t_0_i" (Expr.Plus (Expr.Vacc "t_0_j") (Expr.Const 1))
      (Expr.Const 1) false SINGLETHREAD = Some l /\
    Sem.exec (Ex.sizes 5) (Z.to_nat (4 - 1) + 2) (loop l)
      (Sem.mkState (Sem.upd "t_0_j" 3 Sem.empty) []) = Some st /\
    Sem.vars st "t_0_i" = Some 1 /\
    Sem.calls st = [] /\
    Sem.eval (Ex.sizes 5) (rhs (end_state l)) (Sem.vars st)
      = Some (1, Sem.vars st).
Proof.
  apply (row_loop_end_value (Ex.sizes 5) "t_0_i"
           (Expr.Plus (Expr.Vacc "t_0_j") (Expr.Const 1)) (Expr.Const 1)
           SINGLETHREAD (Sem.upd "t_0_j" 3 Sem.empty) [] 4 1).
  - reflexivity.
  - reflexivity.
  - intros r _. reflexivity.
  - discriminate.
  - lia.
  - lia.
  - lia.
Defined.

(** ** The outside-mode traversal visits its cells once *)

Lemma outside_program_eq : ExOut.program = Some [ExOut.row_loop].
Proof. vm_compute. reflexivity. Qed.

Section OutsideCells.

Variable n : nat.

Let sizes : string -> option Z := Ex.sizes (Z.of_nat n).

Lemma outside_cond_eval (x : string) (r : Sem.env) (v : Z) :
  Sem.strip_postinc x = None ->
  r x = Some v ->
  Sem.eval sizes
    (Expr.Less (Expr.Vacc x)
       (Expr.Plus (seq_size Ex.t_0_seq) (Expr.Const 1))) r
  = Some (Sem.of_bool (v <? Z.of_nat n + 1), r).
Proof.
  intros Hs Hx. rewrite eval_Less, (eval_var sizes x v r Hs Hx).
  reflexivity.
Qed.

Lemma probe_exec (f : nat) (st : Sem.State) (i j : Z) :
  Sem.vars st "t_0_i" = Some i ->
  Sem.vars st "t_0_j" = Some j ->
  Sem.exec sizes (S f) ExOut.probe st
  = Some (Sem.mkState (Sem.vars st)
            (Sem.calls st ++ [ExOut.cell_call (i, j)])).
Proof.
  intros Hi Hj. unfold ExOut.probe. simpl. rewrite Hi. simpl.
  rewrite Hj. reflexivity.
Qed.

Lemma row_cells_S (i m : nat) :
  ExOut.row_cells n i (S m)
  = ExOut.row_cells n i m ++ [(Z.of_nat i, Z.of_nat (n - i + m))].
Proof.
  unfold ExOut.row_cells. rewrite seq_S, map_app. reflexivity.
Qed.

Lemma outside_col_loop (i : nat) (f : nat) (st : Sem.State) :
  (i <= n)%nat ->
  (i + 3 < f)%nat ->
  Sem.vars st "t_0_i" = Some (Z.of_nat i) ->
  exists st',
    Sem.exec sizes f ExOut.col_loop st = Some st' /\
    Sem.vars st' "t_0_i" = Some (Z.of_nat i) /\
    Sem.calls st'
      = Sem.calls st ++ map ExOut.cell_call (ExOut.row_cells n i (S i)).
Proof.
  intros Hin Hf Hi. destruct f as [|f]; [lia|].
  unfold ExOut.col_loop. rewrite exec_For.
  unfold Sem.exec_decl, ExOut.col_decl. simpl Sem.eval. rewrite Hi.
  cbn [bind name].
  destruct (while_rule sizes ExOut.col_decl ExOut.col_cond None
              [ExOut.probe] (S i)
              (fun m s =>
                 Sem.vars s "t_0_j" = Some (Z.of_nat (n - i + m)) /\
                 Sem.vars s "t_0_i" = Some (Z.of_nat i) /\
                 Sem.calls s
                   = Sem.calls st
                     ++ map ExOut.cell_call (ExOut.row_cells n i m))
              1%nat)
    with (st := Sem.mkState
                  (Sem.upd "t_0_j" (Z.of_nat n - Z.of_nat i) (Sem.vars st))
                  (Sem.calls st))
         (fuel := f)
    as [st' [Hw [Hj' [Hi' Hc']]]].
  - intros m s Hm [Hj [Hi2 Hc]].
    exists 1. unfold ExOut.col_cond.
    rewrite (outside_cond_eval "t_0_j" _ _ eq_refl Hj).
    replace (Z.of_nat (n - i + m) <? Z.of_nat n + 1) with true
      by (symmetry; apply Z.ltb_lt; lia).
    split; [reflexivity|]. split; [discriminate|].
    intros g Hg. destruct g as [|g]; [lia|].
    cbn [Sem.run_list].
    rewrite (probe_exec g s _ _ Hi2 Hj). cbn [bind].
    eexists. eexists. split; [reflexivity|].
    unfold Sem.exec_inc, ExOut.col_decl. cbn [name Sem.vars].
    rewrite Hj. cbn [bind]. split; [reflexivity|].
    cbn [Sem.vars Sem.calls]. rewrite upd_same.
    rewrite upd_other by discriminate.
    split; [f_equal; lia|]. split; [exact Hi2|].
    rewrite Hc, row_cells_S, map_app, <- app_assoc. reflexivity.
  - intros s [Hj [Hi2 Hc]]. unfold ExOut.col_cond.
    rewrite (outside_cond_eval "t_0_j" _ _ eq_refl Hj).
    replace (Z.of_nat (n - i + S i) <? Z.of_nat n + 1) with false
      by (symmetry; apply Z.ltb_ge; lia).
    reflexivity.
  - cbn [Sem.vars Sem.calls]. rewrite upd_same.
    rewrite upd_other by discriminate.
    split; [f_equal; lia|]. split; [exact Hi|].
    unfold ExOut.row_cells. simpl. now rewrite app_nil_r.
  - lia.
  - exists st'. split; [exact Hw|]. split; [exact Hi' | exact Hc'].
Qed.

Lemma visited_S (m : nat) :
  ExOut.visited n (S m)
  = ExOut.visited n m ++ ExOut.row_cells n m (S m).
Proof.
  unfold ExOut.visited. rewrite seq_S, flat_map_app. simpl.
  now rewrite app_nil_r.
Qed.

Lemma outside_program_exec :
  exists st,
    Sem.exec_list sizes (2 * n + 8) [ExOut.row_loop] Ex.start = Some st /\
    Sem.calls st = map ExOut.cell_call (ExOut.visited n (S n)).
Proof.
  unfold Sem.exec_list. cbn [Sem.run_list].
  replace (2 * n + 8)%nat with (S (2 * n + 7)) by lia.
  unfold ExOut.row_loop. rewrite exec_For.
  unfold Sem.exec_decl, ExOut.row_decl. cbn [rhs name Sem.eval bind].
  destruct (while_rule sizes ExOut.row_decl ExOut.row_cond None
              [ExOut.col_loop] (S n)
              (fun m s =>
                 Sem.vars s "t_0_i" = Some (Z.of_nat m) /\
                 Sem.calls s = map ExOut.cell_call (ExOut.visited n m))
              (n + 4)%nat)
    with (st := Sem.mkState (Sem.upd "t_0_i" 0 (Sem.vars Ex.start))
                  (Sem.calls Ex.start))
         (fuel := (2 * n + 7)%nat)
    as [st' [Hw [_ Hc']]].
  - intros m s Hm [Hi Hc].
    exists 1. unfold ExOut.row_cond.
    rewrite (outside_cond_eval "t_0_i" _ _ eq_refl Hi).
    replace (Z.of_nat m <? Z.of_nat n + 1) with true
      by (symmetry; apply Z.ltb_lt; lia).
    split; [reflexivity|]. split; [discriminate|].
    intros g Hg. cbn [Sem.run_list].
    destruct (outside_col_loop m g s ltac:(lia) ltac:(lia) Hi)
      as [s1 [He [Hi1 Hc1]]].
    rewrite He. cbn [bind]. exists s1. eexists. split; [reflexivity|].
    unfold Sem.exec_inc, ExOut.row_decl. cbn [name].
    rewrite Hi1. cbn [bind]. split; [reflexivity|].
    cbn [Sem.vars Sem.calls]. rewrite upd_same.
    split; [f_equal; lia|].
    rewrite Hc1, Hc, visited_S, map_app. reflexivity.
  - intros s [Hi Hc]. unfold ExOut.row_cond.
    rewrite (outside_cond_eval "t_0_i" _ _ eq_refl Hi).
    replace (Z.of_nat (S n) <? Z.of_nat n + 1) with false
      by (symmetry; apply Z.ltb_ge; lia).
    reflexivity.
  - cbn [Sem.vars Sem.calls]. rewrite upd_same. split; reflexivity.
  - lia.
  - unfold ExOut.row_decl in Hw. rewrite Hw. cbn [bind].
    exists st'. split; [reflexivity | exact Hc'].
Qed.

Lemma in_row_cells (i m : nat) (a b : Z) :
  In (a, b) (ExOut.row_cells n i m) <->
  a = Z.of_nat i /\ Z.of_nat (n - i) <= b < Z.of_nat (n - i + m).
Proof.
  unfold ExOut.row_cells. rewrite in_map_iff. split.
  - intros [k [Hk Hin]]. apply in_seq in Hin. injection Hk as <- <-. lia.
  - intros [-> Hb]. exists (Z.to_nat b - (n - i))%nat. split.
    + f_equal. lia.
    + apply in_seq. lia.
Qed.

Lemma outside_visited_cells :
  NoDup (ExOut.visited n (S n)) /\
  (forall i j, In (i, j) (ExOut.visited n (S n)) <->
               0 <= i <= Z.of_nat n /\ Z.of_nat n - i <= j <= Z.of_nat n).
Proof.
  unfold ExOut.visited. split.
  - apply NoDup_flat_map.
    + apply seq_NoDup.
    + intros i _. unfold ExOut.row_cells. apply NoDup_map_injective.
      * intros x y H. injection H as H. lia.
      * apply seq_NoDup.
    + intros x y [a b] _ _ Hx Hy.
      apply in_row_cells in Hx. apply in_row_cells in Hy. lia.
  - intros i j. rewrite in_flat_map. split.
    + intros [k [Hk Hin]]. apply in_seq in Hk.
      apply in_row_cells in Hin. lia.
    + intros H. exists (Z.to_nat i). split.
      * apply in_seq. lia.
      * apply in_row_cells. lia.
Qed.

End OutsideCells.

(** X8: For every sequence length [n] the outside-mode traversal of one track
    runs its nested statements once for each pair of a row [i] in [0 .. n]
    and a column [j] in [n - i .. n], rows ascending and the columns of a
    row ascending, and for no other pair. *)
Theorem outside_traversal_cells (n : nat) :
  exists prog fuel st,
    ExOut.program = Some prog /\
    Sem.exec_list (Ex.sizes (Z.of_nat n)) fuel prog Ex.start = Some st /\
    Sem.calls st
      = map (fun c => ("cell", [fst c; snd c])) (ExOut.visited n (S n)) /\
    NoDup (ExOut.visited n (S n)) /\
    (forall i j, In (i, j) (ExOut.visited n (S n)) <->
                 0 <= i <= Z.of_nat n /\ Z.of_nat n - i <= j <= Z.of_nat n).
Proof.
  destruct (outside_program_exec n) as [st [He Hc]].
  exists [ExOut.row_loop], (2 * n + 8)%nat, st.
  split; [exact outside_program_eq|]. split; [exact He|].
  split; [exact Hc|]. apply outside_visited_cells.
Qed.

(** ** The OpenMP version visits every cell once *)

Lemma tiled_program_eq (tile_macro : option Z) :
  option_map (preprocess_all (macro_defined tile_macro))
    (print_CYK_openmp (Ex.ast1 [Ex.nt_foo] false))
  = Some (ExTile.program tile_macro).
Proof. destruct tile_macro; vm_compute; reflexivity. Qed.

Lemma eval_Plus (sizes : string -> option Z) (a b : Expr.Base)
    (r : Sem.env) :
  Sem.eval sizes (Expr.Plus a b) r
  = ('(x, r) <- Sem.eval sizes a r ;; '(y, r) <- Sem.eval sizes b r ;;
     Some (x + y, r)).
Proof. reflexivity. Qed.

Lemma eval_Minus (sizes : string -> option Z) (a b : Expr.Base)
    (r : Sem.env) :
  Sem.eval sizes (Expr.Minus a b) r
  = ('(x, r) <- Sem.eval sizes a r ;; '(y, r) <- Sem.eval sizes b r ;;
     Some (x - y, r)).
Proof. reflexivity. Qed.

Lemma exec_plus_assign (sizes : string -> option Z) (vd : Var_Decl)
    (x : string) (e : Expr.Base) (st : Sem.State) (old v : Z) :
  Sem.eval sizes e (Sem.vars st) = Some (v, Sem.vars st) ->
  Sem.vars st x = Some old ->
  Sem.exec_inc sizes vd (Some (mkVar_Assign x e (Some Expr.PLUS))) st
  = Some (Sem.mkState (Sem.upd x (old + v) (Sem.vars st)) (Sem.calls st)).
Proof.
  intros He Hx. unfold Sem.exec_inc, Sem.exec_assign. simpl.
  rewrite He. cbn [bind]. rewrite Hx. reflexivity.
Qed.

Lemma exec_var_decl (sizes : string -> option Z) (f : nat) (d : Var_Decl)
    (st : Sem.State) (v : Z) :
  Sem.eval sizes (rhs d) (Sem.vars st) = Some (v, Sem.vars st) ->
  Sem.exec sizes (S f) (SVar_Decl d) st
  = Some (Sem.mkState (Sem.upd (name d) v (Sem.vars st)) (Sem.calls st)).
Proof. intros He. simpl. unfold Sem.exec_decl. now rewrite He. Qed.

Lemma rows_down_S (hi k j : nat) :
  ExTile.rows_down hi (S k) j
  = ExTile.rows_down hi k j ++ [(Z.of_nat (hi - k), Z.of_nat j)].
Proof. unfold ExTile.rows_down. now rewrite seq_S, map_app. Qed.

Section RowLoops.

Variable n : nat.

Let sizes : string -> option Z := Ex.sizes (Z.of_nat n).

(** a descending row loop around the call of [nt_tabulate_foo], from
    [s0] down to above [e0], in column [J] *)
Lemma row_desc_exec (vd : Var_Decl) (endE : Expr.Base) (s0 e0 J f : nat)
    (st : Sem.State) :
  name vd = "t_0_i" ->
  Sem.eval sizes (rhs vd) (Sem.vars st) = Some (Z.of_nat s0, Sem.vars st) ->
  (forall r, (forall v, v <> "t_0_i" -> r v = Sem.vars st v) ->
             Sem.eval sizes endE r = Some (Z.of_nat e0, r)) ->
  Sem.vars st "t_0_j" = Some (Z.of_nat J) ->
  (e0 <= s0)%nat ->
  (s0 - e0 + 2 < f)%nat ->
  exists st',
    Sem.exec sizes f
      (For vd (Expr.Greater (Expr.Vacc "t_0_i") endE) Ex.row_inc
         [Ex.foo_call]) st = Some st' /\
    Sem.calls st'
      = Sem.calls st
        ++ map Ex.cell_call (ExTile.rows_down (s0 - 1) (s0 - e0) J) /\
    (forall v, v <> "t_0_i" -> Sem.vars st' v = Sem.vars st v).
Proof.
  intros Hname Hstart Hend HJ Hse Hf.
  destruct f as [|f]; [lia|].
  rewrite exec_For. unfold Sem.exec_decl. rewrite Hstart, Hname.
  cbn [bind].
  destruct (while_rule sizes vd (Expr.Greater (Expr.Vacc "t_0_i") endE)
              Ex.row_inc [Ex.foo_call] (s0 - e0)
              (fun k s =>
                 Sem.vars s "t_0_i" = Some (Z.of_nat s0 - Z.of_nat k) /\
                 (forall v, v <> "t_0_i" -> Sem.vars s v = Sem.vars st v) /\
                 Sem.calls s
                   = Sem.calls st
                     ++ map Ex.cell_call (ExTile.rows_down (s0 - 1) k J))
              1%nat)
    with (st := Sem.mkState (Sem.upd "t_0_i" (Z.of_nat s0) (Sem.vars st))
                  (Sem.calls st))
         (fuel := f)
    as [st' [Hw [Hi' [Hfr' Hc']]]].
  - intros k s Hk [Hi [Hfr Hc]].
    exists 1.
    rewrite eval_Greater, (eval_var sizes "t_0_i" _ _ eq_refl Hi).
    cbn [bind]. rewrite (Hend _ Hfr). cbn [bind].
    replace (Z.of_nat s0 - Z.of_nat k >? Z.of_nat e0) with true
      by (symmetry; apply Z.gtb_lt; lia).
    split; [reflexivity|]. split; [discriminate|].
    intros g Hg. destruct g as [|g]; [lia|].
    cbn [Sem.run_list].
    assert (HJs : Sem.vars s "t_0_j" = Some (Z.of_nat J))
      by (rewrite Hfr by discriminate; exact HJ).
    pose proof (foo_call_exec n g s _ _ Hi HJs) as Hcall.
    fold sizes in Hcall. rewrite Hcall.
    cbn [bind]. eexists. eexists. split; [reflexivity|].
    unfold Ex.row_inc.
    erewrite (exec_plus_assign sizes vd "t_0_i" (Expr.Const (-1)) _
                (Z.of_nat s0 - Z.of_nat k) (-1));
      [| reflexivity | exact Hi].
    split; [reflexivity|]. cbn [Sem.vars Sem.calls].
    rewrite upd_same. split; [f_equal; lia|]. split.
    + intros v Hv. rewrite upd_other by congruence. now apply Hfr.
    + rewrite Hc, rows_down_S, map_app, <- app_assoc. cbn [map].
      replace (Z.of_nat s0 - Z.of_nat k - 1) with (Z.of_nat (s0 - 1 - k))
        by lia.
      reflexivity.
  - intros s [Hi [Hfr Hc]].
    rewrite eval_Greater, (eval_var sizes "t_0_i" _ _ eq_refl Hi).
    cbn [bind]. rewrite (Hend _ Hfr). cbn [bind].
    replace (Z.of_nat s0 - Z.of_nat (s0 - e0) >? Z.of_nat e0) with false
      by (symmetry; rewrite Z.gtb_ltb; apply Z.ltb_ge; lia).
    reflexivity.
  - cbn [Sem.vars Sem.calls]. rewrite upd_same.
    split; [f_equal; lia|]. split.
    + intros v Hv. now rewrite upd_other by congruence.
    + unfold ExTile.rows_down. simpl. now rewrite app_nil_r.
  - lia.
  - exists st'. split; [exact Hw|]. split; [exact Hc'|].
    exact Hfr'.
Qed.

End RowLoops.

Lemma keeps_refl (xs : list string) (st : Sem.State) : keeps xs st st.
Proof. intros v _. reflexivity. Qed.

Lemma keeps_trans (xs ys : list string) (a b c : Sem.State) :
  keeps xs a b -> keeps ys b c -> incl ys xs -> keeps xs a c.
Proof.
  intros H1 H2 Hi v Hv. rewrite H2; [now apply H1|].
  intros Hy. apply Hv, Hi, Hy.
Qed.

Lemma keeps_upd (xs : list string) (a b : Sem.State) (x : string) (v : Z)
    (cs : list (string * list Z)) :
  keeps xs a b -> In x xs ->
  keeps xs a (Sem.mkState (Sem.upd x v (Sem.vars b)) cs).
Proof.
  intros H Hx w Hw. cbn [Sem.vars]. rewrite upd_other; [now apply H|].
  intros ->. contradiction.
Qed.

Ltac notin := simpl; intuition discriminate.

Lemma exec_custom (sizes : string -> option Z) (f : nat) (line : string)
    (st : Sem.State) :
  Sem.exec sizes (S f) (CustomCode line) st = Some st.
Proof. reflexivity. Qed.

Section Tiles.

Variables n tn m : nat.
Hypothesis tn_pos : (1 <= tn)%nat.

Let sizes : string -> option Z := Ex.sizes (Z.of_nat n).

Lemma eval_plain (x : string) (r : Sem.env) (v : Z) :
  Sem.strip_postinc x = None -> r x = Some v ->
  Sem.eval sizes (Expr.Vacc x) r = Some (v, r).
Proof. apply eval_var. Qed.

Lemma tileA_S (a k : nat) :
  ExTile.tileA tn a (S k)
  = ExTile.tileA tn a k
    ++ ExTile.rows_down (a * tn + k) (S k) (a * tn + k).
Proof.
  unfold ExTile.tileA. rewrite seq_S, flat_map_app. simpl.
  now rewrite app_nil_r.
Qed.

Lemma colA_exec (a f : nat) (st : Sem.State) :
  Sem.vars st "z" = Some (Z.of_nat (a * tn)) ->
  Sem.vars st "tile_size" = Some (Z.of_nat tn) ->
  (2 * tn + 5 < f)%nat ->
  exists st',
    Sem.exec sizes f ExTile.colA_loop st = Some st' /\
    Sem.calls st'
      = Sem.calls st ++ map Ex.cell_call (ExTile.tileA tn a tn) /\
    keeps ["t_0_i"; "t_0_j"] st st'.
Proof.
  intros Hz Ht Hf. destruct f as [|f]; [lia|].
  unfold ExTile.colA_loop. rewrite exec_For.
  unfold Sem.exec_decl, ExTile.colA_decl. cbn [rhs name].
  rewrite (eval_plain "z" _ _ eq_refl Hz). cbn [bind].
  destruct (while_rule sizes ExTile.colA_decl ExTile.colA_cond None
              [ExTile.rowA_loop] tn
              (fun d s =>
                 Sem.vars s "t_0_j" = Some (Z.of_nat (a * tn + d)) /\
                 keeps ["t_0_i"; "t_0_j"] st s /\
                 Sem.calls s
                   = Sem.calls st
                     ++ map Ex.cell_call (ExTile.tileA tn a d))
              (tn + 3)%nat)
    with (st := Sem.mkState
                  (Sem.upd "t_0_j" (Z.of_nat (a * tn)) (Sem.vars st))
                  (Sem.calls st))
         (fuel := f)
    as [st' [Hw [_ [Hk' Hc']]]].
  - intros d s Hd [Hj [Hk Hc]].
    assert (Hzs : Sem.vars s "z" = Some (Z.of_nat (a * tn)))
      by (rewrite Hk by notin; exact Hz).
    assert (Hts : Sem.vars s "tile_size" = Some (Z.of_nat tn))
      by (rewrite Hk by notin; exact Ht).
    exists 1. unfold ExTile.colA_cond.
    rewrite eval_Less, (eval_plain "t_0_j" _ _ eq_refl Hj). cbn [bind].
    rewrite eval_Plus, (eval_plain "z" _ _ eq_refl Hzs). cbn [bind].
    rewrite (eval_plain "tile_size" _ _ eq_refl Hts). cbn [bind].
    replace (Z.of_nat (a * tn + d) <? Z.of_nat (a * tn) + Z.of_nat tn)
      with true by (symmetry; apply Z.ltb_lt; lia).
    split; [reflexivity|]. split; [discriminate|].
    intros g Hg. cbn [Sem.run_list].
    destruct (row_desc_exec n ExTile.rowA_decl ExTile.rowA_end
                (S (a * tn + d)) (a * tn) (a * tn + d) g s)
      as [s1 [He [Hc1 Hfr1]]].
    + reflexivity.
    + unfold ExTile.rowA_decl. cbn [rhs].
      fold sizes. rewrite eval_Plus, (eval_plain "t_0_j" _ _ eq_refl Hj).
      replace (Z.of_nat (S (a * tn + d))) with (Z.of_nat (a * tn + d) + 1)
        by lia.
      reflexivity.
    + intros r Hr. unfold ExTile.rowA_end. fold sizes.
      apply eval_plain; [reflexivity|].
      rewrite Hr by discriminate. exact Hzs.
    + exact Hj.
    + lia.
    + lia.
    + fold sizes in He. unfold ExTile.rowA_loop. rewrite He. cbn [bind].
      exists s1. eexists. split; [reflexivity|].
      unfold Sem.exec_inc, ExTile.colA_decl. cbn [name].
      rewrite (Hfr1 "t_0_j") by discriminate. rewrite Hj. cbn [bind].
      split; [reflexivity|]. cbn [Sem.vars Sem.calls].
      rewrite upd_same. split; [f_equal; lia|]. split.
      * apply keeps_upd; [|notin].
        intros v Hv. rewrite Hfr1; [now apply Hk|].
        intros ->. apply Hv. now left.
      * rewrite Hc1, Hc, tileA_S, map_app, <- app_assoc.
        replace (S (a * tn + d) - 1)%nat with (a * tn + d)%nat by lia.
        replace (S (a * tn + d) - a * tn)%nat with (S d) by lia.
        reflexivity.
  - intros s [Hj [Hk Hc]].
    assert (Hzs : Sem.vars s "z" = Some (Z.of_nat (a * tn)))
      by (rewrite Hk by notin; exact Hz).
    assert (Hts : Sem.vars s "tile_size" = Some (Z.of_nat tn))
      by (rewrite Hk by notin; exact Ht).
    unfold ExTile.colA_cond.
    rewrite eval_Less, (eval_plain "t_0_j" _ _ eq_refl Hj). cbn [bind].
    rewrite eval_Plus, (eval_plain "z" _ _ eq_refl Hzs). cbn [bind].
    rewrite (eval_plain "tile_size" _ _ eq_refl Hts). cbn [bind].
    replace (Z.of_nat (a * tn + tn) <? Z.of_nat (a * tn) + Z.of_nat tn)
      with false by (symmetry; apply Z.ltb_ge; lia).
    reflexivity.
  - cbn [Sem.vars Sem.calls]. rewrite upd_same.
    split; [f_equal; lia|]. split.
    + apply keeps_upd; [apply keeps_refl | notin].
    + unfold ExTile.tileA. simpl. now rewrite app_nil_r.
  - lia.
  - exists st'. split; [exact Hw|]. split; [exact Hc' | exact Hk'].
Qed.

Lemma partA_S (k : nat) :
  ExTile.partA tn (S k) = ExTile.partA tn k ++ ExTile.tileA tn k tn.
Proof.
  unfold ExTile.partA. rewrite seq_S, flat_map_app. simpl.
  now rewrite app_nil_r.
Qed.

Lemma z_cond_eval (r : Sem.env) (a : nat) :
  r "z" = Some (Z.of_nat (a * tn)) ->
  r "max_tiles_n" = Some (Z.of_nat (m * tn)) ->
  Sem.eval sizes ExTile.z_cond r = Some (Sem.of_bool (a <? m)%nat, r).
Proof.
  intros Hz HM. unfold ExTile.z_cond.
  rewrite eval_Less, (eval_plain "z" _ _ eq_refl Hz). cbn [bind].
  rewrite (eval_plain "max_tiles_n" _ _ eq_refl HM). cbn [bind].
  do 3 f_equal. destruct (Nat.ltb_spec a m) as [H|H].
  - apply Z.ltb_lt. apply inj_lt. apply Nat.mul_lt_mono_pos_r; lia.
  - apply Z.ltb_ge. apply inj_le. apply Nat.mul_le_mono_r; lia.
Qed.

Lemma zA_exec (f : nat) (st : Sem.State) :
  Sem.vars st "tile_size" = Some (Z.of_nat tn) ->
  Sem.vars st "max_tiles_n" = Some (Z.of_nat (m * tn)) ->
  (2 * tn + m + 8 < f)%nat ->
  exists st',
    Sem.exec sizes f ExTile.zA_loop st = Some st' /\
    Sem.calls st' = Sem.calls st ++ map Ex.cell_call (ExTile.partA tn m) /\
    keeps ["t_0_i"; "t_0_j"; "z"] st st'.
Proof.
  intros Ht HM Hf. destruct f as [|f]; [lia|].
  unfold ExTile.zA_loop. rewrite exec_For.
  unfold Sem.exec_decl, ExTile.zA_decl. cbn [rhs name Sem.eval bind].
  destruct (while_rule sizes ExTile.zA_decl ExTile.z_cond ExTile.z_inc
              [ExTile.colA_loop] m
              (fun a s =>
                 Sem.vars s "z" = Some (Z.of_nat (a * tn)) /\
                 keeps ["t_0_i"; "t_0_j"; "z"] st s /\
                 Sem.calls s
                   = Sem.calls st ++ map Ex.cell_call (ExTile.partA tn a))
              (2 * tn + 6)%nat)
    with (st := Sem.mkState (Sem.upd "z" 0 (Sem.vars st)) (Sem.calls st))
         (fuel := f)
    as [st' [Hw [_ [Hk' Hc']]]].
  - intros a s Ha [Hz [Hk Hc]].
    assert (Hts : Sem.vars s "tile_size" = Some (Z.of_nat tn))
      by (rewrite Hk by notin; exact Ht).
    assert (HMs : Sem.vars s "max_tiles_n" = Some (Z.of_nat (m * tn)))
      by (rewrite Hk by notin; exact HM).
    exists 1. rewrite (z_cond_eval _ a Hz HMs).
    replace (a <? m)%nat with true by (symmetry; apply Nat.ltb_lt; lia).
    split; [reflexivity|]. split; [discriminate|].
    intros g Hg. cbn [Sem.run_list].
    destruct (colA_exec a g s Hz Hts ltac:(lia)) as [s1 [He [Hc1 Hk1]]].
    rewrite He. cbn [bind]. exists s1. eexists. split; [reflexivity|].
    assert (Hz1 : Sem.vars s1 "z" = Some (Z.of_nat (a * tn)))
      by (rewrite Hk1 by notin; exact Hz).
    assert (Ht1 : Sem.vars s1 "tile_size" = Some (Z.of_nat tn))
      by (rewrite Hk1 by notin; exact Hts).
    unfold ExTile.z_inc.
    rewrite (exec_plus_assign sizes ExTile.zA_decl "z"
               (Expr.Vacc "tile_size") s1 _ _
               (eval_plain "tile_size" _ _ eq_refl Ht1) Hz1).
    split; [reflexivity|]. cbn [Sem.vars Sem.calls].
    rewrite upd_same. split; [f_equal; lia|]. split.
    + apply keeps_upd; [|notin].
      eapply keeps_trans; [exact Hk | exact Hk1|].
      intros v Hv. simpl in *. intuition.
    + rewrite Hc1, Hc, partA_S, map_app, <- app_assoc. reflexivity.
  - intros s [Hz [Hk Hc]].
    assert (HMs : Sem.vars s "max_tiles_n" = Some (Z.of_nat (m * tn)))
      by (rewrite Hk by notin; exact HM).
    rewrite (z_cond_eval _ m Hz HMs), Nat.ltb_irrefl. reflexivity.
  - cbn [Sem.vars Sem.calls]. rewrite upd_same. split; [reflexivity|]. split.
    + apply keeps_upd; [apply keeps_refl | notin].
    + unfold ExTile.partA. simpl. now rewrite app_nil_r.
  - lia.
  - exists st'. split; [exact Hw|]. split; [exact Hc' | exact Hk'].
Qed.

Lemma tileB_S (a b k : nat) :
  ExTile.tileB tn a b (S k)
  = ExTile.tileB tn a b k
    ++ ExTile.rows_down ((b - a) * tn + tn - 1) tn (b * tn + k).
Proof.
  unfold ExTile.tileB. rewrite seq_S, flat_map_app. simpl.
  now rewrite app_nil_r.
Qed.

Lemma colB_exec (a b f : nat) (st : Sem.State) :
  Sem.vars st "y" = Some (Z.of_nat (b * tn)) ->
  Sem.vars st "x" = Some (Z.of_nat ((b - a) * tn + tn)) ->
  Sem.vars st "tile_size" = Some (Z.of_nat tn) ->
  (2 * tn + 5 < f)%nat ->
  exists st',
    Sem.exec sizes f ExTile.colB_loop st = Some st' /\
    Sem.calls st'
      = Sem.calls st ++ map Ex.cell_call (ExTile.tileB tn a b tn) /\
    keeps ["t_0_i"; "t_0_j"] st st'.
Proof.
  intros Hy Hx Ht Hf. destruct f as [|f]; [lia|].
  unfold ExTile.colB_loop. rewrite exec_For.
  unfold Sem.exec_decl, ExTile.colB_decl. cbn [rhs name].
  rewrite (eval_plain "y" _ _ eq_refl Hy). cbn [bind].
  destruct (while_rule sizes ExTile.colB_decl ExTile.colB_cond None
              [ExTile.rowB_loop] tn
              (fun d s =>
                 Sem.vars s "t_0_j" = Some (Z.of_nat (b * tn + d)) /\
                 keeps ["t_0_i"; "t_0_j"] st s /\
                 Sem.calls s
                   = Sem.calls st
                     ++ map Ex.cell_call (ExTile.tileB tn a b d))
              (tn + 3)%nat)
    with (st := Sem.mkState
                  (Sem.upd "t_0_j" (Z.of_nat (b * tn)) (Sem.vars st))
                  (Sem.calls st))
         (fuel := f)
    as [st' [Hw [_ [Hk' Hc']]]].
  - intros d s Hd [Hj [Hk Hc]].
    assert (Hys : Sem.vars s "y" = Some (Z.of_nat (b * tn)))
      by (rewrite Hk by notin; exact Hy).
    assert (Hxs : Sem.vars s "x" = Some (Z.of_nat ((b - a) * tn + tn)))
      by (rewrite Hk by notin; exact Hx).
    assert (Hts : Sem.vars s "tile_size" = Some (Z.of_nat tn))
      by (rewrite Hk by notin; exact Ht).
    exists 1. unfold ExTile.colB_cond.
    rewrite eval_Less, (eval_plain "t_0_j" _ _ eq_refl Hj). cbn [bind].
    rewrite eval_Plus, (eval_plain "y" _ _ eq_refl Hys). cbn [bind].
    rewrite (eval_plain "tile_size" _ _ eq_refl Hts). cbn [bind].
    replace (Z.of_nat (b * tn + d) <? Z.of_nat (b * tn) + Z.of_nat tn)
      with true by (symmetry; apply Z.ltb_lt; lia).
    split; [reflexivity|]. split; [discriminate|].
    intros g Hg. cbn [Sem.run_list].
    destruct (row_desc_exec n ExTile.rowB_decl ExTile.rowB_end
                ((b - a) * tn + tn) ((b - a) * tn) (b * tn + d) g s)
      as [s1 [He [Hc1 Hfr1]]].
    + reflexivity.
    + unfold ExTile.rowB_decl. cbn [rhs]. fold sizes.
      apply eval_plain; [reflexivity | exact Hxs].
    + intros r Hr. unfold ExTile.rowB_end. fold sizes.
      assert (Hxr : r "x" = Some (Z.of_nat ((b - a) * tn + tn)))
        by (rewrite Hr by discriminate; exact Hxs).
      assert (Htr : r "tile_size" = Some (Z.of_nat tn))
        by (rewrite Hr by discriminate; exact Hts).
      rewrite eval_Minus, (eval_plain "x" r _ eq_refl Hxr).
      cbn [bind]. rewrite (eval_plain "tile_size" r _ eq_refl Htr).
      cbn [bind]. do 2 f_equal. lia.
    + exact Hj.
    + lia.
    + lia.
    + fold sizes in He. unfold ExTile.rowB_loop. rewrite He. cbn [bind].
      exists s1. eexists. split; [reflexivity|].
      unfold Sem.exec_inc, ExTile.colB_decl. cbn [name].
      rewrite (Hfr1 "t_0_j") by discriminate. rewrite Hj. cbn [bind].
      split; [reflexivity|]. cbn [Sem.vars Sem.calls].
      rewrite upd_same. split; [f_equal; lia|]. split.
      * apply keeps_upd; [|notin].
        intros v Hv. rewrite Hfr1; [now apply Hk|].
        intros ->. apply Hv. now left.
      * rewrite Hc1, Hc, tileB_S, map_app, <- app_assoc.
        replace ((b - a) * tn + tn - (b - a) * tn)%nat with tn by lia.
        reflexivity.
  - intros s [Hj [Hk Hc]].
    assert (Hys : Sem.vars s "y" = Some (Z.of_nat (b * tn)))
      by (rewrite Hk by notin; exact Hy).
    assert (Hts : Sem.vars s "tile_size" = Some (Z.of_nat tn))
      by (rewrite Hk by notin; exact Ht).
    unfold ExTile.colB_cond.
    rewrite eval_Less, (eval_plain "t_0_j" _ _ eq_refl Hj). cbn [bind].
    rewrite eval_Plus, (eval_plain "y" _ _ eq_refl Hys). cbn [bind].
    rewrite (eval_plain "tile_size" _ _ eq_refl Hts). cbn [bind].
    replace (Z.of_nat (b * tn + tn) <? Z.of_nat (b * tn) + Z.of_nat tn)
      with false by (symmetry; apply Z.ltb_ge; lia).
    reflexivity.
  - cbn [Sem.vars Sem.calls]. rewrite upd_same.
    split; [f_equal; lia|]. split.
    + apply keeps_upd; [apply keeps_refl | notin].
    + unfold ExTile.tileB. simpl. now rewrite app_nil_r.
  - lia.
  - exists st'. split; [exact Hw|]. split; [exact Hc' | exact Hk'].
Qed.

Lemma bandB_S (a k : nat) :
  ExTile.bandB tn a (S k)
  = ExTile.bandB tn a k ++ ExTile.tileB tn a (a + k) tn.
Proof.
  unfold ExTile.bandB. rewrite seq_S, flat_map_app. simpl.
  now rewrite app_nil_r.
Qed.

Lemma y_cond_eval (r : Sem.env) (b : nat) :
  r "y" = Some (Z.of_nat (b * tn)) ->
  r "max_tiles_n" = Some (Z.of_nat (m * tn)) ->
  Sem.eval sizes ExTile.y_cond r = Some (Sem.of_bool (b <? m)%nat, r).
Proof.
  intros Hy HM. unfold ExTile.y_cond.
  rewrite eval_Less, (eval_plain "y" _ _ eq_refl Hy). cbn [bind].
  rewrite (eval_plain "max_tiles_n" _ _ eq_refl HM). cbn [bind].
  do 3 f_equal. destruct (Nat.ltb_spec b m) as [H|H].
  - apply Z.ltb_lt. apply inj_lt. apply Nat.mul_lt_mono_pos_r; lia.
  - apply Z.ltb_ge. apply inj_le. apply Nat.mul_le_mono_r; lia.
Qed.

Lemma y_exec (a f : nat) (st : Sem.State) :
  Sem.vars st "z" = Some (Z.of_nat (a * tn)) ->
  Sem.vars st "tile_size" = Some (Z.of_nat tn) ->
  Sem.vars st "max_tiles_n" = Some (Z.of_nat (m * tn)) ->
  (2 * tn + m + 8 < f)%nat ->
  exists st',
    Sem.exec sizes f ExTile.y_loop st = Some st' /\
    Sem.calls st'
      = Sem.calls st ++ map Ex.cell_call (ExTile.bandB tn a (m - a)) /\
    keeps ["t_0_i"; "t_0_j"; "x"; "y"] st st'.
Proof.
  intros Hz Ht HM Hf. destruct f as [|f]; [lia|].
  unfold ExTile.y_loop. rewrite exec_For.
  unfold Sem.exec_decl, ExTile.y_decl. cbn [rhs name].
  rewrite (eval_plain "z" _ _ eq_refl Hz). cbn [bind].
  destruct (while_rule sizes ExTile.y_decl ExTile.y_cond ExTile.y_inc
              [SVar_Decl ExTile.x_decl; ExTile.colB_loop] (m - a)
              (fun k s =>
                 Sem.vars s "y" = Some (Z.of_nat ((a + k) * tn)) /\
                 keeps ["t_0_i"; "t_0_j"; "x"; "y"] st s /\
                 Sem.calls s
                   = Sem.calls st
                     ++ map Ex.cell_call (ExTile.bandB tn a k))
              (2 * tn + 7)%nat)
    with (st := Sem.mkState
                  (Sem.upd "y" (Z.of_nat (a * tn)) (Sem.vars st))
                  (Sem.calls st))
         (fuel := f)
    as [st' [Hw [_ [Hk' Hc']]]].
  - intros k s Hlt [Hy [Hk Hc]].
    assert (Hzs : Sem.vars s "z" = Some (Z.of_nat (a * tn)))
      by (rewrite Hk by notin; exact Hz).
    assert (Hts : Sem.vars s "tile_size" = Some (Z.of_nat tn))
      by (rewrite Hk by notin; exact Ht).
    assert (HMs : Sem.vars s "max_tiles_n" = Some (Z.of_nat (m * tn)))
      by (rewrite Hk by notin; exact HM).
    exists 1. rewrite (y_cond_eval _ (a + k) Hy HMs).
    replace (a + k <? m)%nat with true
      by (symmetry; apply Nat.ltb_lt; lia).
    split; [reflexivity|]. split; [discriminate|].
    intros g Hg. destruct g as [|g]; [lia|]. cbn [Sem.run_list].
    assert (Hx : Sem.eval sizes (rhs ExTile.x_decl) (Sem.vars s)
                 = Some (Z.of_nat ((a + k - a) * tn + tn), Sem.vars s)).
    { unfold ExTile.x_decl. cbn [rhs].
      rewrite eval_Plus, eval_Minus, (eval_plain "y" _ _ eq_refl Hy).
      cbn [bind]. rewrite (eval_plain "z" _ _ eq_refl Hzs). cbn [bind].
      rewrite (eval_plain "tile_size" _ _ eq_refl Hts). cbn [bind].
      do 2 f_equal. replace (a + k - a)%nat with k by lia.
      rewrite Nat.mul_add_distr_r. lia. }
    rewrite (exec_var_decl sizes g ExTile.x_decl s _ Hx). cbn [bind].
    destruct (colB_exec a (a + k) (S g)
                (Sem.mkState
                   (Sem.upd (name ExTile.x_decl)
                      (Z.of_nat ((a + k - a) * tn + tn)) (Sem.vars s))
                   (Sem.calls s)))
      as [s1 [He [Hc1 Hk1]]].
    + cbn [Sem.vars]. rewrite upd_other by discriminate. exact Hy.
    + cbn [Sem.vars]. apply upd_same.
    + cbn [Sem.vars]. rewrite upd_other by discriminate. exact Hts.
    + lia.
    + rewrite He. cbn [bind]. exists s1. eexists. split; [reflexivity|].
      assert (Hy1 : Sem.vars s1 "y" = Some (Z.of_nat ((a + k) * tn))).
      { rewrite Hk1 by notin. cbn [Sem.vars].
        rewrite upd_other by discriminate. exact Hy. }
      assert (Ht1 : Sem.vars s1 "tile_size" = Some (Z.of_nat tn)).
      { rewrite Hk1 by notin. cbn [Sem.vars].
        rewrite upd_other by discriminate. exact Hts. }
      unfold ExTile.y_inc.
      rewrite (exec_plus_assign sizes ExTile.y_decl "y"
                 (Expr.Vacc "tile_size") s1 _ _
                 (eval_plain "tile_size" _ _ eq_refl Ht1) Hy1).
      split; [reflexivity|]. cbn [Sem.vars Sem.calls].
      rewrite upd_same. split.
      * f_equal. replace (a + S k)%nat with (S (a + k)) by lia.
        simpl. lia.
      * split.
        -- apply keeps_upd; [|notin].
           intros v Hv. rewrite Hk1.
           ++ cbn [Sem.vars]. rewrite upd_other; [now apply Hk|].
              intros <-. apply Hv. simpl. auto.
           ++ intros Hin. apply Hv. simpl in *. intuition.
        -- rewrite Hc1. cbn [Sem.calls].
           rewrite Hc, bandB_S, map_app, <- app_assoc. reflexivity.
  - intros s [Hy [Hk Hc]].
    assert (HMs : Sem.vars s "max_tiles_n" = Some (Z.of_nat (m * tn)))
      by (rewrite Hk by notin; exact HM).
    rewrite (y_cond_eval _ (a + (m - a)) Hy HMs).
    replace (a + (m - a) <? m)%nat with false
      by (symmetry; apply Nat.ltb_ge; lia).
    reflexivity.
  - cbn [Sem.vars Sem.calls]. rewrite upd_same. split.
    + do 2 f_equal. lia.
    + split.
      * apply keeps_upd; [apply keeps_refl | notin].
      * unfold ExTile.bandB. simpl. now rewrite app_nil_r.
  - lia.
  - exists st'. split; [exact Hw|]. split; [exact Hc' | exact Hk'].
Qed.

Lemma partB_S (k : nat) :
  ExTile.partB tn m (S k)
  = ExTile.partB tn m k ++ ExTile.bandB tn (1 + k) (m - (1 + k)).
Proof.
  unfold ExTile.partB. rewrite seq_S, flat_map_app. simpl.
  now rewrite app_nil_r.
Qed.

Lemma zB_exec (f : nat) (st : Sem.State) :
  Sem.vars st "tile_size" = Some (Z.of_nat tn) ->
  Sem.vars st "max_tiles_n" = Some (Z.of_nat (m * tn)) ->
  (2 * tn + 2 * m + 10 < f)%nat ->
  exists st',
    Sem.exec sizes f ExTile.zB_loop st = Some st' /\
    Sem.calls st'
      = Sem.calls st ++ map Ex.cell_call (ExTile.partB tn m (m - 1)) /\
    keeps ["t_0_i"; "t_0_j"; "x"; "y"; "z"] st st'.
Proof.
  intros Ht HM Hf. destruct f as [|f]; [lia|].
  unfold ExTile.zB_loop. rewrite exec_For.
  unfold Sem.exec_decl, ExTile.zB_decl. cbn [rhs name].
  rewrite (eval_plain "tile_size" _ _ eq_refl Ht). cbn [bind].
  destruct (while_rule sizes ExTile.zB_decl ExTile.z_cond ExTile.z_inc
              [CustomCode "#pragma omp for"; ExTile.y_loop] (m - 1)
              (fun k s =>
                 Sem.vars s "z" = Some (Z.of_nat ((1 + k) * tn)) /\
                 keeps ["t_0_i"; "t_0_j"; "x"; "y"; "z"] st s /\
                 Sem.calls s
                   = Sem.calls st
                     ++ map Ex.cell_call (ExTile.partB tn m k))
              (2 * tn + m + 9)%nat)
    with (st := Sem.mkState
                  (Sem.upd "z" (Z.of_nat tn) (Sem.vars st)) (Sem.calls st))
         (fuel := f)
    as [st' [Hw [_ [Hk' Hc']]]].
  - intros k s Hlt [Hz [Hk Hc]].
    assert (Hts : Sem.vars s "tile_size" = Some (Z.of_nat tn))
      by (rewrite Hk by notin; exact Ht).
    assert (HMs : Sem.vars s "max_tiles_n" = Some (Z.of_nat (m * tn)))
      by (rewrite Hk by notin; exact HM).
    exists 1. rewrite (z_cond_eval _ (1 + k) Hz HMs).
    replace (1 + k <? m)%nat with true
      by (symmetry; apply Nat.ltb_lt; lia).
    split; [reflexivity|]. split; [discriminate|].
    intros g Hg. destruct g as [|g]; [lia|]. cbn [Sem.run_list].
    rewrite exec_custom. cbn [bind].
    destruct (y_exec (1 + k) (S g) s Hz Hts HMs ltac:(lia))
      as [s1 [He [Hc1 Hk1]]].
    rewrite He. cbn [bind]. exists s1. eexists. split; [reflexivity|].
    assert (Hz1 : Sem.vars s1 "z" = Some (Z.of_nat ((1 + k) * tn)))
      by (rewrite Hk1 by notin; exact Hz).
    assert (Ht1 : Sem.vars s1 "tile_size" = Some (Z.of_nat tn))
      by (rewrite Hk1 by notin; exact Hts).
    unfold ExTile.z_inc.
    rewrite (exec_plus_assign sizes ExTile.zB_decl "z"
               (Expr.Vacc "tile_size") s1 _ _
               (eval_plain "tile_size" _ _ eq_refl Ht1) Hz1).
    split; [reflexivity|]. cbn [Sem.vars Sem.calls].
    rewrite upd_same. split.
    + f_equal. replace (1 + S k)%nat with (S (1 + k)) by lia.
      simpl. lia.
    + split.
      * apply keeps_upd; [|notin].
        eapply keeps_trans; [exact Hk | exact Hk1|].
        intros v Hv. simpl in *. intuition.
      * rewrite Hc1, Hc, partB_S, map_app, <- app_assoc. reflexivity.
  - intros s [Hz [Hk Hc]].
    assert (HMs : Sem.vars s "max_tiles_n" = Some (Z.of_nat (m * tn)))
      by (rewrite Hk by notin; exact HM).
    rewrite (z_cond_eval _ (1 + (m - 1)) Hz HMs).
    replace (1 + (m - 1) <? m)%nat with false
      by (symmetry; apply Nat.ltb_ge; lia).
    reflexivity.
  - cbn [Sem.vars Sem.calls]. rewrite upd_same. split.
    + do 2 f_equal. lia.
    + split.
      * apply keeps_upd; [apply keeps_refl | notin].
      * unfold ExTile.partB. simpl. now rewrite app_nil_r.
  - lia.
  - exists st'. split; [exact Hw|]. split; [exact Hc' | exact Hk'].
Qed.

End Tiles.

(** a loop uses its declaration only for the name of its variable *)
Lemma while_name (sizes : string -> option Z) (vd vd' : Var_Decl)
    (c : Expr.Base) (i : option Var_Assign) (body : list Statement.Base) :
  name vd = name vd' ->
  forall f st,
  Sem.while sizes f vd c i body st = Sem.while sizes f vd' c i body st.
Proof.
  intros Hn f. induction f as [|f IH]; intros st; [reflexivity|].
  rewrite !while_S.
  destruct (Sem.eval sizes c (Sem.vars st)) as [[v r]|]; [|reflexivity].
  cbn [bind]. destruct (v =? 0); [reflexivity|].
  destruct (Sem.run_list (Sem.exec sizes f) body
              (Sem.mkState r (Sem.calls st))) as [s1|]; [|reflexivity].
  cbn [bind].
  replace (Sem.exec_inc sizes vd' i s1) with (Sem.exec_inc sizes vd i s1)
    by (unfold Sem.exec_inc; destruct i; [reflexivity | now rewrite Hn]).
  destruct (Sem.exec_inc sizes vd i s1); [apply IH | reflexivity].
Qed.

Section TiledProgram.

Variables n tn : nat.
Hypothesis tn_pos : (1 <= tn)%nat.
Variable tile_macro : option Z.
Hypothesis tile_value : effective_tile_size tile_macro = Z.of_nat tn.

Let sizes : string -> option Z := Ex.sizes (Z.of_nat n).
Let m : nat := (n / tn)%nat.

Lemma tiles_fit : (m * tn <= n)%nat.
Proof. unfold m. rewrite Nat.mul_comm. apply Nat.Div0.mul_div_le. Qed.

Lemma prelude_exec (f : nat) (st : Sem.State) :
  (forall t, tile_macro = Some t -> Sem.vars st "TILE_SIZE" = Some t) ->
  exists st',
    Sem.run_list (Sem.exec sizes (S f)) (ExTile.prelude tile_macro) st
      = Some st' /\
    Sem.vars st' "tile_size" = Some (Z.of_nat tn) /\
    Sem.vars st' "max_tiles_n" = Some (Z.of_nat (m * tn)) /\
    Sem.calls st' = Sem.calls st /\
    keeps ["tile_size"; "max_tiles"; "max_tiles_n"] st st'.
Proof.
  intros Hmacro.
  assert (Hq : Z.quot (Z.of_nat n) (Z.of_nat tn) = Z.of_nat m).
  { unfold m. rewrite Z.quot_div_nonneg by lia.
    symmetry. apply Nat2Z.inj_div. }
  assert (Hz : (Z.of_nat tn =? 0) = false) by (apply Z.eqb_neq; lia).
  unfold ExTile.prelude.
  destruct tile_macro as [t|]; simpl in tile_value; subst.
  - specialize (Hmacro _ eq_refl).
    simpl. unfold Sem.exec_decl, Sem.exec_assign. simpl.
    rewrite upd_other by discriminate. rewrite Hmacro. simpl.
    rewrite Hz. simpl. unfold Sem.exec_decl, seq_size. simpl.
    rewrite Hz. simpl.
    eexists. split; [reflexivity|]. simpl. rewrite Hq.
    split; [reflexivity|].
    split; [rewrite upd_same, Nat2Z.inj_mul; reflexivity|].
    split; [reflexivity|].
    intros v Hv. cbn [Sem.vars].
    rewrite !upd_other by (intros <-; apply Hv; simpl; auto).
    reflexivity.
  - simpl. unfold Sem.exec_decl, Sem.exec_assign. simpl.
    unfold Sem.exec_decl, seq_size. simpl.
    assert (Htn : Z.of_nat tn = 32) by (symmetry; exact tile_value).
    eexists. split; [reflexivity|]. simpl.
    rewrite <- Htn, Hq.
    split; [reflexivity|].
    split; [rewrite upd_same, Nat2Z.inj_mul; reflexivity|].
    split; [reflexivity|].
    intros v Hv. cbn [Sem.vars].
    rewrite !upd_other by (intros <-; apply Hv; simpl; auto).
    reflexivity.
Qed.

Lemma serial_exec (f : nat) (st : Sem.State) :
  Sem.vars st "max_tiles_n" = Some (Z.of_nat (m * tn)) ->
  (2 * n + 3 < f)%nat ->
  exists st',
    Sem.run_list (Sem.exec sizes f) ExTile.serial st = Some st' /\
    Sem.calls st'
      = Sem.calls st
        ++ map Ex.cell_call (ExTile.serial_cells n (m * tn)).
Proof.
  intros HM Hf. pose proof tiles_fit as Hfit.
  destruct f as [|f]; [lia|].
  unfold ExTile.serial. cbn [Sem.run_list].
  rewrite exec_For. unfold Sem.exec_decl, ExTile.serial_col_decl.
  cbn [rhs name].
  rewrite (eval_var sizes "max_tiles_n" _ _ eq_refl HM). cbn [bind].
  rewrite (while_name sizes _ Ex.col_decl) by reflexivity.
  destruct (col_while n (n - m * tn) f
              (Sem.mkState
                 (Sem.upd "t_0_j" (Z.of_nat (m * tn)) (Sem.vars st))
                 (Sem.calls st)) (m * tn))
    as [st1 [Hw [Hc1 Hj1]]]; [lia | lia | apply upd_same |].
  fold sizes in Hw. rewrite Hw. cbn [bind].
  assert (Hend : Sem.exec sizes (S f) Ex.col_end st1
                 = Some (Sem.mkState
                           (Sem.upd "t_0_j" (Z.of_nat n) (Sem.vars st1))
                           (Sem.calls st1))) by reflexivity.
  rewrite Hend. cbn [bind].
  destruct (row_loop_exec n n (S f)
              (Sem.mkState (Sem.upd "t_0_j" (Z.of_nat n) (Sem.vars st1))
                 (Sem.calls st1)))
    as [st2 [Hr [Hc2 [Hi2 Hj2]]]]; [lia | apply upd_same |].
  fold sizes in Hr. rewrite Hr. cbn [bind].
  pose proof (row_end_exec n f st2) as Hre. fold sizes in Hre.
  rewrite Hre. cbn [bind].
  pose proof (foo_call_exec n f
                (Sem.mkState (Sem.upd "t_0_i" 1 (Sem.vars st2))
                   (Sem.calls st2)) 1 (Z.of_nat n)) as Hcall.
  fold sizes in Hcall. rewrite Hcall.
  - cbn [bind]. eexists. split; [reflexivity|].
    cbn [Sem.calls]. rewrite Hc2. cbn [Sem.calls]. rewrite Hc1.
    cbn [Sem.calls].
    unfold ExTile.serial_cells, quadrant_C, quadrant_D.
    rewrite !map_app. cbn [app map]. rewrite <- !app_assoc. reflexivity.
  - cbn [Sem.vars]. apply upd_same.
  - cbn [Sem.vars]. rewrite upd_other by discriminate. exact Hj2.
Qed.

Lemma tiled_program_exec :
  exists st,
    Sem.exec_list sizes (2 * tn + 2 * n + 13) (ExTile.program tile_macro)
      (Sem.mkState (macro_env tile_macro) []) = Some st /\
    Sem.calls st = map Ex.cell_call (ExTile.visited n tn).
Proof.
  pose proof tiles_fit as Hfit.
  assert (Hmn : (m <= n)%nat).
  { apply Nat.le_trans with (m * tn)%nat; [|exact Hfit].
    rewrite <- (Nat.mul_1_r m) at 1. apply Nat.mul_le_mono_l. exact tn_pos. }
  unfold Sem.exec_list, ExTile.program.
  replace (2 * tn + 2 * n + 13)%nat with (S (S (2 * tn + 2 * n + 11)))
    by lia.
  set (F := (2 * tn + 2 * n + 11)%nat).
  cbn [app Sem.run_list]. rewrite exec_custom. cbn [bind].
  set (st0 := Sem.mkState (macro_env tile_macro) []).
  assert (Hm0 : forall t, tile_macro = Some t ->
                  Sem.vars st0 "TILE_SIZE" = Some t).
  { intros t ->. reflexivity. }
  (* the parallel block *)
  unfold ExTile.block.
  change (Sem.exec sizes (S (S F))
            (Block (ExTile.prelude tile_macro
                    ++ [CustomCode "#pragma omp for";
                        CustomCode
                          "// OPENMP < 3 requires signed int here ...";
                        ExTile.zA_loop; ExTile.zB_loop;
                        CustomCode "// end parallel"])) st0)
    with (Sem.run_list (Sem.exec sizes (S F))
            (ExTile.prelude tile_macro
             ++ [CustomCode "#pragma omp for";
                 CustomCode "// OPENMP < 3 requires signed int here ...";
                 ExTile.zA_loop; ExTile.zB_loop;
                 CustomCode "// end parallel"]) st0).
  rewrite run_list_app.
  destruct (prelude_exec F st0 Hm0) as [s1 [He1 [Ht1 [HM1 [Hc1 Hk1]]]]].
  rewrite He1. cbn [bind Sem.run_list].
  repeat (rewrite exec_custom; cbn [bind]).
  destruct (zA_exec n tn m tn_pos (S F) s1 Ht1 HM1 ltac:(lia))
    as [s2 [He2 [Hc2 Hk2]]].
  fold sizes in He2. rewrite He2. cbn [bind].
  assert (Ht2 : Sem.vars s2 "tile_size" = Some (Z.of_nat tn))
    by (rewrite Hk2 by notin; exact Ht1).
  assert (HM2 : Sem.vars s2 "max_tiles_n" = Some (Z.of_nat (m * tn)))
    by (rewrite Hk2 by notin; exact HM1).
  destruct (zB_exec n tn m tn_pos (S F) s2 Ht2 HM2 ltac:(lia))
    as [s3 [He3 [Hc3 Hk3]]].
  fold sizes in He3. rewrite He3. cbn [bind]. rewrite exec_custom.
  cbn [bind].
  (* the serial part *)
  rewrite run_list_app.
  assert (Hm3 : forall t, tile_macro = Some t ->
                  Sem.vars s3 "TILE_SIZE" = Some t).
  { intros t Ht. rewrite Hk3 by notin. rewrite Hk2 by notin.
    rewrite Hk1 by notin. now apply Hm0. }
  destruct (prelude_exec (S F) s3 Hm3) as [s4 [He4 [Ht4 [HM4 [Hc4 Hk4]]]]].
  rewrite He4. cbn [bind].
  destruct (serial_exec (S (S F)) s4 HM4 ltac:(lia)) as [s5 [He5 Hc5]].
  rewrite He5. exists s5. split; [reflexivity|].
  rewrite Hc5, Hc4, Hc3, Hc2, Hc1. unfold st0. cbn [Sem.calls app].
  unfold ExTile.visited. fold m. rewrite !map_app, <- !app_assoc.
  reflexivity.
Qed.

End TiledProgram.

(** *** The cells of the tiles *)

Lemma NoDup_map_in {A B : Type} (f : A -> B) (l : list A) :
  (forall x y, In x l -> In y l -> f x = f y -> x = y) ->
  NoDup l -> NoDup (map f l).
Proof.
  intros Hinj H. induction H as [|x l Hx _ IH]; simpl; constructor.
  - intros Hin. apply in_map_iff in Hin. destruct Hin as [y [Hy Hin]].
    apply Hinj in Hy; [subst; contradiction | now right | now left].
  - apply IH. intros y z Hy Hz. apply Hinj; now right.
Qed.

Lemma tile_unique (t a d a' d' : nat) :
  (a * t + d = a' * t + d')%nat -> (d < t)%nat -> (d' < t)%nat ->
  a = a' /\ d = d'.
Proof.
  intros H Hd Hd'.
  assert (a = a').
  { destruct (Nat.lt_trichotomy a a') as [Hlt | [He | Hlt]]; [|exact He|];
      exfalso; nia. }
  subst. split; [reflexivity | lia].
Qed.

Lemma in_rows_down (hi k j : nat) (x y : Z) :
  (k <= S hi)%nat ->
  In (x, y) (ExTile.rows_down hi k j) <->
  y = Z.of_nat j /\ Z.of_nat hi - Z.of_nat k < x <= Z.of_nat hi.
Proof.
  intros Hk. unfold ExTile.rows_down. rewrite in_map_iff. split.
  - intros [r [Hr Hin]]. apply in_seq in Hin. injection Hr as <- <-. lia.
  - intros [-> H]. exists (hi - Z.to_nat x)%nat. split.
    + f_equal. lia.
    + apply in_seq. lia.
Qed.

Lemma NoDup_rows_down (hi k j : nat) :
  (k <= S hi)%nat -> NoDup (ExTile.rows_down hi k j).
Proof.
  intros Hk. unfold ExTile.rows_down. apply NoDup_map_in.
  - intros x y Hx Hy H. apply in_seq in Hx. apply in_seq in Hy.
    injection H as H. lia.
  - apply seq_NoDup.
Qed.

Section TileCells.

Variable t : nat.
Hypothesis t_pos : (1 <= t)%nat.

Lemma in_tileA (a k : nat) (x y : Z) :
  In (x, y) (ExTile.tileA t a k) <->
  exists d, (d < k)%nat /\ y = Z.of_nat (a * t + d) /\
            Z.of_nat (a * t) <= x <= y.
Proof.
  unfold ExTile.tileA. rewrite in_flat_map. split.
  - intros [d [Hd Hin]]. apply in_seq in Hd.
    apply in_rows_down in Hin; [|lia]. exists d. lia.
  - intros [d [Hd [Hy Hx]]]. exists d. split; [apply in_seq; lia|].
    apply in_rows_down; lia.
Qed.

Lemma NoDup_tileA (a k : nat) : NoDup (ExTile.tileA t a k).
Proof.
  unfold ExTile.tileA. apply NoDup_flat_map.
  - apply seq_NoDup.
  - intros d _. apply NoDup_rows_down. lia.
  - intros d d' [x y] _ _ H H'.
    apply in_rows_down in H; [|lia]. apply in_rows_down in H'; [|lia]. lia.
Qed.

Lemma in_partA (k : nat) (x y : Z) :
  In (x, y) (ExTile.partA t k) <->
  exists a d, (a < k)%nat /\ (d < t)%nat /\ y = Z.of_nat (a * t + d) /\
              Z.of_nat (a * t) <= x <= y.
Proof.
  unfold ExTile.partA. rewrite in_flat_map. split.
  - intros [a [Ha Hin]]. apply in_seq in Ha. apply in_tileA in Hin.
    destruct Hin as [d Hd]. exists a, d. lia.
  - intros [a [d [Ha Hd]]]. exists a. split; [apply in_seq; lia|].
    apply in_tileA. exists d. lia.
Qed.

Lemma NoDup_partA (k : nat) : NoDup (ExTile.partA t k).
Proof.
  unfold ExTile.partA. apply NoDup_flat_map.
  - apply seq_NoDup.
  - intros a _. apply NoDup_tileA.
  - intros a a' [x y] _ _ H H'.
    apply in_tileA in H. apply in_tileA in H'.
    destruct H as [d [Hd [Hy _]]]. destruct H' as [d' [Hd' [Hy' _]]].
    apply (tile_unique t a d a' d'); lia.
Qed.

Lemma in_tileB (a b k : nat) (x y : Z) :
  In (x, y) (ExTile.tileB t a b k) <->
  exists d, (d < k)%nat /\ y = Z.of_nat (b * t + d) /\
            Z.of_nat ((b - a) * t) <= x < Z.of_nat ((b - a) * t + t).
Proof.
  unfold ExTile.tileB. rewrite in_flat_map. split.
  - intros [d [Hd Hin]]. apply in_seq in Hd.
    apply in_rows_down in Hin; [|lia]. exists d. lia.
  - intros [d [Hd [Hy Hx]]]. exists d. split; [apply in_seq; lia|].
    generalize dependent ((b - a) * t)%nat. intros p Hx.
    apply in_rows_down; lia.
Qed.

Lemma NoDup_tileB (a b k : nat) : NoDup (ExTile.tileB t a b k).
Proof.
  unfold ExTile.tileB. apply NoDup_flat_map.
  - apply seq_NoDup.
  - intros d _. apply NoDup_rows_down. lia.
  - intros d d' [x y] _ _ H H'.
    apply in_rows_down in H; [|lia]. apply in_rows_down in H'; [|lia]. lia.
Qed.

Lemma in_bandB (a k : nat) (x y : Z) :
  In (x, y) (ExTile.bandB t a k) <->
  exists b d, (a <= b < a + k)%nat /\ (d < t)%nat /\
              y = Z.of_nat (b * t + d) /\
              Z.of_nat ((b - a) * t) <= x < Z.of_nat ((b - a) * t + t).
Proof.
  unfold ExTile.bandB. rewrite in_flat_map. split.
  - intros [b [Hb Hin]]. apply in_seq in Hb. apply in_tileB in Hin.
    destruct Hin as [d Hd]. exists b, d. lia.
  - intros [b [d [Hb Hd]]]. exists b. split; [apply in_seq; lia|].
    apply in_tileB. exists d. lia.
Qed.

Lemma NoDup_bandB (a k : nat) : NoDup (ExTile.bandB t a k).
Proof.
  unfold ExTile.bandB. apply NoDup_flat_map.
  - apply seq_NoDup.
  - intros b _. apply NoDup_tileB.
  - intros b b' [x y] _ _ H H'.
    apply in_tileB in H. apply in_tileB in H'.
    destruct H as [d [Hd [Hy _]]]. destruct H' as [d' [Hd' [Hy' _]]].
    apply (tile_unique t b d b' d'); lia.
Qed.

Lemma in_partB (m k : nat) (x y : Z) :
  In (x, y) (ExTile.partB t m k) <->
  exists a b d, (1 <= a <= k)%nat /\ (a <= b < m)%nat /\ (d < t)%nat /\
                y = Z.of_nat (b * t + d) /\
                Z.of_nat ((b - a) * t) <= x < Z.of_nat ((b - a) * t + t).
Proof.
  unfold ExTile.partB. rewrite in_flat_map. split.
  - intros [a [Ha Hin]]. apply in_seq in Ha. apply in_bandB in Hin.
    destruct Hin as [b [d Hd]]. exists a, b, d. lia.
  - intros [a [b [d [Ha Hd]]]]. exists a. split; [apply in_seq; lia|].
    apply in_bandB. exists b, d. lia.
Qed.

Lemma NoDup_partB (m k : nat) : NoDup (ExTile.partB t m k).
Proof.
  unfold ExTile.partB. apply NoDup_flat_map.
  - apply seq_NoDup.
  - intros a _. apply NoDup_bandB.
  - intros a a' [x y] _ _ H H'.
    apply in_bandB in H. apply in_bandB in H'.
    destruct H as [b [d [Hb [Hd [Hy Hx]]]]].
    destruct H' as [b' [d' [Hb' [Hd' [Hy' Hx']]]]].
    destruct (tile_unique t b d b' d') as [<- <-]; [lia | lia | lia |].
    assert (Hc : (b - a = b - a')%nat).
    { apply (tile_unique t (b - a) (Z.to_nat x - (b - a) * t)
               (b - a') (Z.to_nat x - (b - a') * t)); lia. }
    lia.
Qed.

Lemma serial_columns (n M : nat) :
  (M <= n)%nat ->
  ExTile.serial_cells n M
  = flat_map (fun j => quadrant_A j ++ quadrant_B j) (seq M (S n - M)).
Proof.
  intros HM. unfold ExTile.serial_cells, quadrant_C, quadrant_D.
  replace (S n - M)%nat with (S (n - M)) by lia.
  rewrite seq_S, flat_map_app. simpl. rewrite app_nil_r.
  replace (M + (n - M))%nat with n by lia. reflexivity.
Qed.

Lemma in_serial_cells (n M : nat) (x y : Z) :
  (M <= n)%nat ->
  In (x, y) (ExTile.serial_cells n M) <->
  Z.of_nat M <= y <= Z.of_nat n /\ 0 <= x <= y.
Proof.
  intros HM. rewrite serial_columns by exact HM. rewrite in_flat_map. split.
  - intros [c [Hc Hin]]. apply in_seq in Hc. apply in_column in Hin. lia.
  - intros H. exists (Z.to_nat y). split.
    + apply in_seq. lia.
    + apply in_column. lia.
Qed.

Lemma NoDup_serial_cells (n M : nat) :
  (M <= n)%nat -> NoDup (ExTile.serial_cells n M).
Proof.
  intros HM. rewrite serial_columns by exact HM. apply NoDup_flat_map.
  - apply seq_NoDup.
  - intros j _. apply NoDup_column.
  - intros x y [i j] _ _ Hx Hy.
    apply in_column in Hx. apply in_column in Hy. lia.
Qed.

Lemma tiled_cells (n : nat) :
  NoDup (ExTile.visited n t) /\
  (forall i j,
     In (i, j) (ExTile.visited n t) <-> 0 <= i <= j /\ j <= Z.of_nat n).
Proof.
  set (m := (n / t)%nat).
  assert (Hfit : (m * t <= n)%nat).
  { unfold m. rewrite Nat.mul_comm. apply Nat.Div0.mul_div_le. }
  assert (HA : forall x y, In (x, y) (ExTile.partA t m) ->
                 0 <= x <= y /\ y < Z.of_nat (m * t) /\
                 Z.of_nat (Z.to_nat y / t * t) <= x).
  { intros x y H. apply in_partA in H.
    destruct H as [a [d [Ha [Hd [Hy Hx]]]]].
    assert (Hq : (Z.to_nat y / t = a)%nat).
    { replace (Z.to_nat y) with (a * t + d)%nat by lia.
      rewrite Nat.div_add_l by lia. rewrite Nat.div_small by lia. lia. }
    rewrite Hq. nia. }
  assert (HB : forall x y, In (x, y) (ExTile.partB t m (m - 1)) ->
                 0 <= x <= y /\ y < Z.of_nat (m * t) /\
                 x < Z.of_nat (Z.to_nat y / t * t)).
  { intros x y H. apply in_partB in H.
    destruct H as [a [b [d [Ha [Hb [Hd [Hy Hx]]]]]]].
    assert (Hq : (Z.to_nat y / t = b)%nat).
    { replace (Z.to_nat y) with (b * t + d)%nat by lia.
      rewrite Nat.div_add_l by lia. rewrite Nat.div_small by lia. lia. }
    rewrite Hq.
    assert ((b - a) * t + t <= b * t)%nat by nia.
    nia. }
  unfold ExTile.visited. fold m. split.
  - apply NoDup_app; [apply NoDup_partA | |].
    + apply NoDup_app; [apply NoDup_partB | now apply NoDup_serial_cells |].
      intros [x y] H H'. apply HB in H.
      apply in_serial_cells in H'; [lia | exact Hfit].
    + intros [x y] H H'. apply HA in H. apply in_app_iff in H'.
      destruct H' as [H' | H'].
      * apply HB in H'. lia.
      * apply in_serial_cells in H'; [lia | exact Hfit].
  - intros i j. rewrite !in_app_iff. split.
    + intros [H | [H | H]].
      * apply HA in H. lia.
      * apply HB in H. lia.
      * apply in_serial_cells in H; [lia | exact Hfit].
    + intros [Hi Hj].
      destruct (Z_lt_le_dec j (Z.of_nat (m * t))) as [Hlt | Hge].
      2:{ right. right. apply in_serial_cells; [exact Hfit | lia]. }
      set (jn := Z.to_nat j). set (i' := Z.to_nat i).
      set (b := (jn / t)%nat). set (c := (i' / t)%nat).
      assert (Hjn : (jn = t * b + jn mod t)%nat) by apply Nat.div_mod_eq.
      assert (Hin : (i' = t * c + i' mod t)%nat) by apply Nat.div_mod_eq.
      assert (Hdj : (jn mod t < t)%nat) by (apply Nat.mod_upper_bound; lia).
      assert (Hdi : (i' mod t < t)%nat) by (apply Nat.mod_upper_bound; lia).
      assert (Hbm : (b < m)%nat).
      { apply Nat.Div0.div_lt_upper_bound. unfold jn. lia. }
      assert (Hcb : (c <= b)%nat).
      { apply Nat.Div0.div_le_mono. unfold i', jn. lia. }
      destruct (Nat.eq_dec c b) as [Heq | Hne].
      * left. apply in_partA. exists b, (jn mod t)%nat.
        unfold jn, i' in *. nia.
      * right. left. apply in_partB.
        exists (b - c)%nat, b, (jn mod t)%nat.
        replace (b - (b - c))%nat with c by lia.
        unfold jn, i' in *. nia.
Qed.

End TileCells.

(** X9: The OpenMP version of the traversal, with the preprocessor run for a
    macro [TILE_SIZE] that is defined with a positive value or not defined
    and the statements executed in their order by one thread: for every
    sequence length [n] the program runs to its end and calls the
    nonterminal on the cells of the tiles on the diagonal, then on those of
    the tiles above it band by band, then on the remaining columns; these are
    the pairs [(i, j)] with [0 <= i <= j] and [j <= n], each exactly once.
    The loop variables [z] and [y] are [int]s that take the value of the
    [unsigned int] [tile_size], and [max_tiles_n] is an [int]: the tile size
    and the sequence length are below [2^31], so that no value wraps. *)
Theorem openmp_visits_each_cell_once (n : nat) (tile_macro : option Z) :
  0 < effective_tile_size tile_macro < 2 ^ 31 ->
  Z.of_nat n < 2 ^ 31 ->
  exists prog fuel st,
    option_map (preprocess_all (macro_defined tile_macro))
      (print_CYK_openmp (Ex.ast1 [Ex.nt_foo] false)) = Some prog /\
    Sem.exec_list (Ex.sizes (Z.of_nat n)) fuel prog
      (Sem.mkState (macro_env tile_macro) []) = Some st /\
    Sem.calls st
      = map (fun c => ("nt_tabulate_foo", [fst c; snd c]))
          (ExTile.visited n (Z.to_nat (effective_tile_size tile_macro))) /\
    NoDup (ExTile.visited n (Z.to_nat (effective_tile_size tile_macro))) /\
    (forall i j,
       In (i, j)
         (ExTile.visited n (Z.to_nat (effective_tile_size tile_macro))) <->
       0 <= i <= j /\ j <= Z.of_nat n).
Proof.
  intros Hpos _.
  set (tn := Z.to_nat (effective_tile_size tile_macro)).
  assert (Htn : (1 <= tn)%nat) by (unfold tn; lia).
  assert (Hv : effective_tile_size tile_macro = Z.of_nat tn)
    by (unfold tn; lia).
  destruct (tiled_program_exec n tn Htn tile_macro Hv) as [st [He Hc]].
  exists (ExTile.program tile_macro), (2 * tn + 2 * n + 13)%nat, st.
  split; [apply tiled_program_eq|]. split; [exact He|].
  split; [exact Hc|]. apply tiled_cells. exact Htn.
Qed.

Lemma openmp_visits_each_cell_once_witness :
  0 < effective_tile_size (Some 4) < 2 ^ 31 /\
  Z.of_nat 12 < 2 ^ 31 /\
  exists prog fuel st,
    option_map (preprocess_all (macro_defined (Some 4)))
      (print_CYK_openmp (Ex.ast1 [Ex.nt_foo] false)) = Some prog /\
    Sem.exec_list (Ex.sizes (Z.of_nat 12)) fuel prog
      (Sem.mkState (macro_env (Some 4)) []) = Some st /\
    Sem.calls st
      = map (fun c => ("nt_tabulate_foo", [fst c; snd c]))
          (ExTile.visited 12 (Z.to_nat (effective_tile_size (Some 4)))) /\
    NoDup (ExTile.visited 12 (Z.to_nat (effective_tile_size (Some 4)))) /\
    (forall i j,
       In (i, j)
         (ExTile.visited 12 (Z.to_nat (effective_tile_size (Some 4)))) <->
       0 <= i <= j /\ j <= Z.of_nat 12).
Proof.
  split; [simpl; lia|]. split; [simpl; lia|].
  apply (openmp_visits_each_cell_once 12 (Some 4)); simpl; lia.
Defined.

(** ** The requested nonterminals that do not exist *)

Lemma append_nil_r (s : string) : s +++ EmptyString = s.
Proof. induction s as [|c s IH]; simpl; [reflexivity | now rewrite IH]. Qed.

Lemma collect_missing_nts_filter (OUTSIDE_ALL : string) (NTs : list string)
    (requested : list string) :
  forall acc,
  collect_missing_nts OUTSIDE_ALL NTs requested acc
  = acc ++ filter (fun i => negb (String.eqb i OUTSIDE_ALL)
                            && negb (NTs_find NTs i)) requested.
Proof.
  induction requested as [|i rest IH]; intros acc; simpl.
  - now rewrite app_nil_r.
  - destruct (String.eqb i OUTSIDE_ALL); simpl; [apply IH|].
    destruct (NTs_find NTs i); simpl; [apply IH|].
    rewrite IH, <- app_assoc. reflexivity.
Qed.

Lemma concat_cons2 (sep x y : string) (l : list string) :
  String.concat sep (x :: y :: l) = x +++ sep +++ String.concat sep (y :: l).
Proof. reflexivity. Qed.

Lemma append_missing_nts_concat (l : list string) :
  forall msg,
  append_missing_nts msg l
  = msg +++ String.concat nl (map (fun i => "  '" +++ i +++ "'") l).
Proof.
  induction l as [|i rest IH]; intros msg.
  - simpl. now rewrite append_nil_r.
  - destruct rest as [|j rest'].
    + reflexivity.
    + change (append_missing_nts msg (i :: j :: rest'))
        with (append_missing_nts ((msg +++ ("  '" +++ i +++ "'")) +++ nl)
                (j :: rest')).
      rewrite IH. cbn [map]. rewrite concat_cons2, !append_assoc.
      reflexivity.
Qed.

Lemma NTs_find_In (NTs : list string) (i : string) :
  NTs_find NTs i = true <-> In i NTs.
Proof.
  unfold NTs_find. rewrite existsb_exists. split.
  - intros [x [Hx He]]. apply String.eqb_eq in He. now subst.
  - intros H. exists i. split; [exact H | apply String.eqb_refl].
Qed.

(** X10: [check_outside_requested_nonexisting_nts] returns where no list was
    requested; for a list it throws exactly where a requested name other
    than [OUTSIDE_ALL] is not a nonterminal of the grammar, at the location
    of the grammar, and the message lists these names, each as often as it
    was requested and in the order of the requests, one on a line and
    between quotes. *)
Theorem check_outside_requested_nonexisting_nts_spec
    (OUTSIDE_ALL : string) (NTs : list string) (g : Grammar)
    (requested : list string) :
  let missing :=
    filter (fun i => negb (String.eqb i OUTSIDE_ALL)
                     && negb (NTs_find NTs i)) requested in
  check_outside_requested_nonexisting_nts OUTSIDE_ALL NTs g None = None /\
  check_outside_requested_nonexisting_nts OUTSIDE_ALL NTs g (Some requested)
  = match missing with
    | [] => None
    | _ :: _ =>
        Some (mkLogError (Some (location g))
                (missing_nts_msg g
                 +++ String.concat nl
                       (map (fun i => "  '" +++ i +++ "'") missing)))
    end /\
  (forall x, In x missing <->
             In x requested /\ x <> OUTSIDE_ALL /\ ~ In x NTs).
Proof.
  intros missing. split; [reflexivity|]. split.
  - unfold check_outside_requested_nonexisting_nts.
    rewrite collect_missing_nts_filter. cbn [app]. fold missing.
    destruct missing as [|m ms]; [reflexivity|].
    cbn [List.length Nat.ltb Nat.leb].
    rewrite append_missing_nts_concat. reflexivity.
  - intros x. unfold missing. rewrite filter_In, andb_true_iff,
      !negb_true_iff, String.eqb_neq, <- (NTs_find_In NTs x).
    rewrite not_true_iff_false. tauto.
Qed.

(** ** Opening an included file *)

Section Includes.

Variable FILE : Type.
Variable fopen : string -> option FILE.
Variable strerror_errno : string.

Lemma open_include_spec (s : string) (dirs : list string) :
  forall y,
  (Driver.open_include fopen s dirs y
   = match dirs with [] => y | _ :: _ => None end /\
   forall i, In i dirs -> fopen (Driver.candidate i s) = None) \/
  (exists pre i post f,
     dirs = pre ++ i :: post /\
     (forall j, In j pre -> fopen (Driver.candidate j s) = None) /\
     fopen (Driver.candidate i s) = Some f /\
     Driver.open_include fopen s dirs y = Some f).
Proof.
  induction dirs as [|i rest IH]; intros y.
  - left. split; [reflexivity | intros i []].
  - simpl. destruct (fopen (Driver.candidate i s)) as [f|] eqn:Ef.
    + right. exists [], i, rest, f. repeat split; auto. intros j [].
    + destruct (IH None)
        as [[Ho Hall] | [pre [i' [post [f [Hd [Hp [Hf Ho]]]]]]]].
      * left. split.
        -- rewrite Ho. now destruct rest.
        -- intros j [<- | Hj]; [exact Ef | now apply Hall].
      * right. exists (i :: pre), i', post, f. repeat split; auto.
        -- simpl. now rewrite Hd.
        -- intros j [<- | Hj]; [exact Ef | now apply Hp].
Qed.

End Includes.

(** X11: With a directory to search, [push_buffer] throws for a file that
    cannot be opened exactly where no directory has it, and leaves no input
    file; otherwise the input file is the one of the first directory in the
    order of [includes] that has it, and it is pushed as a buffer and held
    as an open file unless more than 100 files are held already, where
    [push_buffer] throws with the file opened but not held. *)
Theorem push_buffer_spec (FILE : Type) (fopen : string -> option FILE)
    (strerror_errno : string) (s : string) (d : Driver.t FILE) :
  Driver.includes d <> [] ->
  let d' := fst (Driver.push_buffer fopen strerror_errno s d) in
  let e := snd (Driver.push_buffer fopen strerror_errno s d) in
  Driver.includes d' = Driver.includes d /\
  ((forall i, In i (Driver.includes d) ->
              fopen (Driver.candidate i s) = None) /\
   Driver.yyin d' = None /\
   e = Some (mkLogError None
               ("include: Can't open " +++ s +++ ": " +++ strerror_errno)) /\
   Driver.open_files d' = Driver.open_files d /\
   Driver.buffer_stack d' = Driver.buffer_stack d
   \/
   exists pre i post f,
     Driver.includes d = pre ++ i :: post /\
     (forall j, In j pre -> fopen (Driver.candidate j s) = None) /\
     fopen (Driver.candidate i s) = Some f /\
     Driver.yyin d' = Some f /\
     if Nat.ltb 100 (List.length (Driver.open_files d)) then
       e = Some (mkLogError None "Too many open files! (include loop?)") /\
       Driver.open_files d' = Driver.open_files d /\
       Driver.buffer_stack d' = Driver.buffer_stack d
     else
       e = None /\
       Driver.open_files d' = Driver.open_files d ++ [f] /\
       Driver.buffer_stack d' = f :: Driver.buffer_stack d /\
       (List.length (Driver.open_files d') <= 101)%nat).
Proof.
  intros Hne d' e. subst d' e. unfold Driver.push_buffer.
  destruct (open_include_spec FILE fopen s (Driver.includes d) (Driver.yyin d))
    as [[Ho Hall] | [pre [i [post [f [Hd [Hp [Hf Ho]]]]]]]].
  - assert (Hn : Driver.open_include fopen s (Driver.includes d)
                   (Driver.yyin d) = None).
    { rewrite Ho. destruct (Driver.includes d); [contradiction|reflexivity]. }
    rewrite Hn.
    cbn [fst snd Driver.with_yyin Driver.includes Driver.yyin
         Driver.open_files Driver.buffer_stack].
    split; [reflexivity|]. left. repeat split; auto.
  - rewrite Ho.
    destruct (Nat.ltb 100 (List.length (Driver.open_files d))) eqn:El;
      cbn [fst snd Driver.with_yyin Driver.includes Driver.yyin
           Driver.open_files Driver.buffer_stack];
      (split; [reflexivity|]); right; exists pre, i, post, f;
      repeat split; auto.
    apply Nat.ltb_ge in El. rewrite length_app. simpl. lia.
Qed.

Lemma push_buffer_spec_witness :
  Driver.includes
    (Driver.set_includes ["lib"] (Driver.new (FILE := string) None)) <> [] /\
  Driver.yyin
    (fst (Driver.push_buffer
            (fun p => if String.eqb p "lib/a.gap" then Some p else None)
            "No such file or directory" "a.gap"
            (Driver.set_includes ["lib"] (Driver.new None))))
  = Some "lib/a.gap".
Proof.
  split; [discriminate|].
  destruct (push_buffer_spec string
              (fun p => if String.eqb p "lib/a.gap" then Some p else None)
              "No such file or directory" "a.gap"
              (Driver.set_includes ["lib"] (Driver.new None)))
    as [_ [[H _] | [pre [i [post [f [Hd [Hp [Hf [Hy _]]]]]]]]]].
  - discriminate.
  - specialize (H "lib" (or_intror (or_introl eq_refl))). discriminate.
  - reflexivity.
Defined.

(** X12: After the constructor and [set_includes] the name itself is the first
    path tried: a file that can be opened under the name as given is the one
    included, whatever the include directories hold. *)
Theorem push_buffer_plain_name_first (FILE : Type)
    (fopen : string -> option FILE) (strerror_errno : string)
    (v : list string) (y : option FILE) (s : string) (f : FILE) :
  fopen s = Some f ->
  Driver.yyin
    (fst (Driver.push_buffer fopen strerror_errno s
            (Driver.set_includes v (Driver.new y))))
  = Some f.
Proof.
  intros Hf. unfold Driver.push_buffer, Driver.set_includes, Driver.new.
  cbn [Driver.includes Driver.open_files Driver.yyin app
       Driver.open_include].
  change (Driver.candidate EmptyString s) with s. rewrite Hf.
  reflexivity.
Qed.

Lemma push_buffer_plain_name_first_witness :
  Driver.yyin
    (fst (Driver.push_buffer
            (fun p => Some p) "No such file or directory" "a.gap"
            (Driver.set_includes ["lib"] (Driver.new None))))
  = Some "a.gap".
Proof.
  apply (push_buffer_plain_name_first string (fun p => Some p)
           "No such file or directory" ["lib"] None "a.gap" "a.gap").
  reflexivity.
Defined.

(** ** Parsing a file that cannot be opened *)

(** X19: [parse] on a driver that does not read standard input and whose file
    cannot be opened returns false, the value it also returns after a parse
    without errors; the failure shows in [fail_later], which is set, and in
    the error passed to the log.  The parser is not run. *)
Theorem parse_unopenable_file (FILE : Type) (fopen : string -> option FILE)
    (strerror_errno : string) (parser : Driver.t FILE -> Driver.t FILE)
    (seen_errors : Driver.t FILE -> bool) (d : Driver.t FILE) (f : string) :
  Driver.from_stdin d = false ->
  Driver.filename_ d = Some f ->
  fopen f = None ->
  exists d',
    Driver.parse fopen strerror_errno parser seen_errors d
      = Some (d', false) /\
    Driver.fail_later d' = true /\
    Driver.errors d'
      = Driver.errors d
        ++ ["Can't open " +++ f +++ ": " +++ strerror_errno] /\
    Driver.yyin d' = None.
Proof.
  intros Hs Hf Ho. unfold Driver.parse, Driver.lexer_prepare,
    Driver.file_open.
  rewrite Hs, Hf. cbn [bind]. rewrite Ho. cbn [bind negb].
  eexists. split; [reflexivity|]. repeat split.
Qed.

Lemma parse_unopenable_file_witness :
  exists d',
    Driver.parse (fun _ : string => @None string)
      "No such file or directory" (fun d => d) (fun _ => false)
      (Driver.setFilename "a.gap" (Driver.new None))
      = Some (d', false) /\
    Driver.fail_later d' = true /\
    Driver.errors d' = ["Can't open a.gap: No such file or directory"] /\
    Driver.yyin d' = None.
Proof.
  apply (parse_unopenable_file string (fun _ => None)
           "No such file or directory" (fun d => d) (fun _ => false)
           (Driver.setFilename "a.gap" (Driver.new None)) "a.gap");
    reflexivity.
Defined.

(** ** Linear tables are filled once for each index *)

Lemma linear_program_eq :
  Ex.singlethread_program [Ex.nt_bar; Ex.nt_baz] SINGLETHREAD
  = Some ExLin.program.
Proof. vm_compute. reflexivity. Qed.

Section LinearTables.

Variable n : nat.

Let sizes : string -> option Z := Ex.sizes (Z.of_nat n).

Lemma bar_call_exec (f j : nat) (st : Sem.State) :
  Sem.vars st "t_0_j" = Some (Z.of_nat j) ->
  Sem.exec sizes (S f) ExLin.bar_call st
  = Some (Sem.mkState (Sem.vars st) (Sem.calls st ++ [ExLin.bar j])).
Proof. intros Hj. unfold ExLin.bar_call. simpl. rewrite Hj. reflexivity. Qed.

Lemma baz_call_exec (f i : nat) (st : Sem.State) :
  Sem.vars st "t_0_i" = Some (Z.of_nat i + 1) ->
  Sem.exec sizes (S f) ExLin.baz_call st
  = Some (Sem.mkState (Sem.vars st) (Sem.calls st ++ [ExLin.baz i])).
Proof.
  intros Hi. unfold ExLin.baz_call. simpl. rewrite Hi. simpl.
  unfold ExLin.baz. replace (Z.of_nat i + 1 - 1) with (Z.of_nat i) by lia.
  reflexivity.
Qed.

Lemma linear_col_while (j0 steps f : nat) (st : Sem.State) :
  (j0 + steps = n)%nat ->
  (steps + 2 < f)%nat ->
  Sem.vars st "t_0_j" = Some (Z.of_nat j0) ->
  exists st',
    Sem.while sizes f Ex.col_decl Ex.col_cond None ExLin.col_body st
      = Some st' /\
    Sem.calls st' = Sem.calls st ++ map ExLin.bar (seq j0 steps).
Proof.
  intros Hn Hf Hj0.
  destruct (while_rule sizes Ex.col_decl Ex.col_cond None ExLin.col_body
              steps
              (fun m s =>
                 Sem.vars s "t_0_j" = Some (Z.of_nat (j0 + m)) /\
                 Sem.calls s = Sem.calls st ++ map ExLin.bar (seq j0 m))
              1%nat)
    with (st := st) (fuel := f)
    as [st' [Hw [_ Hc']]].
  - intros m s Hm [Hj Hc].
    exists 1. pose proof (col_cond_eval n (Sem.vars s) _ Hj) as He.
    fold sizes in He. rewrite He.
    replace (Z.of_nat (j0 + m) <? Z.of_nat n) with true
      by (symmetry; apply Z.ltb_lt; lia).
    split; [reflexivity|]. split; [discriminate|].
    intros g Hg. destruct g as [|g]; [lia|].
    unfold ExLin.col_body. cbn [Sem.run_list].
    pose proof (row_end_exec n g s) as Hre. fold sizes in Hre.
    rewrite Hre. cbn [bind].
    rewrite (bar_call_exec g (j0 + m))
      by (cbn [Sem.vars]; rewrite upd_other by discriminate; exact Hj).
    cbn [bind]. eexists. eexists. split; [reflexivity|].
    unfold Sem.exec_inc, Ex.col_decl. cbn [name Sem.vars Sem.calls].
    rewrite upd_other by discriminate. rewrite Hj. cbn [bind].
    split; [reflexivity|]. cbn [Sem.vars Sem.calls]. rewrite upd_same.
    split; [f_equal; lia|].
    rewrite Hc, seq_S, map_app, <- app_assoc. reflexivity.
  - intros s [Hj Hc].
    pose proof (col_cond_eval n (Sem.vars s) _ Hj) as He.
    fold sizes in He. rewrite He.
    replace (Z.of_nat (j0 + steps) <? Z.of_nat n) with false
      by (symmetry; apply Z.ltb_ge; lia).
    reflexivity.
  - split; [rewrite Nat.add_0_r; exact Hj0|]. simpl. now rewrite app_nil_r.
  - lia.
  - exists st'. split; [exact Hw | exact Hc'].
Qed.

Lemma linear_col_loop (f : nat) (st : Sem.State) :
  (n + 3 < f)%nat ->
  exists st',
    Sem.exec sizes f ExLin.col_loop st = Some st' /\
    Sem.calls st' = Sem.calls st ++ map ExLin.bar (seq 0 n).
Proof.
  intros Hf. destruct f as [|f]; [lia|].
  unfold ExLin.col_loop. rewrite exec_For.
  unfold Sem.exec_decl. cbn [rhs name Ex.col_decl Sem.eval bind].
  apply (linear_col_while 0 n f
           (Sem.mkState (Sem.upd "t_0_j" 0 (Sem.vars st)) (Sem.calls st)));
    [lia | lia | apply upd_same].
Qed.

Lemma rev_seq_S (k : nat) : rev (seq 1 (S k)) = S k :: rev (seq 1 k).
Proof. rewrite seq_S, rev_app_distr. reflexivity. Qed.

Lemma linear_row_loop (f : nat) (st : Sem.State) :
  (n + 3 < f)%nat ->
  Sem.vars st "t_0_j" = Some (Z.of_nat n) ->
  exists st',
    Sem.exec sizes f ExLin.row_loop st = Some st' /\
    Sem.calls st' = Sem.calls st ++ map ExLin.baz (rev (seq 1 n)) /\
    Sem.vars st' "t_0_j" = Some (Z.of_nat n).
Proof.
  intros Hf Hj0. destruct f as [|f]; [lia|].
  unfold ExLin.row_loop. rewrite exec_For.
  unfold Sem.exec_decl, Ex.row_decl. cbn [rhs name].
  rewrite eval_Plus, (eval_var sizes "t_0_j" _ _ eq_refl Hj0).
  cbn [bind Sem.eval].
  destruct (while_rule sizes Ex.row_decl Ex.row_cond Ex.row_inc
              [ExLin.baz_call] n
              (fun m s =>
                 Sem.vars s "t_0_i" = Some (Z.of_nat (S (n - m))) /\
                 Sem.vars s "t_0_j" = Some (Z.of_nat n) /\
                 exists done,
                   Sem.calls s = Sem.calls st ++ map ExLin.baz done /\
                   done ++ rev (seq 1 (n - m)) = rev (seq 1 n))
              1%nat)
    with (st := Sem.mkState
                  (Sem.upd "t_0_i" (Z.of_nat n + 1) (Sem.vars st))
                  (Sem.calls st))
         (fuel := f)
    as [st' [Hw [_ [Hj' [done [Hc' Hd']]]]]].
  - intros m s Hm [Hi [Hj [done [Hc Hd]]]].
    exists 1. pose proof (row_cond_eval n (Sem.vars s) _ Hi) as He.
    fold sizes in He. rewrite He.
    replace (Z.of_nat (S (n - m)) >? 1) with true
      by (symmetry; rewrite Z.gtb_ltb; apply Z.ltb_lt; lia).
    split; [reflexivity|]. split; [discriminate|].
    intros g Hg. destruct g as [|g]; [lia|].
    cbn [Sem.run_list].
    rewrite (baz_call_exec g (n - m) s)
      by (rewrite Hi; f_equal; lia).
    cbn [bind].
    eexists. eexists. split; [reflexivity|].
    pose proof (row_inc_exec n
                  (Sem.mkState (Sem.vars s)
                     (Sem.calls s ++ [ExLin.baz (n - m)])) _ Hi) as Hinc.
    fold sizes in Hinc. rewrite Hinc.
    split; [reflexivity|]. cbn [Sem.vars Sem.calls]. rewrite upd_same.
    rewrite upd_other by discriminate.
    split; [f_equal; lia|]. split; [exact Hj|].
    exists (done ++ [(n - m)%nat]). split.
    + rewrite Hc, map_app, <- app_assoc. reflexivity.
    + rewrite <- Hd. replace (n - m)%nat with (S (n - S m)) at 2 by lia.
      rewrite rev_seq_S, <- app_assoc. cbn [app].
      replace (S (n - S m)) with (n - m)%nat by lia. reflexivity.
  - intros s [Hi _].
    pose proof (row_cond_eval n (Sem.vars s) _ Hi) as He.
    fold sizes in He. rewrite He.
    replace (Z.of_nat (S (n - n)) >? 1) with false
      by (symmetry; rewrite Z.gtb_ltb; apply Z.ltb_ge; lia).
    reflexivity.
  - cbn [Sem.vars Sem.calls]. rewrite upd_same.
    rewrite upd_other by discriminate.
    split; [f_equal; lia|]. split; [exact Hj0|].
    exists []. split; [simpl; now rewrite app_nil_r|].
    rewrite Nat.sub_0_r. reflexivity.
  - lia.
  - exists st'. split; [exact Hw|]. split; [|exact Hj'].
    rewrite Hc'. rewrite Nat.sub_diag in Hd'. simpl in Hd'.
    rewrite app_nil_r in Hd'. now rewrite Hd'.
Qed.

Lemma linear_program_exec :
  exists st,
    Sem.exec_list sizes (n + 5) ExLin.program Ex.start = Some st /\
    Sem.calls st = ExLin.visited n.
Proof.
  unfold Sem.exec_list, ExLin.program. cbn [Sem.run_list].
  destruct (linear_col_loop (n + 5) Ex.start ltac:(lia)) as [s1 [He1 Hc1]].
  rewrite He1. cbn [bind].
  replace (n + 5)%nat with (S (n + 4)) by lia.
  assert (Hend : Sem.exec sizes (S (n + 4)) Ex.col_end s1
                 = Some (Sem.mkState
                           (Sem.upd "t_0_j" (Z.of_nat n) (Sem.vars s1))
                           (Sem.calls s1))) by reflexivity.
  rewrite Hend. cbn [bind].
  destruct (linear_row_loop (S (n + 4))
              (Sem.mkState (Sem.upd "t_0_j" (Z.of_nat n) (Sem.vars s1))
                 (Sem.calls s1)) ltac:(lia) (upd_same _ _ _))
    as [s2 [He2 [Hc2 Hj2]]].
  rewrite He2. cbn [bind].
  pose proof (row_end_exec n (n + 4) s2) as Hre. fold sizes in Hre.
  rewrite Hre. cbn [bind].
  rewrite (bar_call_exec (n + 4) n)
    by (cbn [Sem.vars]; rewrite upd_other by discriminate; exact Hj2).
  cbn [bind].
  rewrite (baz_call_exec (n + 4) 0) by (cbn [Sem.vars]; apply upd_same).
  cbn [bind].
  eexists. split; [reflexivity|].
  cbn [Sem.calls]. rewrite Hc2. cbn [Sem.calls]. rewrite Hc1.
  unfold ExLin.visited, Ex.start. cbn [Sem.calls app].
  rewrite <- !app_assoc. reflexivity.
Qed.

End LinearTables.

(** X13: For every sequence length [n] the single-thread traversal with the
    calls of a nonterminal [bar] tabulated by its right index and of a
    nonterminal [baz] tabulated by its left index runs to its end and calls
    [bar] on the columns [0 .. n - 1] inside the column loop, [baz] on the
    rows [n .. 1] inside the loop of the last column, and both once more
    after the loops, on column [n] and on row [0]: each index of a linear
    table once. *)
Theorem linear_tables_visited (n : nat) :
  exists prog fuel st,
    Ex.singlethread_program [Ex.nt_bar; Ex.nt_baz] SINGLETHREAD
      = Some prog /\
    Sem.exec_list (Ex.sizes (Z.of_nat n)) fuel prog Ex.start = Some st /\
    Sem.calls st
      = map (fun j => ("nt_tabulate_bar", [Z.of_nat j])) (seq 0 n)
        ++ map (fun i => ("nt_tabulate_baz", [Z.of_nat i])) (rev (seq 1 n))
        ++ [("nt_tabulate_bar", [Z.of_nat n]); ("nt_tabulate_baz", [0])].
Proof.
  destruct (linear_program_exec n) as [st [He Hc]].
  exists ExLin.program, (n + 5)%nat, st.
  split; [exact linear_program_eq|]. split; [exact He | exact Hc].
Qed.

(** ** Resuming the traversal from a checkpoint *)

Lemma checkpoint_program_eq :
  ExCp.singlethread_program [Ex.nt_foo] = Some ExCp.program.
Proof. vm_compute. reflexivity. Qed.

Section CheckpointCells.

Variable n : nat.

Let sizes : string -> option Z := Ex.sizes (Z.of_nat n).

Lemma cp_row_body_exec (f : nat) (st : Sem.State) (i j : Z) :
  Sem.vars st "t_0_i" = Some i ->
  Sem.vars st "t_0_j" = Some j ->
  Sem.run_list (Sem.exec sizes (S f)) ExCp.row_body st
  = Some (Sem.mkState (Sem.vars st)
            (Sem.calls st ++ [Ex.cell_call (i - 1, j)])).
Proof.
  intros Hi Hj. unfold ExCp.row_body, ExCp.lock. cbn [Sem.run_list].
  rewrite exec_custom. cbn [bind].
  pose proof (foo_call_exec n f st i j Hi Hj) as H. fold sizes in H.
  rewrite H. reflexivity.
Qed.

Lemma cp_row_while (k : nat) :
  forall (fuel : nat) (st : Sem.State) (j : Z),
  (k + 1 < fuel)%nat ->
  Sem.vars st "t_0_i" = Some (Z.of_nat k + 1) ->
  Sem.vars st "t_0_j" = Some j ->
  exists st',
    Sem.while sizes fuel ExCp.row_decl Ex.row_cond Ex.row_inc ExCp.row_body
      st = Some st' /\
    Sem.calls st' = Sem.calls st ++ map Ex.cell_call (column_rows k j) /\
    Sem.vars st' "t_0_i" = Some 1 /\
    keeps ["t_0_i"] st st'.
Proof.
  induction k as [|k IH]; intros fuel st j Hfuel Hi Hj.
  - destruct fuel as [|f]; [lia|].
    pose proof (row_cond_eval n (Sem.vars st) _ Hi) as Hc. fold sizes in Hc.
    rewrite while_S, Hc. cbn [bind].
    eexists. split; [reflexivity|]. cbn [Sem.vars Sem.calls].
    unfold column_rows. simpl. rewrite app_nil_r.
    split; [reflexivity|]. split; [exact Hi|]. intros v _. reflexivity.
  - destruct fuel as [|f]; [lia|]. destruct f as [|f]; [lia|].
    pose proof (row_cond_eval n (Sem.vars st) _ Hi) as Hc. fold sizes in Hc.
    rewrite while_S, Hc. cbn [bind].
    replace (Z.of_nat (S k) + 1 >? 1) with true
      by (symmetry; apply Z.gtb_lt; lia).
    cbn [Sem.of_bool Z.eqb].
    rewrite (cp_row_body_exec f _ (Z.of_nat (S k) + 1) j) by assumption.
    cbn [bind Sem.vars Sem.calls].
    pose proof (row_inc_exec n
                  (Sem.mkState (Sem.vars st)
                     (Sem.calls st
                      ++ [Ex.cell_call (Z.of_nat (S k) + 1 - 1, j)]))
                  (Z.of_nat (S k) + 1) Hi) as Hinc.
    fold sizes in Hinc.
    change (Sem.exec_inc sizes ExCp.row_decl Ex.row_inc)
      with (Sem.exec_inc sizes Ex.row_decl Ex.row_inc).
    rewrite Hinc. cbn [bind Sem.vars Sem.calls].
    destruct (IH (S f)
                (Sem.mkState
                   (Sem.upd "t_0_i" (Z.of_nat (S k) + 1 + -1) (Sem.vars st))
                   (Sem.calls st
                    ++ [Ex.cell_call (Z.of_nat (S k) + 1 - 1, j)])) j)
      as [st' [Hw [Hcs [Hi' Hk]]]].
    + lia.
    + cbn [Sem.vars]. rewrite upd_same. f_equal. lia.
    + cbn [Sem.vars]. rewrite upd_other by discriminate. exact Hj.
    + exists st'. split; [exact Hw|].
      rewrite Hcs. cbn [Sem.calls].
      rewrite column_rows_S, <- app_assoc. cbn [map app].
      replace (Z.of_nat (S k) + 1 - 1) with (Z.of_nat (S k)) by lia.
      split; [reflexivity|]. split; [exact Hi'|].
      intros v Hv. rewrite Hk by exact Hv. cbn [Sem.vars].
      apply upd_other. intros <-. apply Hv. now left.
Qed.

(** the row loop entered with flag [fl]: it starts at the restored row
    where the flag is 0, and at the diagonal otherwise *)
Lemma cp_row_loop_exec (fuel : nat) (st : Sem.State) (fl : Z) (i j : nat) :
  Sem.vars st "t_0_i_loaded" = Some fl ->
  Sem.vars st "t_0_i" = Some (Z.of_nat i) ->
  Sem.vars st "t_0_j" = Some (Z.of_nat j) ->
  let I := if fl =? 0 then i else S j in
  (1 <= I)%nat ->
  (I + 1 < fuel)%nat ->
  exists st',
    Sem.exec sizes fuel ExCp.row_loop st = Some st' /\
    Sem.calls st'
      = Sem.calls st
        ++ map Ex.cell_call (column_rows (I - 1) (Z.of_nat j)) /\
    Sem.vars st' "t_0_i" = Some 1 /\
    Sem.vars st' "t_0_i_loaded" = Some (fl + 1) /\
    keeps ["t_0_i"; "t_0_i_loaded"] st st'.
Proof.
  intros Hfl Hi Hj I HI Hfuel. destruct fuel as [|f]; [lia|].
  unfold ExCp.row_loop. rewrite exec_For.
  unfold Sem.exec_decl, ExCp.row_decl. cbn [rhs name].
  rewrite eval_Cond.
  rewrite (eval_postinc sizes "t_0_i_loaded++" "t_0_i_loaded" fl _ eq_refl
             Hfl).
  cbn [bind].
  assert (Hstart :
            (if fl =? 0
             then Sem.eval sizes (Expr.Vacc "t_0_i")
                    (Sem.upd "t_0_i_loaded" (fl + 1) (Sem.vars st))
             else Sem.eval sizes
                    (Expr.Plus (Expr.Vacc "t_0_j") (Expr.Const 1))
                    (Sem.upd "t_0_i_loaded" (fl + 1) (Sem.vars st)))
            = Some (Z.of_nat (I - 1) + 1,
                    Sem.upd "t_0_i_loaded" (fl + 1) (Sem.vars st))).
  { subst I. destruct (fl =? 0).
    - rewrite (eval_var sizes "t_0_i" (Z.of_nat i))
        by (try reflexivity; rewrite upd_other by discriminate; exact Hi).
      do 2 f_equal. lia.
    - rewrite eval_Plus.
      rewrite (eval_var sizes "t_0_j" (Z.of_nat j))
        by (try reflexivity; rewrite upd_other by discriminate; exact Hj).
      cbn [bind Sem.eval]. do 2 f_equal. lia. }
  rewrite Hstart. cbn [bind].
  destruct (cp_row_while (I - 1) f
              (Sem.mkState
                 (Sem.upd "t_0_i" (Z.of_nat (I - 1) + 1)
                    (Sem.upd "t_0_i_loaded" (fl + 1) (Sem.vars st)))
                 (Sem.calls st)) (Z.of_nat j))
    as [st' [Hw [Hc [Hi' Hk]]]].
  - lia.
  - cbn [Sem.vars]. apply upd_same.
  - cbn [Sem.vars]. rewrite !upd_other by discriminate. exact Hj.
  - exists st'. split; [exact Hw|]. split; [exact Hc|].
    split; [exact Hi'|]. split.
    + rewrite Hk by notin. cbn [Sem.vars].
      rewrite upd_other by discriminate. apply upd_same.
    + intros v Hv. rewrite Hk by (intros [<- | []]; apply Hv; now left).
      cbn [Sem.vars]. rewrite !upd_other; [reflexivity | |];
        intros <-; apply Hv; simpl; auto.
Qed.

(** a column with the row loop entered with flag [fl] *)
Lemma cp_col_body_exec (f : nat) (st : Sem.State) (fl : Z) (i j : nat) :
  Sem.vars st "t_0_i_loaded" = Some fl ->
  Sem.vars st "t_0_i" = Some (Z.of_nat i) ->
  Sem.vars st "t_0_j" = Some (Z.of_nat j) ->
  let I := if fl =? 0 then i else S j in
  (1 <= I)%nat ->
  (I + 1 < f)%nat ->
  exists st',
    Sem.run_list (Sem.exec sizes f) ExCp.col_body st = Some st' /\
    Sem.calls st'
      = Sem.calls st
        ++ map Ex.cell_call
             (column_rows (I - 1) (Z.of_nat j) ++ quadrant_B j) /\
    Sem.vars st' "t_0_i" = Some 1 /\
    Sem.vars st' "t_0_i_loaded" = Some (fl + 1) /\
    keeps ["t_0_i"; "t_0_i_loaded"] st st'.
Proof.
  intros Hfl Hi Hj I HI Hf. unfold ExCp.col_body. cbn [Sem.run_list].
  destruct (cp_row_loop_exec f st fl i j Hfl Hi Hj HI Hf)
    as [s1 [He [Hc [Hi1 [Hfl1 Hk]]]]].
  fold I in Hc. rewrite He. cbn [bind].
  destruct f as [|f]; [lia|].
  assert (Hre : Sem.exec sizes (S f) ExCp.row_end s1
                = Some (Sem.mkState (Sem.upd "t_0_i" 1 (Sem.vars s1))
                          (Sem.calls s1))) by reflexivity.
  rewrite Hre. cbn [bind]. unfold ExCp.lock. rewrite exec_custom.
  cbn [bind].
  pose proof (foo_call_exec n f
                (Sem.mkState (Sem.upd "t_0_i" 1 (Sem.vars s1))
                   (Sem.calls s1)) 1 (Z.of_nat j)) as Hcall.
  fold sizes in Hcall. rewrite Hcall.
  - eexists. split; [reflexivity|]. cbn [Sem.vars Sem.calls].
    split.
    + rewrite Hc, map_app, <- app_assoc. reflexivity.
    + split; [apply upd_same|]. split.
      * rewrite upd_other by discriminate. exact Hfl1.
      * intros v Hv. cbn [Sem.vars].
        rewrite upd_other by (intros <-; apply Hv; now left).
        now apply Hk.
  - cbn [Sem.vars]. apply upd_same.
  - cbn [Sem.vars]. rewrite upd_other by discriminate.
    rewrite Hk by notin. exact Hj.
Qed.

Lemma cp_col_while_full (m : nat) (j : nat) (fuel : nat) (st : Sem.State)
    (fl : Z) (i : nat) :
  (j + m = n)%nat ->
  (2 * n + 4 < fuel)%nat ->
  Sem.vars st "t_0_j" = Some (Z.of_nat j) ->
  Sem.vars st "t_0_i_loaded" = Some fl -> 1 <= fl ->
  Sem.vars st "t_0_i" = Some (Z.of_nat i) ->
  exists st' fl' i',
    Sem.while sizes fuel ExCp.col_decl Ex.col_cond None ExCp.col_body st
      = Some st' /\
    Sem.calls st'
      = Sem.calls st
        ++ map Ex.cell_call
             (flat_map (fun j => quadrant_A j ++ quadrant_B j) (seq j m)) /\
    Sem.vars st' "t_0_i_loaded" = Some fl' /\ 1 <= fl' /\
    Sem.vars st' "t_0_i" = Some (Z.of_nat i').
Proof.
  intros Hjm Hfuel Hj Hfl Hpos Hi.
  destruct (while_rule sizes ExCp.col_decl Ex.col_cond None ExCp.col_body m
              (fun k s =>
                 Sem.vars s "t_0_j" = Some (Z.of_nat (j + k)) /\
                 (exists fl' i',
                    Sem.vars s "t_0_i_loaded" = Some fl' /\ 1 <= fl' /\
                    Sem.vars s "t_0_i" = Some (Z.of_nat i')) /\
                 Sem.calls s
                   = Sem.calls st
                     ++ map Ex.cell_call
                          (flat_map (fun j => quadrant_A j ++ quadrant_B j)
                             (seq j k)))
              (n + 3)%nat)
    with (st := st) (fuel := fuel)
    as [st' [Hw [_ [[fl' [i' [Hfl' [Hpos' Hi']]]] Hc']]]].
  - intros k s Hk [Hjk [[fl1 [i1 [Hfl1 [Hpos1 Hi1]]]] Hc]].
    exists 1. pose proof (col_cond_eval n (Sem.vars s) _ Hjk) as He.
    fold sizes in He. rewrite He.
    replace (Z.of_nat (j + k) <? Z.of_nat n) with true
      by (symmetry; apply Z.ltb_lt; lia).
    split; [reflexivity|]. split; [discriminate|].
    intros g Hg.
    destruct (cp_col_body_exec g s fl1 i1 (j + k) Hfl1 Hi1 Hjk)
      as [s1 [Hb [Hc1 [Hi2 [Hfl2 Hk1]]]]].
    + destruct (Z.eqb_spec fl1 0); lia.
    + destruct (Z.eqb_spec fl1 0); lia.
    + replace (fl1 =? 0) with false in Hc1
        by (symmetry; apply Z.eqb_neq; lia).
      rewrite Hb.
      assert (Hj1 : Sem.vars s1 "t_0_j" = Some (Z.of_nat (j + k)))
        by (rewrite Hk1 by notin; exact Hjk).
      eexists. eexists. split; [reflexivity|].
      unfold Sem.exec_inc, ExCp.col_decl. cbn [name].
      rewrite Hj1. cbn [bind]. split; [reflexivity|].
      cbn [Sem.vars Sem.calls]. rewrite upd_same.
      split; [f_equal; lia|]. split.
      * exists (fl1 + 1), 1%nat. rewrite !upd_other by discriminate.
        split; [exact Hfl2|]. split; [lia | exact Hi2].
      * rewrite Hc1, Hc, seq_S, flat_map_app, !map_app, <- !app_assoc.
        cbn [flat_map]. rewrite app_nil_r.
        replace (S (j + k) - 1)%nat with (j + k)%nat by lia.
        unfold quadrant_A. rewrite map_app. reflexivity.
  - intros s [Hjk _].
    pose proof (col_cond_eval n (Sem.vars s) _ Hjk) as He.
    fold sizes in He. rewrite He.
    replace (Z.of_nat (j + m) <? Z.of_nat n) with false
      by (symmetry; apply Z.ltb_ge; lia).
    reflexivity.
  - split; [rewrite Nat.add_0_r; exact Hj|]. split.
    + exists fl, i. auto.
    + simpl. now rewrite app_nil_r.
  - lia.
  - exists st', fl', i'. auto.
Qed.

(** the declaration of a flag: 1 where no checkpoint is loaded or the
    restored index is 0 *)
Lemma loaded_decl_exec (f : nat) (st : Sem.State) (v : string)
    (lc : Z) (x : nat) :
  Sem.strip_postinc v = None ->
  Sem.vars st "load_checkpoint" = Some lc ->
  Sem.vars st v = Some (Z.of_nat x) ->
  Sem.exec sizes (S f) (ExCp.loaded_decl v) st
  = Some (Sem.mkState
            (Sem.upd (v +++ "_loaded") (Sem.of_bool (ExCp.fresh lc x))
               (Sem.vars st))
            (Sem.calls st)).
Proof.
  intros Hs Hlc Hv. unfold ExCp.loaded_decl.
  change (Sem.exec sizes (S f) (SVar_Decl ?d) st)
    with (Sem.exec_decl sizes d st).
  unfold Sem.exec_decl. cbn [rhs name Sem.eval].
  change (Sem.strip_postinc "load_checkpoint") with (@None string).
  rewrite Hs, Hlc. cbn [bind]. rewrite Hv. cbn [bind].
  unfold ExCp.fresh.
  destruct (lc =? 0); destruct (Z.of_nat x =? 0); reflexivity.
Qed.

(** the last column: [col_end] and the statements after it *)
Lemma cp_last_column_exec (f : nat) (st : Sem.State) (fl : Z) (i : nat) :
  Sem.vars st "t_0_i_loaded" = Some fl ->
  Sem.vars st "t_0_i" = Some (Z.of_nat i) ->
  let I := if fl =? 0 then i else S n in
  (1 <= I)%nat ->
  (I + 2 < f)%nat ->
  exists st',
    Sem.run_list (Sem.exec sizes f) (ExCp.col_end :: ExCp.col_body) st
      = Some st' /\
    Sem.calls st'
      = Sem.calls st
        ++ map Ex.cell_call
             (column_rows (I - 1) (Z.of_nat n) ++ quadrant_B n).
Proof.
  intros Hfl Hi I HI Hf. destruct f as [|f]; [lia|].
  cbn [Sem.run_list].
  assert (Hend : Sem.exec sizes (S f) ExCp.col_end st
                 = Some (Sem.mkState
                           (Sem.upd "t_0_j" (Z.of_nat n) (Sem.vars st))
                           (Sem.calls st))) by reflexivity.
  rewrite Hend. cbn [bind].
  destruct (cp_col_body_exec (S f)
              (Sem.mkState (Sem.upd "t_0_j" (Z.of_nat n) (Sem.vars st))
                 (Sem.calls st)) fl i n)
    as [st' [He [Hc _]]].
  - cbn [Sem.vars]. rewrite upd_other by discriminate. exact Hfl.
  - cbn [Sem.vars]. rewrite upd_other by discriminate. exact Hi.
  - cbn [Sem.vars]. apply upd_same.
  - exact HI.
  - fold I. lia.
  - exists st'. split; [exact He | exact Hc].
Qed.

Lemma fresh_row (lc : Z) (i j : nat) :
  (1 <= ExCp.first_row lc i j)%nat /\
  (if Sem.of_bool (ExCp.fresh lc i) =? 0
   then i else S (ExCp.first_column lc j))
  = ExCp.first_row lc i j.
Proof.
  unfold ExCp.first_row, ExCp.fresh.
  destruct (lc =? 0); [simpl; split; [lia | reflexivity]|].
  destruct (Z.eqb_spec (Z.of_nat i) 0); simpl; split; try reflexivity; lia.
Qed.

Lemma cp_program_exec (lc : Z) (i0 j0 : nat) :
  (ExCp.first_column lc j0 <= n)%nat ->
  exists st,
    Sem.exec_list sizes (i0 + 2 * n + 10) ExCp.program
      (ExCp.start lc i0 j0) = Some st /\
    Sem.calls st = map Ex.cell_call (ExCp.resumed n lc i0 j0).
Proof.
  intros HJ. set (J := ExCp.first_column lc j0) in *.
  set (I := ExCp.first_row lc i0 j0).
  set (fi := Sem.of_bool (ExCp.fresh lc i0)).
  set (fj := Sem.of_bool (ExCp.fresh lc j0)).
  destruct (fresh_row lc i0 j0) as [HI HIeq]. fold I J fi in HI, HIeq.
  assert (Hfi : 0 <= fi)
    by (unfold fi; destruct (ExCp.fresh lc i0); simpl; lia).
  unfold Sem.exec_list, ExCp.program.
  replace (i0 + 2 * n + 10)%nat with (S (i0 + 2 * n + 9)) by lia.
  set (F := (i0 + 2 * n + 9)%nat).
  change [ExCp.loaded_decl "t_0_i"; ExCp.loaded_decl "t_0_j"; ExCp.col_loop;
          ExCp.col_end; ExCp.row_loop; ExCp.row_end; ExCp.lock; Ex.foo_call]
    with ([ExCp.loaded_decl "t_0_i"; ExCp.loaded_decl "t_0_j";
           ExCp.col_loop] ++ ExCp.col_end :: ExCp.col_body).
  rewrite run_list_app. set (tail := ExCp.col_end :: ExCp.col_body).
  cbn [Sem.run_list].
  rewrite (loaded_decl_exec F (ExCp.start lc i0 j0) "t_0_i" lc i0
             eq_refl eq_refl eq_refl).
  cbn [bind]. fold fi.
  change ("t_0_i" +++ "_loaded") with "t_0_i_loaded".
  rewrite (loaded_decl_exec F
             (Sem.mkState
                (Sem.upd "t_0_i_loaded" fi (Sem.vars (ExCp.start lc i0 j0)))
                (Sem.calls (ExCp.start lc i0 j0)))
             "t_0_j" lc j0 eq_refl eq_refl eq_refl).
  cbn [bind]. fold fj.
  change ("t_0_j" +++ "_loaded") with "t_0_j_loaded".
  cbn [Sem.vars Sem.calls].
  set (r2 := Sem.upd "t_0_j_loaded" fj
               (Sem.upd "t_0_i_loaded" fi (Sem.vars (ExCp.start lc i0 j0)))).
  (* the start of the column loop *)
  unfold ExCp.col_loop. rewrite exec_For.
  unfold Sem.exec_decl. cbn [rhs name ExCp.col_decl Sem.vars Sem.calls].
  rewrite eval_Cond.
  rewrite (eval_postinc sizes "t_0_j_loaded++" "t_0_j_loaded" fj r2 eq_refl
             (upd_same _ _ _)).
  cbn [bind].
  set (r3 := Sem.upd "t_0_j_loaded" (fj + 1) r2).
  assert (Hstart :
            (if fj =? 0 then Sem.eval sizes (Expr.Vacc "t_0_j") r3
             else Sem.eval sizes (Expr.Const 0) r3)
            = Some (Z.of_nat J, r3)).
  { unfold fj, J, ExCp.first_column.
    destruct (ExCp.fresh lc j0); reflexivity. }
  rewrite Hstart. cbn [bind].
  set (s3 := Sem.mkState (Sem.upd "t_0_j" (Z.of_nat J) r3)
               (Sem.calls (ExCp.start lc i0 j0))).
  assert (H3j : Sem.vars s3 "t_0_j" = Some (Z.of_nat J)) by apply upd_same.
  assert (H3f : Sem.vars s3 "t_0_i_loaded" = Some fi) by reflexivity.
  assert (H3i : Sem.vars s3 "t_0_i" = Some (Z.of_nat i0)) by reflexivity.
  assert (H3c : Sem.calls s3 = []) by reflexivity.
  clearbody s3. clear Hstart. unfold ExCp.resumed. fold J I.
  destruct (Nat.eq_dec J n) as [HJn | HJn].
  - (* resumed in the last column *)
    destruct F as [|F'] eqn:EF; [lia|].
    pose proof (col_cond_eval n (Sem.vars s3) _ H3j) as He.
    fold sizes in He. rewrite while_S, He.
    replace (Z.of_nat J <? Z.of_nat n) with false
      by (symmetry; apply Z.ltb_ge; lia).
    cbn [bind Sem.of_bool Z.eqb]. subst tail.
    destruct (cp_last_column_exec (S (S F'))
                (Sem.mkState (Sem.vars s3) (Sem.calls s3)) fi i0 H3f H3i)
      as [st [Hr Hc]].
    + rewrite <- HJn. rewrite HIeq. exact HI.
    + rewrite <- HJn. rewrite HIeq.
      assert (I <= i0 + S n)%nat; [|lia].
      unfold I, ExCp.first_row.
      destruct (ExCp.fresh lc i0); lia.
    + rewrite Hr. exists st. split; [reflexivity|].
      rewrite Hc. cbn [Sem.calls]. rewrite H3c. cbn [app].
      rewrite <- HJn, HIeq.
      replace (J - J)%nat with 0%nat by lia. cbn [seq flat_map].
      now rewrite app_nil_r.
  - (* resumed in an earlier column *)
    destruct F as [|F'] eqn:EF; [lia|].
    pose proof (col_cond_eval n (Sem.vars s3) _ H3j) as He.
    fold sizes in He. rewrite while_S, He.
    replace (Z.of_nat J <? Z.of_nat n) with true
      by (symmetry; apply Z.ltb_lt; lia).
    cbn [bind Sem.of_bool Z.eqb].
    destruct (cp_col_body_exec F'
                (Sem.mkState (Sem.vars s3) (Sem.calls s3)) fi i0 J H3f H3i
                H3j)
      as [s4 [Hb [Hc4 [Hi4 [Hf4 Hk4]]]]].
    + rewrite HIeq. exact HI.
    + rewrite HIeq.
      assert (I <= i0 + S n)%nat; [|lia].
      unfold I, ExCp.first_row. destruct (ExCp.fresh lc i0); lia.
    + rewrite HIeq in Hc4. rewrite Hb. cbn [bind].
      assert (H4j : Sem.vars s4 "t_0_j" = Some (Z.of_nat J))
        by (rewrite Hk4 by notin; exact H3j).
      unfold Sem.exec_inc. cbn [name ExCp.col_decl]. rewrite H4j.
      cbn [bind].
      destruct (cp_col_while_full (n - S J) (S J) F'
                  (Sem.mkState
                     (Sem.upd "t_0_j" (Z.of_nat J + 1) (Sem.vars s4))
                     (Sem.calls s4)) (fi + 1) 1)
        as [s5 [fl5 [i5 [Hw [Hc5 [Hf5 [Hp5 Hi5]]]]]]].
      * lia.
      * lia.
      * cbn [Sem.vars]. rewrite upd_same. f_equal. lia.
      * cbn [Sem.vars]. rewrite upd_other by discriminate. exact Hf4.
      * lia.
      * cbn [Sem.vars]. rewrite upd_other by discriminate. exact Hi4.
      * rewrite Hw. cbn [bind]. subst tail.
        destruct (cp_last_column_exec (S (S F')) s5 fl5 i5 Hf5 Hi5)
          as [st [Hr Hc]].
        -- destruct (Z.eqb_spec fl5 0); lia.
        -- destruct (Z.eqb_spec fl5 0); lia.
        -- replace (fl5 =? 0) with false in Hc
             by (symmetry; apply Z.eqb_neq; lia).
           rewrite Hr. exists st. split; [reflexivity|].
           rewrite Hc, Hc5. cbn [Sem.calls]. rewrite Hc4. cbn [Sem.calls].
           rewrite H3c. cbn [app].
           replace (n - J)%nat with (S (n - S J)) by lia.
           rewrite seq_S, flat_map_app. cbn [flat_map].
           rewrite app_nil_r.
           replace (S J + (n - S J))%nat with n by lia.
           replace (S n - 1)%nat with n by lia.
           unfold quadrant_A. rewrite !map_app, <- !app_assoc. reflexivity.
Qed.

End CheckpointCells.

(** X14: The flag declarations and the single-thread traversal with
    checkpointing, with the calls of a nonterminal with both indices in
    place, started with the indices [i] and [j] as a checkpoint restored
    them: for every sequence length [n >= j] the program runs to its end.
    An index counts as restored where a checkpoint is loaded and its value
    is not 0.  The calls start in the restored column, or in column 0, at the
    row below the restored row, or at the diagonal, and go on through all
    the later columns, the last included. *)
Theorem checkpoint_resume (n : nat) (load_checkpoint : Z) (i j : nat) :
  (j <= n)%nat ->
  exists prog fuel st,
    ExCp.singlethread_program [Ex.nt_foo] = Some prog /\
    Sem.exec_list (Ex.sizes (Z.of_nat n)) fuel prog
      (ExCp.start load_checkpoint i j) = Some st /\
    Sem.calls st
      = map (fun c => ("nt_tabulate_foo", [fst c; snd c]))
          (ExCp.resumed n load_checkpoint i j) /\
    ExCp.resumed n load_checkpoint i j
      = (let J := if (load_checkpoint =? 0) || (Z.of_nat j =? 0)
                  then 0%nat else j in
         let I := if (load_checkpoint =? 0) || (Z.of_nat i =? 0)
                  then S J else i in
         column_rows (I - 1) (Z.of_nat J) ++ [(0, Z.of_nat J)]
         ++ flat_map (fun j => quadrant_A j ++ quadrant_B j)
              (seq (S J) (n - J))).
Proof.
  intros Hj.
  destruct (cp_program_exec n load_checkpoint i j) as [st [He Hc]].
  - unfold ExCp.first_column. destruct (ExCp.fresh load_checkpoint j); lia.
  - exists ExCp.program, (i + 2 * n + 10)%nat, st.
    split; [exact checkpoint_program_eq|]. split; [exact He|].
    split; [exact Hc | reflexivity].
Qed.

Lemma checkpoint_resume_witness :
  (2 <= 3)%nat /\
  exists prog fuel st,
    ExCp.singlethread_program [Ex.nt_foo] = Some prog /\
    Sem.exec_list (Ex.sizes (Z.of_nat 3)) fuel prog (ExCp.start 1 2 2)
      = Some st /\
    Sem.calls st
      = map (fun c => ("nt_tabulate_foo", [fst c; snd c]))
          (ExCp.resumed 3 1 2 2) /\
    ExCp.resumed 3 1 2 2
      = [(1, 2); (0, 2); (3, 3); (2, 3); (1, 3); (0, 3)].
Proof.
  split; [lia|].
  destruct (checkpoint_resume 3 1 2 2) as [prog [fuel [st [Hp [He [Hc _]]]]]];
    [lia|].
  exists prog, fuel, st. split; [exact Hp|]. split; [exact He|].
  split; [exact Hc | reflexivity].
Defined.

(** X15: Where no checkpoint is loaded, the traversal with checkpointing calls
    the nonterminal on the same cells in the same order as the traversal
    without: whatever the indices hold at the start, for every sequence
    length. *)
Theorem checkpoint_not_loaded (n i j : nat) :
  exists prog fuel st,
    ExCp.singlethread_program [Ex.nt_foo] = Some prog /\
    Sem.exec_list (Ex.sizes (Z.of_nat n)) fuel prog (ExCp.start 0 i j)
      = Some st /\
    Sem.calls st
      = map (fun c => ("nt_tabulate_foo", [fst c; snd c])) (visited n).
Proof.
  destruct (cp_program_exec n 0 i j) as [st [He Hc]];
    [unfold ExCp.first_column, ExCp.fresh; simpl; lia|].
  exists ExCp.program, (i + 2 * n + 10)%nat, st.
  split; [exact checkpoint_program_eq|]. split; [exact He|].
  rewrite Hc, visited_columns. unfold ExCp.resumed. simpl ExCp.first_column.
  simpl ExCp.first_row. rewrite Nat.sub_0_r.
  change (seq 0 (S n)) with (0%nat :: seq 1 n). cbn [flat_map].
  unfold quadrant_A at 2. rewrite <- app_assoc. reflexivity.
Qed.

Lemma column_rows_split (k i : nat) (j : Z) :
  (i <= k)%nat ->
  column_rows k j
  = map (fun r => (Z.of_nat r, j)) (rev (seq (S i) (k - i)))
    ++ column_rows i j.
Proof.
  intros H. unfold column_rows.
  replace k with (i + (k - i))%nat at 1 by lia.
  rewrite seq_app, rev_app_distr, map_app. reflexivity.
Qed.

(** X16: Resumed from a checkpoint with the indices of a cell of the triangle
    (row index [i >= 1] as the row loop holds it, one above the row of the
    cell), the traversal calls the nonterminal first on that cell and then
    on all the cells that follow it in the order of the full traversal,
    and on no other. *)
Theorem checkpoint_resume_valid (n : nat) (load_checkpoint : Z)
    (i j : nat) :
  load_checkpoint <> 0 ->
  (1 <= i <= S j)%nat ->
  (j <= n)%nat ->
  exists prog fuel st pre cells,
    ExCp.singlethread_program [Ex.nt_foo] = Some prog /\
    Sem.exec_list (Ex.sizes (Z.of_nat n)) fuel prog
      (ExCp.start load_checkpoint i j) = Some st /\
    Sem.calls st
      = map (fun c => ("nt_tabulate_foo", [fst c; snd c])) cells /\
    visited n = pre ++ cells /\
    hd_error cells = Some (Z.of_nat i - 1, Z.of_nat j).
Proof.
  intros Hlc Hi Hj.
  assert (HJ : ExCp.first_column load_checkpoint j = j).
  { unfold ExCp.first_column, ExCp.fresh.
    apply Z.eqb_neq in Hlc. rewrite Hlc. cbn [orb].
    destruct (Z.eqb_spec (Z.of_nat j) 0); [lia | reflexivity]. }
  assert (HI : ExCp.first_row load_checkpoint i j = i).
  { unfold ExCp.first_row, ExCp.fresh.
    apply Z.eqb_neq in Hlc. rewrite Hlc. cbn [orb].
    destruct (Z.eqb_spec (Z.of_nat i) 0); [lia | reflexivity]. }
  destruct (cp_program_exec n load_checkpoint i j) as [st [He Hc]];
    [rewrite HJ; exact Hj|].
  exists ExCp.program, (i + 2 * n + 10)%nat, st,
    (flat_map (fun j => quadrant_A j ++ quadrant_B j) (seq 0 j)
     ++ map (fun r => (Z.of_nat r, Z.of_nat j))
          (rev (seq (S (i - 1)) (j - (i - 1))))),
    (ExCp.resumed n load_checkpoint i j).
  split; [exact checkpoint_program_eq|]. split; [exact He|].
  split; [exact Hc|]. unfold ExCp.resumed. rewrite HJ, HI. split.
  - rewrite visited_columns.
    replace (S n) with (j + S (n - j))%nat by lia.
    rewrite seq_app, flat_map_app. cbn [seq flat_map Nat.add].
    unfold quadrant_A at 2.
    rewrite (column_rows_split j (i - 1) (Z.of_nat j)) by lia.
    rewrite <- !app_assoc. reflexivity.
  - destruct (i - 1)%nat as [|k] eqn:Ek.
    + unfold column_rows, quadrant_B. simpl. do 3 f_equal. lia.
    + rewrite column_rows_S. simpl. do 3 f_equal. lia.
Qed.

Lemma checkpoint_resume_valid_witness :
  1 <> 0 /\ (1 <= 2 <= S 2)%nat /\ (2 <= 3)%nat /\
  exists prog fuel st pre cells,
    ExCp.singlethread_program [Ex.nt_foo] = Some prog /\
    Sem.exec_list (Ex.sizes (Z.of_nat 3)) fuel prog (ExCp.start 1 2 2)
      = Some st /\
    Sem.calls st
      = map (fun c => ("nt_tabulate_foo", [fst c; snd c])) cells /\
    visited 3 = pre ++ cells /\
    hd_error cells = Some (Z.of_nat 2 - 1, Z.of_nat 2).
Proof.
  split; [discriminate|]. split; [lia|]. split; [lia|].
  apply (checkpoint_resume_valid 3 1 2 2); [discriminate | lia | lia].
Defined.

(** ** [print_CYK] does not fail on a well-formed grammar *)

Lemma live_of_tracks_Some (nt : Symbol.NT) (ts : list nat) :
  (Symbol.tracks nt <= List.length (Symbol.tables nt))%nat ->
  (Symbol.tracks nt <= List.length (Symbol.left_indices nt))%nat ->
  (Symbol.tracks nt <= List.length (Symbol.right_indices nt))%nat ->
  Forall (fun t => (t < Symbol.tracks nt)%nat) ts ->
  exists live, live_of_tracks nt ts = Some live.
Proof.
  intros Ht Hl Hr H. induction H as [|t ts Hlt _ [live IH]]; simpl;
    [eauto|].
  unfold live_of_track.
  destruct (nth_error_lt (Symbol.tables nt) t) as [tab ->]; [lia|].
  destruct (nth_error_lt (Symbol.left_indices nt) t) as [li ->]; [lia|].
  destruct (nth_error_lt (Symbol.right_indices nt) t) as [ri ->]; [lia|].
  rewrite IH. simpl.
  destruct (delete_left_index tab); destruct (delete_right_index tab);
    simpl; eauto.
Qed.

Lemma nt_call_Some (nt : Symbol.NT) (lv : list string) :
  wf_nt nt -> exists c, nt_call nt lv = Some c.
Proof.
  intros Hwf. unfold nt_call.
  destruct (Symbol.is_tabulated nt) eqn:Et; simpl; [|eauto].
  destruct (Hwf Et) as [Ht [Hl [Hr Hc]]].
  rewrite nt_scan_all_live. unfold live_indices.
  destruct (live_of_tracks_Some nt (seq 0 (Symbol.tracks nt)) Ht Hl Hr)
    as [live ->].
  { apply Forall_forall. intros t Hin. apply in_seq in Hin. lia. }
  simpl.
  destruct (Nat.eqb (bound_count lv live) (List.length lv)); [|eauto].
  destruct (Symbol.code_list nt) as [|c cs] eqn:Ec; [contradiction|].
  simpl List.length. simpl Nat.ltb. simpl assert. cbn [bind].
  destruct (hd_error (rev (c :: cs))) eqn:Eh; simpl; [eauto|].
  exfalso. destruct (rev (c :: cs)) eqn:Er; [|discriminate].
  apply (f_equal (@List.length _)) in Er.
  rewrite length_rev in Er. simpl in Er. lia.
Qed.

Section CallsTotal.

Variable nts : list Symbol.NT.
Hypothesis wf_nts : Forall wf_nt nts.

Lemma nt_calls_Some (lv : list string) :
  exists c, nt_calls nts lv = Some c.
Proof.
  clear - wf_nts. induction nts as [|nt rest IH]; simpl; [eauto|].
  inversion wf_nts as [|? ? Hnt Hrest]; subst.
  destruct (nt_call_Some nt lv Hnt) as [c ->].
  destruct (IH Hrest) as [cs ->]. simpl. eauto.
Qed.

Lemma add_nts_Some (nested : bool) (lv : list string) (cp : bool)
    (mode : CYKmode) :
  exists c, add_nts nested lv nts cp mode = Some c.
Proof.
  unfold add_nts.
  destruct (CYKmode_eqb mode OPENMP_PARALLEL && nested); [eauto|].
  destruct (nt_calls_Some lv) as [c ->]. simpl. eauto.
Qed.

Lemma add_nt_calls_in_Some (cp : bool) (mode : CYKmode)
    (s : Statement.Base) :
  forall lv, exists s', add_nt_calls_in nts cp mode lv s = Some s'.
Proof.
  induction s as [d|a|vd c i body IH|b n args o|line|body IH]
    using Statement_ind_nested; intros lv; simpl; eauto.
  match goal with
  | |- context [bind (?each body) _] =>
      assert (He : exists body1, each body = Some body1)
  end.
  { induction IH as [|x r Hx _ IHr]; [eauto|].
    destruct (Hx (next_loop_vars mode lv vd)) as [x' ->].
    destruct IHr as [r' ->]. simpl. eauto. }
  destruct He as [body1 ->]. cbn [bind].
  destruct (add_nts_Some (existsb is_FOR body) (next_loop_vars mode lv vd)
              cp mode) as [new ->].
  simpl. eauto.
Qed.

Lemma add_nt_calls_each_Some (cp : bool) (mode : CYKmode)
    (lv : list string) (l : list Statement.Base) :
  exists l', add_nt_calls_each nts cp mode lv l = Some l'.
Proof.
  induction l as [|x r [r' IH]]; simpl; [eauto|].
  destruct (add_nt_calls_in_Some cp mode x lv) as [x' ->].
  rewrite IH. simpl. eauto.
Qed.

Lemma add_nt_calls_Some (stmts : list Statement.Base) (lv : list string)
    (cp : bool) (mode : CYKmode) :
  exists r, add_nt_calls stmts lv nts cp mode = Some r.
Proof.
  unfold add_nt_calls.
  destruct (add_nt_calls_each_Some cp mode lv stmts) as [l' ->].
  destruct (add_nts_Some (existsb is_FOR stmts) lv cp mode) as [new ->].
  simpl. eauto.
Qed.

End CallsTotal.

Lemma multithread_parallel_Some (ast : AST) (sq tile_size : Var_Decl)
    (name_maxtilen : string) (cp : bool) :
  wf_tracks ast ->
  (1 <= Symbol.tracks (axiom (grammar ast)))%nat ->
  exists st,
    cyk_traversal_multithread_parallel ast sq tile_size name_maxtilen cp
      = Some st.
Proof.
  intros [_ [Hl Hr]] Ht. unfold cyk_traversal_multithread_parallel.
  destruct (nth_error_lt (right_running_indices (grammar ast)) 0)
    as [rri ->]; [lia|].
  destruct (nth_error_lt (left_running_indices (grammar ast)) 0)
    as [lri ->]; [lia|].
  cbn [bind].
  repeat match goal with
  | |- context [get_for_row ?rb ?s ?e ?c ?m] =>
      let vd := fresh "vd" in let cc := fresh "c" in let i := fresh "i" in
      destruct (get_for_row_Some rb s e c m) as [vd [cc [i [-> _]]]];
      cbn [bind]
  | |- context [get_for_column ?rb ?s ?e ?c ?m] =>
      let vd := fresh "vd" in let cc := fresh "c" in
      destruct (get_for_column_Some rb s e c m) as [vd [cc [-> _]]];
      cbn [bind]
  end.
  eauto.
Qed.

(** *** The generator without the undefined step *)

Lemma add_nt_calls_in_strict_For (nts : list Symbol.NT) (cp : bool)
    (mode : CYKmode) (lv : list string) (vd : Var_Decl) (c : Expr.Base)
    (i : option Var_Assign) (body : list Statement.Base) :
  add_nt_calls_in_strict nts cp mode lv (For vd c i body)
  = ('(body', new_stmts) <-
       add_nt_calls_strict body (next_loop_vars mode lv vd) nts cp mode ;;
     Some (For vd c i (body' ++ new_stmts))).
Proof.
  unfold add_nt_calls_strict. simpl.
  match goal with
  | |- bind ?m _ = _ =>
      replace m
        with (add_nt_calls_each_strict nts cp mode
                (next_loop_vars mode lv vd) body)
  end.
  - destruct (add_nt_calls_each_strict nts cp mode
                (next_loop_vars mode lv vd) body) as [b1|]; [|reflexivity].
    simpl. destruct (prune_scan b1); [|reflexivity]. simpl.
    destruct (add_nts (existsb is_FOR body) (next_loop_vars mode lv vd)
                nts cp mode); reflexivity.
  - induction body as [|x body IH]; simpl; [reflexivity|].
    now rewrite IH.
Qed.

Lemma add_nt_calls_strict_agrees (nts : list Symbol.NT) (cp : bool)
    (mode : CYKmode) (s : Statement.Base) :
  forall lv s',
  add_nt_calls_in_strict nts cp mode lv s = Some s' ->
  add_nt_calls_in nts cp mode lv s = Some s'.
Proof.
  induction s as [d|a|vd c i body IH|b n args o|line|body IH]
    using Statement_ind_nested; intros lv s' H; try exact H.
  rewrite add_nt_calls_in_strict_For in H. rewrite add_nt_calls_in_For.
  unfold add_nt_calls_strict in H. unfold add_nt_calls.
  inv_bind H. destruct x as [b2 new]. inv_bind E. rename x into b1.
  inv_bind E. rename x into b2'. inv_bind E. injection E as <- <-.
  assert (He : forall l l1,
            Forall (fun s => forall lv s',
                      add_nt_calls_in_strict nts cp mode lv s = Some s' ->
                      add_nt_calls_in nts cp mode lv s = Some s') l ->
            forall lv,
            add_nt_calls_each_strict nts cp mode lv l = Some l1 ->
            add_nt_calls_each nts cp mode lv l = Some l1).
  { clear. intros l. induction l as [|x r IHr]; intros l1 Hf lv H;
      [exact H|].
    inversion Hf as [|? ? Hx Hr]; subst. simpl in H |- *.
    inv_bind H. inv_bind H. injection H as <-.
    rewrite (Hx _ _ E), (IHr _ Hr _ E0). reflexivity. }
  rewrite (He _ _ IH _ E0). cbn [bind]. rewrite E2. cbn [bind].
  destruct (prune_scan_prune _ _ E1) as [-> _]. exact H.
Qed.

Lemma add_nt_calls_each_strict_agrees (nts : list Symbol.NT) (cp : bool)
    (mode : CYKmode) (lv : list string) (l : list Statement.Base) :
  forall l1,
  add_nt_calls_each_strict nts cp mode lv l = Some l1 ->
  add_nt_calls_each nts cp mode lv l = Some l1.
Proof.
  induction l as [|x r IH]; intros l1 H; [exact H|].
  simpl in H |- *. inv_bind H. inv_bind H. injection H as <-.
  rewrite (add_nt_calls_strict_agrees _ _ _ _ _ _ E), (IH _ E0).
  reflexivity.
Qed.

Lemma add_nt_calls_strict_calls (stmts : list Statement.Base)
    (lv : list string) (nts : list Symbol.NT) (cp : bool) (mode : CYKmode)
    (r : list Statement.Base * list Statement.Base) :
  add_nt_calls_strict stmts lv nts cp mode = Some r ->
  add_nt_calls stmts lv nts cp mode = Some r.
Proof.
  unfold add_nt_calls_strict, add_nt_calls. intros H.
  inv_bind H. inv_bind H. inv_bind H. injection H as <-.
  rewrite (add_nt_calls_each_strict_agrees _ _ _ _ _ _ E). cbn [bind].
  rewrite E1. cbn [bind].
  destruct (prune_scan_prune _ _ E0) as [-> _]. reflexivity.
Qed.

Lemma print_CYK_strict_agrees (ast : AST) (fn : Fn_Def) :
  print_CYK_strict ast = Some fn -> print_CYK ast = Some fn.
Proof.
  unfold print_CYK_strict, print_CYK. intros H.
  destruct (negb (cyk ast)); [exact H|].
  inv_bind H. inv_bind H. inv_bind H. rewrite E, E0. cbn [bind].
  assert (Ho : (if Nat.eqb (Symbol.tracks (axiom (grammar ast))) 1
                then print_CYK_openmp ast else Some []) = Some x1).
  { destruct (Nat.eqb (Symbol.tracks (axiom (grammar ast))) 1);
      [|exact E1].
    unfold print_CYK_openmp_strict in E1. unfold print_CYK_openmp.
    destruct (hd_error (rev (seq_decls ast))) as [sq|]; [|discriminate].
    cbn [bind] in E1 |- *.
    destruct (cyk_traversal_multithread_parallel ast sq
                (snd (get_tile_computation ast "max_tiles_n" sq false))
                "max_tiles_n" (checkpoint_cyk ast)) as [pst|];
      [|discriminate].
    cbn [bind] in E1 |- *.
    destruct (add_nt_calls_strict pst [] (topological_ord (grammar ast))
                (checkpoint_cyk ast) OPENMP_PARALLEL)
      as [[p1 p2]|] eqn:Ep; [|discriminate].
    rewrite (add_nt_calls_strict_calls _ _ _ _ _ _ Ep).
    cbn [bind] in E1 |- *.
    destruct (cyk_traversal_singlethread ast OPENMP_SERIAL) as [sst|];
      [|discriminate].
    cbn [bind] in E1 |- *.
    destruct (add_nt_calls_strict sst [] (topological_ord (grammar ast))
                (checkpoint_cyk ast) OPENMP_SERIAL)
      as [[s1 s2]|] eqn:Es; [|discriminate].
    rewrite (add_nt_calls_strict_calls _ _ _ _ _ _ Es). exact E1. }
  rewrite Ho. exact H.
Qed.

(** *** Lists without an empty loop *)

Lemma prune_pass_all_live (l : list Statement.Base) :
  Forall (fun s => dead_loop s = false) l -> prune_pass l = (l, false).
Proof.
  induction 1 as [|s l Hs _ IH]; simpl; [reflexivity|].
  rewrite Hs, IH. reflexivity.
Qed.

Lemma fold_counts (l : list Statement.Base) :
  forall res,
  fold_left (fun res s => (res + counts s)%nat) l res
  = (res + list_sum (map counts l))%nat.
Proof.
  induction l as [|x l IH]; intros res; simpl; [lia|].
  rewrite IH. lia.
Qed.

Lemma live_loop (vd : Var_Decl) (c : Expr.Base) (i : option Var_Assign)
    (body : list Statement.Base) :
  (1 <= list_sum (map counts body))%nat ->
  dead_loop (For vd c i body) = false.
Proof.
  intros H. unfold dead_loop, count_nt_calls_and_loops. cbn [is_FOR andb].
  rewrite fold_counts. apply Nat.eqb_neq. lia.
Qed.

Lemma counts_loop (l : list Statement.Base) :
  existsb is_FOR l = true -> (1 <= list_sum (map counts l))%nat.
Proof.
  induction l as [|x l IH]; simpl; [discriminate|].
  intros H. apply orb_true_iff in H. destruct H as [H | H].
  - unfold counts. rewrite H. destruct x; simpl; lia.
  - specialize (IH H). lia.
Qed.

(** *** The serial closure never takes the undefined step *)

Section StrictTotal.

Variable nts : list Symbol.NT.
Hypothesis wf_nts : Forall wf_nt nts.
Variable cp : bool.

Lemma paired_each_strict (mode : CYKmode) (l : list Statement.Base) :
  paired l ->
  forall lv, exists l1,
    add_nt_calls_each_strict nts cp mode lv l = Some l1 /\
    separated l1 = true.
Proof.
  induction 1 as [|vd c i body d l Hb IHb Hl IHl]; intros lv.
  - exists []. split; reflexivity.
  - cbn [add_nt_calls_each_strict].
    rewrite add_nt_calls_in_strict_For. unfold add_nt_calls_strict.
    destruct (IHb (next_loop_vars mode lv vd)) as [b1 [Eb Sb]].
    rewrite Eb. cbn [bind].
    unfold prune_scan. rewrite (prune_pass_separated b1 Sb). cbn [bind].
    destruct (add_nts_Some nts wf_nts (existsb is_FOR body)
                (next_loop_vars mode lv vd) cp mode) as [new ->].
    cbn [bind].
    destruct (IHl lv) as [l1 [El Sl]].
    cbn [add_nt_calls_in_strict]. rewrite El. cbn [bind].
    eexists. split; [reflexivity|].
    cbn [separated]. rewrite Sl.
    replace (dead_loop (SVar_Decl d)) with false by reflexivity.
    cbn [negb]. rewrite orb_true_r. reflexivity.
Qed.

Lemma paired_strict (mode : CYKmode) (l : list Statement.Base)
    (lv : list string) :
  paired l ->
  exists r, add_nt_calls_strict l lv nts cp mode = Some r.
Proof.
  intros Hp. unfold add_nt_calls_strict.
  destruct (paired_each_strict mode l Hp lv) as [l1 [-> Sl]].
  cbn [bind]. unfold prune_scan. rewrite (prune_pass_separated l1 Sl).
  cbn [bind].
  destruct (add_nts_Some nts wf_nts (existsb is_FOR l) lv cp mode)
    as [new ->].
  cbn [bind]. eauto.
Qed.

(** *** The tiled phase with a call in its innermost loops *)

Variable target : list string.
Hypothesis target_call :
  exists c, nt_calls nts target = Some c /\
            (1 <= list_sum (map counts c))%nat.

Lemma nest_strict (s : Statement.Base) :
  forall lv,
  nest target lv s = true ->
  exists s',
    add_nt_calls_in_strict nts cp OPENMP_PARALLEL lv s = Some s' /\
    is_FOR s' = is_FOR s /\
    dead_loop s' = false.
Proof.
  induction s as [d|a|vd c i body IH|b n args o|line|body IH]
    using Statement_ind_nested; intros lv Hn;
    try (eexists; split; [reflexivity|]; split; reflexivity).
  cbn [nest] in Hn. apply andb_true_iff in Hn. destruct Hn as [Hb Hi].
  set (next := next_loop_vars OPENMP_PARALLEL lv vd) in *.
  assert (He : exists b1,
             add_nt_calls_each_strict nts cp OPENMP_PARALLEL next body
               = Some b1 /\
             existsb is_FOR b1 = existsb is_FOR body /\
             Forall (fun s => dead_loop s = false) b1).
  { clear Hi. induction IH as [|x r Hx _ IHr].
    - exists []. repeat split. constructor.
    - cbn [forallb] in Hb. apply andb_true_iff in Hb.
      destruct Hb as [Hx1 Hr1].
      destruct (Hx next Hx1) as [x' [Ex [Fx Dx]]].
      destruct (IHr Hr1) as [r' [Er [Fr Dr]]].
      exists (x' :: r'). cbn [add_nt_calls_each_strict].
      rewrite Ex, Er. cbn [bind existsb]. rewrite Fx, Fr.
      repeat split. now constructor. }
  destruct He as [b1 [Eb [Fb Db]]].
  rewrite add_nt_calls_in_strict_For. unfold add_nt_calls_strict.
  fold next. rewrite Eb. cbn [bind].
  unfold prune_scan. rewrite (prune_pass_all_live b1 Db). cbn [bind].
  unfold add_nts. cbn [CYKmode_eqb andb].
  destruct (existsb is_FOR body) eqn:Ef.
  - cbn [bind]. eexists. split; [reflexivity|]. split; [reflexivity|].
    apply live_loop. rewrite app_nil_r. apply counts_loop. exact Fb.
  - cbn [orb] in Hi.
    destruct (list_eq_dec string_dec next target) as [Et|]; [|discriminate].
    destruct target_call as [calls [Ec Hc]].
    rewrite Et, Ec. cbn [bind].
    replace (cp && false) with false by (destruct cp; reflexivity).
    destruct cp; cbn [app]; (eexists; split; [reflexivity|];
      split; [reflexivity|]; apply live_loop;
      rewrite !map_app, !list_sum_app; lia).
Qed.

Lemma nest_all_strict (l : list Statement.Base) (lv : list string) :
  forallb (nest target lv) l = true ->
  existsb is_FOR l = true ->
  exists r, add_nt_calls_strict l lv nts cp OPENMP_PARALLEL = Some r.
Proof.
  intros Hn Hf. unfold add_nt_calls_strict.
  assert (He : exists l1,
             add_nt_calls_each_strict nts cp OPENMP_PARALLEL lv l
               = Some l1 /\
             Forall (fun s => dead_loop s = false) l1).
  { clear Hf. induction l as [|x r IHr].
    - exists []. split; [reflexivity | constructor].
    - cbn [forallb] in Hn. apply andb_true_iff in Hn.
      destruct Hn as [Hx Hr].
      destruct (nest_strict x lv Hx) as [x' [Ex [_ Dx]]].
      destruct (IHr Hr) as [r' [Er Dr]].
      exists (x' :: r'). cbn [add_nt_calls_each_strict].
      rewrite Ex, Er. split; [reflexivity | now constructor]. }
  destruct He as [l1 [-> Dl]]. cbn [bind].
  unfold prune_scan. rewrite (prune_pass_all_live l1 Dl). cbn [bind].
  unfold add_nts. rewrite Hf. cbn [CYKmode_eqb andb bind]. eauto.
Qed.

End StrictTotal.

Lemma multithread_parallel_nest (ast : AST) (sq tile_size : Var_Decl)
    (name_maxtilen : string) (cp : bool) (li ri : string)
    (st : list Statement.Base) :
  nth_error (left_running_indices (grammar ast)) 0 = Some li ->
  nth_error (right_running_indices (grammar ast)) 0 = Some ri ->
  String.prefix "t_" li = true ->
  String.prefix "t_" ri = true ->
  cyk_traversal_multithread_parallel ast sq tile_size name_maxtilen cp
    = Some st ->
  forallb (nest [ri; li] []) st = true /\ existsb is_FOR st = true.
Proof.
  intros Hl Hr Pl Pr H. unfold cyk_traversal_multithread_parallel in H.
  rewrite Hr, Hl in H. cbn [bind] in H.
  unfold get_for_row, get_for_column, new_CYKloop, get_for_openMP in H.
  cbn [loop_var_decl bind name andb negb CYKmode_eqb] in H.
  rewrite !String.eqb_refl in H.
  cbn [assert bind loop push_statements app] in H.
  assert (Hn1 : forall lv t s,
            next_loop_vars OPENMP_PARALLEL lv (mkVar_Decl t ri s)
            = lv ++ [ri]).
  { intros. unfold next_loop_vars. cbn [name negb CYKmode_eqb orb].
    now rewrite Pr. }
  assert (Hn2 : forall lv t s,
            next_loop_vars OPENMP_PARALLEL lv (mkVar_Decl t li s)
            = lv ++ [li]).
  { intros. unfold next_loop_vars. cbn [name negb CYKmode_eqb orb].
    now rewrite Pl. }
  assert (Hz : forall lv t s,
            next_loop_vars OPENMP_PARALLEL lv (mkVar_Decl t "z" s) = lv)
    by reflexivity.
  assert (Hy : forall lv t s,
            next_loop_vars OPENMP_PARALLEL lv (mkVar_Decl t "y" s) = lv)
    by reflexivity.
  assert (Ht : (if list_eq_dec string_dec [ri; li] [ri; li]
                then true else false) = true)
    by (destruct (list_eq_dec string_dec [ri; li] [ri; li]);
        [reflexivity | contradiction]).
  destruct cp; cbn [push_statements app andb negb] in H;
    injection H as <-;
    cbn [forallb nest existsb is_FOR andb orb app];
    rewrite ?Hz, ?Hy, ?Hn1, ?Hn2; cbn [app];
    rewrite ?Hz, ?Hy, ?Hn1, ?Hn2; cbn [app];
    rewrite ?Ht; split; reflexivity.
Qed.

Lemma quadratic_target (nts : list Symbol.NT) (li ri : string)
    (nt : Symbol.NT) (fname : string) :
  Forall wf_nt nts ->
  In nt nts ->
  Symbol.is_tabulated nt = true ->
  live_indices nt = Some [(true, li); (false, ri)] ->
  hd_error (rev (Symbol.code_list nt)) = Some fname ->
  String.prefix "nt_tabulate_" fname = true ->
  exists c, nt_calls nts [ri; li] = Some c /\
            (1 <= list_sum (map counts c))%nat.
Proof.
  intros Hwf Hin Ht Hl Hc Hp.
  assert (Hcall : exists args,
            nt_call nt [ri; li] = Some [Fn_Call NONE fname args false]).
  { unfold nt_call. rewrite Ht, nt_scan_all_live, Hl. cbn [negb bind].
    unfold bound_count, in_loop_vars.
    cbn [filter snd existsb used_indices scan_args List.length].
    rewrite !String.eqb_refl, !orb_true_r. cbn [orb List.length Nat.eqb].
    destruct (Symbol.code_list nt) as [|c0 cs] eqn:Ec; [discriminate|].
    cbn [List.length Nat.ltb Nat.leb assert bind]. rewrite Hc.
    cbn [bind]. eauto. }
  destruct Hcall as [args Hcall].
  induction nts as [|x rest IH]; [contradiction|].
  inversion Hwf as [|? ? Hx Hrest]; subst. cbn [nt_calls].
  destruct Hin as [-> | Hin].
  - rewrite Hcall. cbn [bind].
    destruct (nt_calls_Some rest Hrest [ri; li]) as [cs ->]. cbn [bind].
    eexists. split; [reflexivity|].
    cbn [app map list_sum fold_right]. unfold counts at 1.
    cbn [is_FOR]. rewrite Hp. lia.
  - destruct (nt_call_Some x [ri; li] Hx) as [c ->]. cbn [bind].
    destruct (IH Hrest Hin) as [cs [-> Hcs]]. cbn [bind].
    eexists. split; [reflexivity|].
    rewrite map_app, list_sum_app. lia.
Qed.

(** X17: [print_CYK] returns the function "cyk" for every grammar that has a
    sequence and both running indices for each track of its axiom, whose
    tabulated nonterminals have code, a table and both indices for each of
    their tracks and, where the axiom has one track, one of them keeps the
    loops of the tiled phase: no assertion of the generator fails, no index
    is out of range and no pruning loop erases the last statement of its
    list, with or without checkpointing, in inside and in outside mode. *)
Theorem print_CYK_total (ast : AST) :
  wf_tracks ast ->
  Forall wf_nt (topological_ord (grammar ast)) ->
  (Symbol.tracks (axiom (grammar ast)) = 1%nat -> quadratic_call ast) ->
  exists fn,
    print_CYK_strict ast = Some fn /\
    print_CYK ast = Some fn /\
    fn_name fn = "cyk" /\ return_type fn = Ty.RealVoid.
Proof.
  intros Hwf Hnts Hq.
  assert (Hs : exists fn,
             print_CYK_strict ast = Some fn /\
             fn_name fn = "cyk" /\ return_type fn = Ty.RealVoid).
  { unfold print_CYK_strict.
    destruct (cyk ast); simpl negb; cbv iota; [|simpl; eauto].
    assert (Hd : exists decls,
               (if checkpoint_cyk ast
                then loaded_decls ast
                       (seq 0 (Symbol.tracks (axiom (grammar ast))))
                else Some []) = Some decls).
    { destruct (checkpoint_cyk ast); [|eauto].
      apply loaded_decls_Some; [exact Hwf|].
      apply Forall_forall. intros t Hin. apply in_seq in Hin. lia. }
    destruct Hd as [decls ->]. cbn [bind].
    destruct (cyk_traversal_singlethread_Some ast Hwf
                (if outside_generation ast then SINGLETHREAD_OUTSIDE
                 else SINGLETHREAD)) as [stmts ->].
    cbn [bind].
    destruct (Nat.eqb_spec (Symbol.tracks (axiom (grammar ast))) 1)
      as [E1|_]; [|simpl; eauto].
    destruct (Hq E1)
      as [li [ri [nt [fname [Hl [Hr [Pl [Pr [Hin [Ht [Hlive [Hc Hp]]]]]]]]]]]].
    unfold print_CYK_openmp_strict.
    destruct (hd_error (rev (seq_decls ast))) as [sq|] eqn:Es.
    2:{ exfalso. destruct (rev (seq_decls ast)) eqn:Er; [|discriminate].
        apply (f_equal (@List.length _)) in Er. rewrite length_rev in Er.
        destruct Hwf as [Hsq _]. simpl in Er. lia. }
    cbn [bind].
    destruct (multithread_parallel_Some ast sq
                (snd (get_tile_computation ast "max_tiles_n" sq false))
                "max_tiles_n" (checkpoint_cyk ast) Hwf ltac:(lia))
      as [pst Hpst].
    rewrite Hpst. cbn [bind].
    destruct (multithread_parallel_nest ast sq _ _ _ li ri pst Hl Hr Pl Pr
                Hpst) as [Hnest Hfor].
    destruct (nest_all_strict (topological_ord (grammar ast))
                (checkpoint_cyk ast) [ri; li]
                (quadratic_target _ li ri nt fname Hnts Hin Ht Hlive Hc Hp)
                pst [] Hnest Hfor) as [[p1 p2] ->].
    cbn [bind].
    destruct (cyk_traversal_singlethread_Some ast Hwf OPENMP_SERIAL)
      as [sst Hsst].
    rewrite Hsst. cbn [bind].
    assert (Hpaired : paired sst).
    { unfold cyk_traversal_singlethread in Hsst. inv_bind Hsst.
      eapply cyk_traversal_tracks_paired; [| constructor | exact Hsst].
      reflexivity. }
    destruct (paired_strict (topological_ord (grammar ast)) Hnts
                (checkpoint_cyk ast) OPENMP_SERIAL sst [] Hpaired)
      as [[s1 s2] ->].
    cbn [bind]. eexists. split; [reflexivity|]. split; reflexivity. }
  destruct Hs as [fn [Hfn [Hname Hret]]].
  exists fn. split; [exact Hfn|].
  split; [exact (print_CYK_strict_agrees ast fn Hfn)|].
  split; [exact Hname | exact Hret].
Qed.

Lemma print_CYK_total_witness :
  exists fn,
    print_CYK_strict (Ex.ast1 [Ex.nt_foo; Ex.nt_bar; Ex.nt_baz] true)
      = Some fn /\
    print_CYK (Ex.ast1 [Ex.nt_foo; Ex.nt_bar; Ex.nt_baz] true) = Some fn /\
    fn_name fn = "cyk" /\ return_type fn = Ty.RealVoid.
Proof.
  apply (print_CYK_total (Ex.ast1 [Ex.nt_foo; Ex.nt_bar; Ex.nt_baz] true)).
  - repeat split.
  - simpl.
    assert (H : forall t c, wf_nt (Symbol.mkNT true 1 [t] ["t_0_i"]
                                     ["t_0_j"] [c]
                                     [Yield.mkSize (Yield.Num 0) Yield.UP])).
    { intros t c _. simpl. repeat split; try lia. discriminate. }
    repeat (apply Forall_cons; [apply H|]). apply Forall_nil.
  - intros _. exists "t_0_i", "t_0_j", Ex.nt_foo, "nt_tabulate_foo".
    repeat split. now left.
Defined.

(** ** The OpenMP version and a linear table *)

Lemma linear_tiled_program_eq (tile_macro : option Z) :
  option_map (preprocess_all (macro_defined tile_macro))
    (print_CYK_openmp_strict (Ex.ast1 [Ex.nt_foo; Ex.nt_bar] false))
  = Some (ExLinOmp.program tile_macro).
Proof. destruct tile_macro; vm_compute; reflexivity. Qed.

Lemma filter_flat_map {A B : Type} (p : B -> bool) (g : A -> list B)
    (l : list A) :
  filter p (flat_map g l) = flat_map (fun x => filter p (g x)) l.
Proof.
  induction l as [|x l IH]; [reflexivity|].
  cbn [flat_map]. rewrite filter_app, IH. reflexivity.
Qed.

Lemma flat_map_singleton {A B : Type} (g : A -> B) (l : list A) :
  flat_map (fun x => [g x]) l = map g l.
Proof. induction l as [|x l IH]; [reflexivity|]. cbn. now rewrite IH. Qed.

Lemma map_flat_map {A B C : Type} (h : B -> C) (g : A -> list B)
    (l : list A) :
  map h (flat_map g l) = flat_map (fun x => map h (g x)) l.
Proof.
  induction l as [|x l IH]; [reflexivity|].
  cbn [flat_map]. rewrite map_app, IH. reflexivity.
Qed.

Lemma cells_no_bar (l : list (Z * Z)) :
  filter ExLinOmp.is_bar (map Ex.cell_call l) = [].
Proof. induction l as [|c l IH]; [reflexivity|]. cbn. exact IH. Qed.

Lemma cells_not_bar (l : list (Z * Z)) :
  filter (fun c => negb (ExLinOmp.is_bar c)) (map Ex.cell_call l)
  = map Ex.cell_call l.
Proof. induction l as [|c l IH]; [reflexivity|]. cbn. now rewrite IH. Qed.

Lemma column_calls_bar (j : nat) :
  filter ExLinOmp.is_bar (ExLinOmp.column_calls j) = [ExLin.bar j].
Proof.
  unfold ExLinOmp.column_calls. rewrite filter_app, cells_no_bar.
  reflexivity.
Qed.

Lemma column_calls_cells (j : nat) :
  filter (fun c => negb (ExLinOmp.is_bar c)) (ExLinOmp.column_calls j)
  = map Ex.cell_call (quadrant_A j ++ quadrant_B j).
Proof.
  unfold ExLinOmp.column_calls. rewrite filter_app, cells_not_bar.
  cbn. apply app_nil_r.
Qed.

Lemma mixed_visited_bar (n t : nat) :
  filter ExLinOmp.is_bar (ExLinOmp.visited n t)
  = map ExLin.bar (seq (n / t * t) (n - n / t * t) ++ [n]).
Proof.
  unfold ExLinOmp.visited.
  rewrite !filter_app, cells_no_bar, filter_flat_map, column_calls_bar.
  cbn [app].
  rewrite (flat_map_ext _ (fun j => [ExLin.bar j]))
    by (intros j; apply column_calls_bar).
  rewrite flat_map_singleton, map_app. reflexivity.
Qed.

Lemma mixed_visited_cells (n t : nat) :
  filter (fun c => negb (ExLinOmp.is_bar c)) (ExLinOmp.visited n t)
  = map Ex.cell_call (ExTile.visited n t).
Proof.
  unfold ExLinOmp.visited, ExTile.visited, ExTile.serial_cells.
  rewrite !filter_app, cells_not_bar, filter_flat_map, column_calls_cells.
  rewrite (flat_map_ext _
             (fun j => map Ex.cell_call (quadrant_A j ++ quadrant_B j)))
    by (intros j; apply column_calls_cells).
  rewrite <- map_flat_map. rewrite !map_app, <- !app_assoc. reflexivity.
Qed.

Section LinearTiles.

Variables n tn : nat.
Hypothesis tn_pos : (1 <= tn)%nat.
Variable tile_macro : option Z.
Hypothesis tile_value : effective_tile_size tile_macro = Z.of_nat tn.

Let sizes : string -> option Z := Ex.sizes (Z.of_nat n).
Let m : nat := (n / tn)%nat.

Lemma mixed_col_body_exec (j f : nat) (st : Sem.State) :
  (j + 1 < f)%nat ->
  Sem.vars st "t_0_j" = Some (Z.of_nat j) ->
  exists st',
    Sem.run_list (Sem.exec sizes f) ExLinOmp.col_body st = Some st' /\
    Sem.calls st' = Sem.calls st ++ ExLinOmp.column_calls j /\
    Sem.vars st' "t_0_j" = Some (Z.of_nat j).
Proof.
  intros Hf Hj. unfold ExLinOmp.col_body. rewrite run_list_app.
  destruct (col_body_exec n j f st Hf Hj) as [s1 [He [Hc1 Hj1]]].
  fold sizes in He. rewrite He. cbn [bind Sem.run_list].
  destruct f as [|f]; [lia|].
  pose proof (bar_call_exec n f j s1 Hj1) as Hb. fold sizes in Hb.
  rewrite Hb. cbn [bind]. eexists. split; [reflexivity|].
  cbn [Sem.calls Sem.vars]. split; [|exact Hj1].
  rewrite Hc1. unfold ExLinOmp.column_calls. rewrite <- app_assoc.
  reflexivity.
Qed.

Lemma mixed_col_while (k : nat) :
  forall (fuel : nat) (st : Sem.State) (j : nat),
  (j + k = n)%nat ->
  (n + k + 1 < fuel)%nat ->
  Sem.vars st "t_0_j" = Some (Z.of_nat j) ->
  exists st',
    Sem.while sizes fuel Ex.col_decl Ex.col_cond None ExLinOmp.col_body st
      = Some st' /\
    Sem.calls st'
      = Sem.calls st ++ flat_map ExLinOmp.column_calls (seq j k) /\
    Sem.vars st' "t_0_j" = Some (Z.of_nat n).
Proof.
  induction k as [|k IH]; intros fuel st j Hjk Hfuel Hj.
  - destruct fuel as [|f]; [lia|].
    pose proof (col_cond_eval n (Sem.vars st) _ Hj) as Hc.
    fold sizes in Hc. rewrite while_S, Hc. cbn [bind].
    replace (Z.of_nat j <? Z.of_nat n) with false
      by (symmetry; apply Z.ltb_ge; lia).
    cbn [Sem.of_bool Z.eqb]. eexists. split; [reflexivity|].
    cbn [Sem.calls Sem.vars seq flat_map]. rewrite app_nil_r.
    split; [reflexivity|]. rewrite Hj. f_equal. lia.
  - destruct fuel as [|f]; [lia|].
    pose proof (col_cond_eval n (Sem.vars st) _ Hj) as Hc.
    fold sizes in Hc. rewrite while_S, Hc. cbn [bind].
    replace (Z.of_nat j <? Z.of_nat n) with true
      by (symmetry; apply Z.ltb_lt; lia).
    cbn [Sem.of_bool Z.eqb].
    destruct (mixed_col_body_exec j f
                (Sem.mkState (Sem.vars st) (Sem.calls st)))
      as [st1 [Hb [Hc1 Hj1]]]; [lia | exact Hj |].
    rewrite Hb. cbn [bind]. unfold Sem.exec_inc, Ex.col_decl.
    cbn [name]. rewrite Hj1. cbn [bind].
    destruct (IH f
                (Sem.mkState
                   (Sem.upd "t_0_j" (Z.of_nat j + 1) (Sem.vars st1))
                   (Sem.calls st1)) (S j))
      as [st' [Hw [Hc' Hj']]].
    + lia.
    + lia.
    + cbn [Sem.vars]. rewrite upd_same. f_equal. lia.
    + exists st'. split; [exact Hw|]. split; [|exact Hj'].
      rewrite Hc'. cbn [Sem.calls]. rewrite Hc1. cbn [Sem.calls].
      cbn [seq flat_map]. rewrite <- !app_assoc. reflexivity.
Qed.

Lemma mixed_serial_exec (f : nat) (st : Sem.State) :
  Sem.vars st "max_tiles_n" = Some (Z.of_nat (m * tn)) ->
  (2 * n + 3 < f)%nat ->
  exists st',
    Sem.run_list (Sem.exec sizes f) ExLinOmp.serial st = Some st' /\
    Sem.calls st'
      = Sem.calls st
        ++ flat_map ExLinOmp.column_calls (seq (m * tn) (n - m * tn))
        ++ ExLinOmp.column_calls n.
Proof.
  intros HM Hf. pose proof (tiles_fit n tn) as Hfit. fold m in Hfit.
  destruct f as [|f]; [lia|].
  unfold ExLinOmp.serial. cbn [Sem.run_list].
  rewrite exec_For. unfold Sem.exec_decl, ExTile.serial_col_decl.
  cbn [rhs name].
  rewrite (eval_var sizes "max_tiles_n" _ _ eq_refl HM). cbn [bind].
  rewrite (while_name sizes _ Ex.col_decl) by reflexivity.
  destruct (mixed_col_while (n - m * tn) f
              (Sem.mkState
                 (Sem.upd "t_0_j" (Z.of_nat (m * tn)) (Sem.vars st))
                 (Sem.calls st)) (m * tn))
    as [st1 [Hw [Hc1 Hj1]]]; [lia | lia | apply upd_same |].
  rewrite Hw. cbn [bind].
  assert (Hend : Sem.exec sizes (S f) Ex.col_end st1
                 = Some (Sem.mkState
                           (Sem.upd "t_0_j" (Z.of_nat n) (Sem.vars st1))
                           (Sem.calls st1))) by reflexivity.
  rewrite Hend. cbn [bind].
  destruct (row_loop_exec n n (S f)
              (Sem.mkState (Sem.upd "t_0_j" (Z.of_nat n) (Sem.vars st1))
                 (Sem.calls st1)))
    as [st2 [Hr [Hc2 [Hi2 Hj2]]]]; [lia | apply upd_same |].
  fold sizes in Hr. rewrite Hr. cbn [bind].
  pose proof (row_end_exec n f st2) as Hre. fold sizes in Hre.
  rewrite Hre. cbn [bind].
  pose proof (foo_call_exec n f
                (Sem.mkState (Sem.upd "t_0_i" 1 (Sem.vars st2))
                   (Sem.calls st2)) 1 (Z.of_nat n)) as Hcall.
  fold sizes in Hcall. rewrite Hcall.
  - cbn [bind].
    pose proof (bar_call_exec n f n
                  (Sem.mkState (Sem.upd "t_0_i" 1 (Sem.vars st2))
                     (Sem.calls st2 ++ [Ex.cell_call (1 - 1, Z.of_nat n)])))
      as Hbar.
    fold sizes in Hbar. cbn [Sem.vars Sem.calls] in Hbar |- *.
    rewrite Hbar by (rewrite upd_other by discriminate; exact Hj2).
    eexists. split; [reflexivity|].
    cbn [Sem.calls]. rewrite Hc2. cbn [Sem.calls]. rewrite Hc1.
    cbn [Sem.calls].
    unfold ExLinOmp.column_calls, quadrant_A, quadrant_B.
    rewrite !map_app. cbn [app map]. rewrite <- !app_assoc. reflexivity.
  - cbn [Sem.vars]. apply upd_same.
  - cbn [Sem.vars]. rewrite upd_other by discriminate. exact Hj2.
Qed.

Lemma linear_tiled_program_exec :
  exists st,
    Sem.exec_list sizes (2 * tn + 2 * n + 13) (ExLinOmp.program tile_macro)
      (Sem.mkState (macro_env tile_macro) []) = Some st /\
    Sem.calls st = ExLinOmp.visited n tn.
Proof.
  pose proof (tiles_fit n tn) as Hfit. fold m in Hfit.
  assert (Hmn : (m <= n)%nat).
  { apply Nat.le_trans with (m * tn)%nat; [|exact Hfit].
    rewrite <- (Nat.mul_1_r m) at 1. apply Nat.mul_le_mono_l. exact tn_pos. }
  unfold Sem.exec_list, ExLinOmp.program.
  replace (2 * tn + 2 * n + 13)%nat with (S (S (2 * tn + 2 * n + 11)))
    by lia.
  set (F := (2 * tn + 2 * n + 11)%nat).
  cbn [app Sem.run_list]. rewrite exec_custom. cbn [bind].
  set (st0 := Sem.mkState (macro_env tile_macro) []).
  assert (Hm0 : forall t, tile_macro = Some t ->
                  Sem.vars st0 "TILE_SIZE" = Some t).
  { intros t ->. reflexivity. }
  (* the parallel block *)
  unfold ExTile.block.
  change (Sem.exec sizes (S (S F))
            (Block (ExTile.prelude tile_macro
                    ++ [CustomCode "#pragma omp for";
                        CustomCode
                          "// OPENMP < 3 requires signed int here ...";
                        ExTile.zA_loop; ExTile.zB_loop;
                        CustomCode "// end parallel"])) st0)
    with (Sem.run_list (Sem.exec sizes (S F))
            (ExTile.prelude tile_macro
             ++ [CustomCode "#pragma omp for";
                 CustomCode "// OPENMP < 3 requires signed int here ...";
                 ExTile.zA_loop; ExTile.zB_loop;
                 CustomCode "// end parallel"]) st0).
  rewrite run_list_app.
  destruct (prelude_exec n tn tn_pos tile_macro tile_value F st0 Hm0)
    as [s1 [He1 [Ht1 [HM1 [Hc1 Hk1]]]]].
  fold sizes m in He1, HM1.
  rewrite He1. cbn [bind Sem.run_list].
  repeat (rewrite exec_custom; cbn [bind]).
  destruct (zA_exec n tn m tn_pos (S F) s1 Ht1 HM1 ltac:(lia))
    as [s2 [He2 [Hc2 Hk2]]].
  fold sizes in He2. rewrite He2. cbn [bind].
  assert (Ht2 : Sem.vars s2 "tile_size" = Some (Z.of_nat tn))
    by (rewrite Hk2 by notin; exact Ht1).
  assert (HM2 : Sem.vars s2 "max_tiles_n" = Some (Z.of_nat (m * tn)))
    by (rewrite Hk2 by notin; exact HM1).
  destruct (zB_exec n tn m tn_pos (S F) s2 Ht2 HM2 ltac:(lia))
    as [s3 [He3 [Hc3 Hk3]]].
  fold sizes in He3. rewrite He3. cbn [bind]. rewrite exec_custom.
  cbn [bind].
  (* the serial part *)
  rewrite run_list_app.
  assert (Hm3 : forall t, tile_macro = Some t ->
                  Sem.vars s3 "TILE_SIZE" = Some t).
  { intros t Ht. rewrite Hk3 by notin. rewrite Hk2 by notin.
    rewrite Hk1 by notin. now apply Hm0. }
  destruct (prelude_exec n tn tn_pos tile_macro tile_value (S F) s3 Hm3)
    as [s4 [He4 [Ht4 [HM4 [Hc4 Hk4]]]]].
  fold sizes m in He4, HM4.
  rewrite He4. cbn [bind].
  destruct (mixed_serial_exec (S (S F)) s4 HM4 ltac:(lia))
    as [s5 [He5 Hc5]].
  rewrite He5. exists s5. split; [reflexivity|].
  rewrite Hc5, Hc4, Hc3, Hc2, Hc1. unfold st0. cbn [Sem.calls app].
  unfold ExLinOmp.visited. fold m. rewrite !map_app, <- !app_assoc.
  reflexivity.
Qed.

End LinearTiles.

(** X18: The OpenMP version for a nonterminal with a quadratic table and one
    tabulated by its right index alone.  Generating it, no pruning loop
    erases the last statement of its list.  With the preprocessor run for a
    macro [TILE_SIZE] that is defined or not and the statements executed in
    their order by one thread, for every sequence length [n] the program
    runs to its end; it calls the first nonterminal on every cell as the
    version for that nonterminal alone does, and the second one in the
    serial part only: on the columns from [max_tiles_n] (the largest
    multiple of the tile size up to [n]) to [n], each once, and on no
    column below.  The loop variables [z] and [y] are [int]s that take the
    value of the [unsigned int] [tile_size], and [max_tiles_n] is an [int]:
    the tile size and the sequence length are below [2^31], so that no value
    wraps. *)
Theorem openmp_linear_table_columns (n : nat) (tile_macro : option Z) :
  0 < effective_tile_size tile_macro < 2 ^ 31 ->
  Z.of_nat n < 2 ^ 31 ->
  let t := Z.to_nat (effective_tile_size tile_macro) in
  exists prog fuel st,
    option_map (preprocess_all (macro_defined tile_macro))
      (print_CYK_openmp_strict (Ex.ast1 [Ex.nt_foo; Ex.nt_bar] false))
      = Some prog /\
    Sem.exec_list (Ex.sizes (Z.of_nat n)) fuel prog
      (Sem.mkState (macro_env tile_macro) []) = Some st /\
    filter (fun c => String.eqb (fst c) "nt_tabulate_bar") (Sem.calls st)
      = map (fun j => ("nt_tabulate_bar", [Z.of_nat j]))
          (seq (n / t * t) (n - n / t * t) ++ [n]) /\
    filter (fun c => negb (String.eqb (fst c) "nt_tabulate_bar"))
      (Sem.calls st)
      = map (fun c => ("nt_tabulate_foo", [fst c; snd c]))
          (ExTile.visited n t) /\
    (forall j, In ("nt_tabulate_bar", [Z.of_nat j]) (Sem.calls st) <->
               (n / t * t <= j <= n)%nat).
Proof.
  intros Hpos _ t.
  assert (Htn : (1 <= t)%nat) by (unfold t; lia).
  assert (Hv : effective_tile_size tile_macro = Z.of_nat t)
    by (unfold t; lia).
  destruct (linear_tiled_program_exec n t Htn tile_macro Hv)
    as [st [He Hc]].
  exists (ExLinOmp.program tile_macro), (2 * t + 2 * n + 13)%nat, st.
  split; [apply linear_tiled_program_eq|]. split; [exact He|].
  pose proof (mixed_visited_bar n t) as Hbar.
  pose proof (mixed_visited_cells n t) as Hcells.
  rewrite <- Hc in Hbar, Hcells.
  split; [exact Hbar|]. split; [exact Hcells|].
  intros j. pose proof (tiles_fit n t) as Hfit.
  assert (Hin : In (ExLin.bar j) (Sem.calls st) <->
                In (ExLin.bar j)
                  (filter ExLinOmp.is_bar (Sem.calls st))).
  { rewrite filter_In. split; [intros H; split; [exact H | reflexivity]|].
    intros [H _]. exact H. }
  change ("nt_tabulate_bar", [Z.of_nat j]) with (ExLin.bar j).
  rewrite Hin, Hbar, in_map_iff. split.
  - intros [x [Hx Hi]]. unfold ExLin.bar in Hx. injection Hx as Hx.
    apply Nat2Z.inj in Hx. subst x. apply in_app_iff in Hi.
    destruct Hi as [Hi | [<- | []]]; [apply in_seq in Hi; lia | lia].
  - intros Hj. exists j. split; [reflexivity|]. apply in_app_iff.
    destruct (Nat.eq_dec j n) as [-> | Hne]; [right; now left|].
    left. apply in_seq. lia.
Qed.

Lemma openmp_linear_table_columns_witness :
  0 < effective_tile_size (Some 2) < 2 ^ 31 /\
  Z.of_nat 5 < 2 ^ 31 /\
  exists prog fuel st,
    option_map (preprocess_all (macro_defined (Some 2)))
      (print_CYK_openmp_strict (Ex.ast1 [Ex.nt_foo; Ex.nt_bar] false))
      = Some prog /\
    Sem.exec_list (Ex.sizes (Z.of_nat 5)) fuel prog
      (Sem.mkState (macro_env (Some 2)) []) = Some st /\
    filter (fun c => String.eqb (fst c) "nt_tabulate_bar") (Sem.calls st)
      = [("nt_tabulate_bar", [4]); ("nt_tabulate_bar", [5])].
Proof.
  split; [simpl; lia|]. split; [simpl; lia|].
  destruct (openmp_linear_table_columns 5 (Some 2))
    as [prog [fuel [st [Hp [He [Hc _]]]]]]; [simpl; lia | simpl; lia |].
  exists prog, fuel, st. split; [exact Hp|]. split; [exact He|]. exact Hc.
Defined.

(** ** Grammars with several tracks *)

Lemma preprocess_loops_and_decls (defined : string -> bool) (active : bool)
    (pre rest : list Statement.Base) :
  forallb loops_and_decls pre = true ->
  Sem.preprocess defined active (pre ++ rest)
  = (if active then pre else []) ++ Sem.preprocess defined active rest.
Proof.
  induction pre as [|x pre IH]; intros H.
  - destruct active; reflexivity.
  - cbn [forallb] in H. apply andb_true_iff in H. destruct H as [H1 H2].
    specialize (IH H2).
    destruct x; simpl in H1; try discriminate;
      cbn [app Sem.preprocess]; rewrite IH; destruct active; reflexivity.
Qed.

(** C6: for a grammar whose axiom does not have exactly one track (so for
    every multi-track grammar), [print_CYK] returns the function "cyk" whose
    statements are the checkpoint flags (if any), the single-thread
    traversal between [#ifndef _OPENMP] and [#else], and nothing between
    [#else] and [#endif]: no tiled or parallel structure is generated.  The
    traversal is the nest of loops and declarations of the tracks, without
    calls: [4^k - 1] loops for [k] tracks, [2 * k] in outside mode.  It is
    compiled where [_OPENMP] is not defined; where it is defined, the
    checkpoint flags are all that is left of the function. *)
Theorem print_CYK_multi_track (ast : AST) :
  cyk ast = true ->
  Symbol.tracks (axiom (grammar ast)) <> 1%nat ->
  wf_tracks ast ->
  exists decls stmts,
    (if checkpoint_cyk ast
     then loaded_decls ast (seq 0 (Symbol.tracks (axiom (grammar ast))))
     else Some []) = Some decls /\
    cyk_traversal_singlethread ast
      (if outside_generation ast then SINGLETHREAD_OUTSIDE
       else SINGLETHREAD) = Some stmts /\
    forallb loops_and_decls stmts = true /\
    (if outside_generation ast
     then list_sum (map count_loops stmts)
          = (2 * Symbol.tracks (axiom (grammar ast)))%nat
     else (list_sum (map count_loops stmts) + 1
           = 4 ^ Symbol.tracks (axiom (grammar ast)))%nat) /\
    print_CYK ast
      = Some (mkFn_Def Ty.RealVoid "cyk"
                (decls ++ [CustomCode "#ifndef _OPENMP"] ++ stmts
                 ++ [CustomCode "#else"; CustomCode "#endif"])) /\
    (forall defined,
       Sem.preprocess defined true
         (decls ++ [CustomCode "#ifndef _OPENMP"] ++ stmts
          ++ [CustomCode "#else"; CustomCode "#endif"])
       = decls ++ (if defined "_OPENMP" then [] else stmts)).
Proof.
  intros Hc Ht Hwf.
  assert (Hd : exists decls,
             (if checkpoint_cyk ast
              then loaded_decls ast
                     (seq 0 (Symbol.tracks (axiom (grammar ast))))
              else Some []) = Some decls).
  { destruct (checkpoint_cyk ast); [|eauto].
    apply loaded_decls_Some; [exact Hwf|].
    apply Forall_forall. intros t Hin. apply in_seq in Hin. lia. }
  destruct Hd as [decls Hd].
  destruct (cyk_traversal_singlethread_Some ast Hwf
              (if outside_generation ast then SINGLETHREAD_OUTSIDE
               else SINGLETHREAD)) as [st Hst].
  assert (Hld : forallb loops_and_decls decls = true).
  { destruct (checkpoint_cyk ast).
    - eapply loaded_decls_loops_and_decls; eassumption.
    - now injection Hd as <-. }
  assert (Hls : forallb loops_and_decls st = true)
    by (eapply cyk_traversal_singlethread_loops_and_decls; eassumption).
  exists decls, st.
  split; [exact Hd|]. split; [exact Hst|]. split; [exact Hls|].
  split; [|split].
  - pose proof Hst as Hn. unfold cyk_traversal_singlethread in Hn.
    inv_bind Hn. apply cyk_traversal_tracks_count_loops in Hn.
    destruct (outside_generation ast); simpl in Hn; lia.
  - unfold print_CYK. rewrite Hc, Hd, Hst. simpl.
    apply Nat.eqb_neq in Ht. rewrite Ht. simpl. reflexivity.
  - intros defined.
    rewrite (preprocess_loops_and_decls defined true decls _ Hld).
    f_equal. cbn [app Sem.preprocess].
    replace (String.prefix "#ifdef " "#ifndef _OPENMP") with false
      by reflexivity.
    replace (String.prefix "#ifndef " "#ifndef _OPENMP") with true
      by reflexivity.
    replace (Sem.directive_arg 8 "#ifndef _OPENMP") with "_OPENMP"
      by reflexivity.
    rewrite (preprocess_loops_and_decls defined _ st _ Hls).
    destruct (defined "_OPENMP"); cbn; [reflexivity | apply app_nil_r].
Qed.

Lemma print_CYK_multi_track_witness :
  exists decls stmts,
    cyk_traversal_singlethread (Ex.ast2 false) SINGLETHREAD = Some stmts /\
    (list_sum (map count_loops stmts) + 1 = 4 ^ 2)%nat /\
    print_CYK (Ex.ast2 false)
      = Some (mkFn_Def Ty.RealVoid "cyk"
                (decls ++ [CustomCode "#ifndef _OPENMP"] ++ stmts
                 ++ [CustomCode "#else"; CustomCode "#endif"])) /\
    (forall defined,
       Sem.preprocess defined true
         (decls ++ [CustomCode "#ifndef _OPENMP"] ++ stmts
          ++ [CustomCode "#else"; CustomCode "#endif"])
       = decls ++ (if defined "_OPENMP" then [] else stmts)).
Proof.
  destruct (print_CYK_multi_track (Ex.ast2 false))
    as [decls [stmts [_ [Hs [_ [Hn [Hp Hpre]]]]]]].
  - reflexivity.
  - simpl. lia.
  - repeat split.
  - exists decls, stmts. split; [exact Hs|]. split; [exact Hn|].
    split; [exact Hp | exact Hpre].
Defined.

(** C6 as stated fails: for a grammar of two tracks the single-thread
    traversal (15 loops) is emitted, but not for the OpenMP branch.
    Nothing stands between [#else] and [#endif], so with [_OPENMP] defined
    no statement of the function is compiled: the single-thread variant is
    no fallback there. *)
Lemma print_CYK_multi_track_no_fallback_counterexample :
  exists fn st,
    Symbol.tracks (axiom (grammar (Ex.ast2 false))) = 2%nat /\
    print_CYK (Ex.ast2 false) = Some fn /\
    cyk_traversal_singlethread (Ex.ast2 false) SINGLETHREAD = Some st /\
    list_sum (map count_loops st) = 15%nat /\
    between "#ifndef _OPENMP" "#else" (stmts fn) = st /\
    between "#else" "#endif" (stmts fn) = [] /\
    Sem.preprocess (fun m => String.eqb m "_OPENMP") true (stmts fn) = [] /\
    ~ (between "#else" "#endif" (stmts fn) = st).
Proof.
  eexists. eexists. split; [reflexivity|].
  split; [vm_compute; reflexivity|]. split; [vm_compute; reflexivity|].
  split; [reflexivity|]. split; [reflexivity|]. split; [reflexivity|].
  split; [reflexivity|]. discriminate.
Qed.
